(** * MultiQueue: several FIFO queues that can also be drained as one

    A shallow embedding of the two [ys::MultiQueue<TYPE, SIZE>] class
    templates of the repository:

    - [Scan]  is [multi_queue.hpp]: every element carries the value of a
      global counter and [front()]/[dequeue()] scan the [SIZE] fronts;
    - [Lazy]  is the second header of the same name: a queue of
      sub-queue indices records the global order and [remain_] counts the
      entries of it that are already gone from their sub-queue.

    Both are embedded as pure functions over a record of the member
    variables.  A member function returns a [result]: the value it
    returns, or the way in which the call does not return.  The headers
    guard their preconditions with [assert], so every function takes the
    build as a flag [ndebug]: with [ndebug = false] a failed assertion
    aborts the program, with [ndebug = true] ([-DNDEBUG]) the assertions are
    gone and the code behind them runs.

    The development has three layers: the embedding and the invariants
    that tie each variant to the global sequence of the values present;
    the facts about them; the properties of the structure, numbered as in
    its specification and checked last on sample runs. *)

From Stdlib Require Import NArith List Bool Lia Sorted Ascii String.
From stdpp Require Import base tactics option list sorting.

Local Open Scope N_scope.

(** ** [size_t] and the standard containers *)

(** [size_t] is a 64-bit unsigned integer (LP64); [++] and [--] wrap. *)
Definition size_t_modulus : N := 18446744073709551616.
Definition SIZE_MAX : N := 18446744073709551615.
(** [ULONG_MAX] of <climits>; [unsigned long] is [size_t] on LP64. *)
Definition ULONG_MAX : N := 18446744073709551615.

Definition incr (x : N) : N := (x + 1) mod size_t_modulus.
Definition decr (x : N) : N := (x + size_t_modulus - 1) mod size_t_modulus.

(** The outcome of a call. *)
Inductive result (X : Type) : Type :=
| Ok (x : X)     (* the call returns [x] *)
| AssertFail     (* an [assert] fails and the program aborts *)
| Throw          (* an exception leaves the call *)
| Undefined.     (* undefined behaviour: subscript out of range,
                    [front()] or [pop_front()] of an empty deque *)
Arguments Ok {X} x.
Arguments AssertFail {X}.
Arguments Throw {X}.
Arguments Undefined {X}.

Definition result_bind {X Y} (f : X → result Y) (r : result X) : result Y :=
  match r with
  | Ok x => f x
  | AssertFail => AssertFail
  | Throw => Throw
  | Undefined => Undefined
  end.
#[global] Instance result_mbind : MBind result := @result_bind.
#[global] Instance result_mret : MRet result := @Ok.

Definition result_map {X Y} (f : X → Y) (r : result X) : result Y :=
  match r with
  | Ok x => Ok (f x)
  | AssertFail => AssertFail
  | Throw => Throw
  | Undefined => Undefined
  end.
#[global] Instance result_fmap : FMap result := @result_map.

(** [assert(c)]: checked unless the program is compiled with [NDEBUG]. *)
Definition assert (ndebug c : bool) : result unit :=
  if ndebug || c then Ok tt else AssertFail.

(** [std::deque<X>] is a list, front first.  [max_size()] depends on the
    library; it is a [size_type], hence at most [SIZE_MAX], and that is all
    that bounds a deque here: [push_back] throws [std::length_error] on a
    deque of [max_size] elements and never fails for want of memory. *)
Abbreviation deque X := (list X) (only parsing).

Definition max_size : N := SIZE_MAX.

Definition deque_size {X} (q : deque X) : N := N.of_nat (length q).

Definition deque_empty {X} (q : deque X) : bool :=
  match q with [] => true | _ :: _ => false end.

Definition deque_front {X} (q : deque X) : result X :=
  match q with x :: _ => Ok x | [] => Undefined end.

Definition pop_front {X} (q : deque X) : result (deque X) :=
  match q with _ :: q' => Ok q' | [] => Undefined end.

(** [push_back]; [None] when it throws [std::length_error]. *)
Definition push_back {X} (q : deque X) (x : X) : option (deque X) :=
  if deque_size q <? max_size then Some (q ++ [x]) else None.

(** [a[i]] for a built-in array [a]. *)
Definition array_at {X} (a : list X) (i : nat) : result X :=
  match a !! i with Some x => Ok x | None => Undefined end.

(** The mutating member functions, as a caller issues them. *)
Inductive op (TYPE : Type) : Type :=
| Enqueue (i : nat) (data : TYPE)
| Dequeue
| DequeueAt (i : nat).
Arguments Enqueue {TYPE} i data.
Arguments Dequeue {TYPE}.
Arguments DequeueAt {TYPE} i.

(** The same calls on other data. *)
Definition map_op {X Y} (f : X → Y) (o : op X) : op Y :=
  match o with
  | Enqueue i data => Enqueue i (f data)
  | Dequeue => Dequeue
  | DequeueAt i => DequeueAt i
  end.

(** Sum of the results of several calls. *)
Fixpoint sum_results (rs : list (result N)) : result N :=
  match rs with
  | [] => Ok 0
  | r :: rs' => n ← r; m ← sum_results rs'; Ok (n + m)
  end.

(** ** The global sequence

    The values present in the structure in the order of their insertion,
    each with the index of the sub-queue that owns it.  [sub i] is what
    sub-queue [i] holds of it. *)
Definition sub {X} (i : nat) (g : list (nat * X)) : list X :=
  (filter (λ e, e.1 = i) g).*2.

(** Removal of the oldest entry owned by sub-queue [i]. *)
Fixpoint remove_first {X} (i : nat) (g : list (nat * X)) : list (nat * X) :=
  match g with
  | [] => []
  | e :: g' => if decide (e.1 = i) then g' else e :: remove_first i g'
  end.

(** The effect of an operation on the global sequence. *)
Definition gstep {X} (o : op X) (g : list (nat * X)) : list (nat * X) :=
  match o with
  | Enqueue i data => g ++ [(i, data)]
  | Dequeue => tail g
  | DequeueAt i => remove_first i g
  end.

(** Insertion sequence numbers.  The caller numbers what it enqueues:
    in [stamped seqno n ops] the first [Enqueue] of [ops] carries a value
    numbered [n], the next one [n + 1], and so on. *)
Fixpoint stamped {X} (seqno : X → nat) (n : nat) (ops : list (op X)) : Prop :=
  match ops with
  | [] => True
  | Enqueue _ data :: ops' => seqno data = n ∧ stamped seqno (S n) ops'
  | _ :: ops' => stamped seqno n ops'
  end.

(** [number n ops] pairs the value of every [Enqueue] of [ops] with the
    number of its insertion, counting from [n]. *)
Fixpoint number {X} (n : nat) (ops : list (op X)) : list (op (nat * X)) :=
  match ops with
  | [] => []
  | Enqueue i data :: ops' => Enqueue i (n, data) :: number (S n) ops'
  | Dequeue :: ops' => Dequeue :: number n ops'
  | DequeueAt i :: ops' => DequeueAt i :: number n ops'
  end.

(** A global sequence in the order of its numbers, all below [n]. *)
Definition ordered {X} (seqno : X → nat) (n : nat) (g : list (nat * X)) : Prop :=
  StronglySorted lt ((λ e, seqno e.2) <$> g) ∧ Forall (λ e, seqno e.2 < n)%nat g.

(** What a caller observes of a structure of [SIZE] sub-queues whose global
    sequence is [g].  [violation] is the outcome of a call outside the
    contract: a failed assertion, or undefined behaviour under [NDEBUG]. *)
Definition violation {X} (ndebug : bool) : result X :=
  if ndebug then Undefined else AssertFail.

Definition g_size {X} (g : list (nat * X)) : N := N.of_nat (length g).

Definition g_empty {X} (g : list (nat * X)) : bool :=
  match g with [] => true | _ :: _ => false end.

Definition g_front {X} (ndebug : bool) (g : list (nat * X)) : result X :=
  match g with e :: _ => Ok e.2 | [] => violation ndebug end.

Definition g_size_at {X} (SIZE : nat) (ndebug : bool) (i : nat)
    (g : list (nat * X)) : result N :=
  if (i <? SIZE)%nat then Ok (N.of_nat (length (sub i g))) else violation ndebug.

Definition g_empty_at {X} (SIZE : nat) (ndebug : bool) (i : nat)
    (g : list (nat * X)) : result bool :=
  if (i <? SIZE)%nat then Ok (deque_empty (sub i g)) else violation ndebug.

Definition g_front_at {X} (SIZE : nat) (ndebug : bool) (i : nat)
    (g : list (nat * X)) : result X :=
  if (i <? SIZE)%nat then
    match sub i g with v :: _ => Ok v | [] => violation ndebug end
  else violation ndebug.

(** ** multi_queue.hpp: sequence numbers and a scan of the fronts *)
Module Scan.

(** [typedef std::pair<size_t, TYPE> Unit]: ID first, data second. *)
Abbreviation Unit TYPE := (N * TYPE)%type (only parsing).

Section MultiQueue.
Context {TYPE : Type}.
Variable SIZE : nat.
Variable ndebug : bool.

Record state : Type := State {
  queues_ : list (deque (Unit TYPE));
  count_ : N;
  length_ : N
}.

(** [MultiQueue()] *)
Definition init : state :=
  {| queues_ := replicate SIZE []; count_ := 0; length_ := 0 |}.

(** The ID at the front of sub-queue [i], if it has one. *)
Definition front_id (qs : list (deque (Unit TYPE))) (i : nat) : option N :=
  match qs !! i with Some (u :: _) => Some u.1 | _ => None end.

(** One turn of the loop of [find_oldest_front] on the locals [(k, id)]. *)
Definition scan (qs : list (deque (Unit TYPE))) (acc : nat * N) (i : nat) : nat * N :=
  let '(k, id) := acc in
  match qs !! i with
  | Some ((t, _) :: _) =>
      if (k <? SIZE)%nat && (id <=? t) then (k, id) else (i, t)
  | _ => (k, id)
  end.

(** [id] is not initialised; [id0] is whatever it holds at first. *)
Definition find_oldest_front_from (id0 : N) (s : state) : nat :=
  (foldl (scan (queues_ s)) (SIZE, id0) (seq 0 SIZE)).1.

Definition find_oldest_front (s : state) : nat :=
  find_oldest_front_from 0 s.

Definition size (s : state) : N := length_ s.

Definition size_at (i : nat) (s : state) : result N :=
  _ ← assert ndebug (i <? SIZE)%nat;
  q ← array_at (queues_ s) i;
  Ok (deque_size q).

Definition empty (s : state) : bool := 0 =? length_ s.

Definition empty_at (i : nat) (s : state) : result bool :=
  _ ← assert ndebug (i <? SIZE)%nat;
  q ← array_at (queues_ s) i;
  Ok (deque_empty q).

Definition front (s : state) : result TYPE :=
  _ ← assert ndebug (0 <? length_ s);
  let i := find_oldest_front s in
  _ ← assert ndebug (i <? SIZE)%nat;
  q ← array_at (queues_ s) i;
  u ← deque_front q;
  Ok u.2.

Definition front_at (i : nat) (s : state) : result TYPE :=
  _ ← assert ndebug (i <? SIZE)%nat;
  q ← array_at (queues_ s) i;
  _ ← assert ndebug (negb (deque_empty q));
  u ← deque_front q;
  Ok u.2.

Definition enqueue (i : nat) (data : TYPE) (s : state) : result (bool * state) :=
  _ ← assert ndebug (i <? SIZE)%nat;
  _ ← assert ndebug (count_ s <? ULONG_MAX);
  if ULONG_MAX <=? count_ s then Ok (false, s) else
  q ← array_at (queues_ s) i;
  match push_back q (count_ s, data) with
  | Some q' =>
      Ok (true, {| queues_ := <[i:=q']> (queues_ s);
                   count_ := incr (count_ s);
                   length_ := incr (length_ s) |})
  | None => _ ← assert ndebug false; Ok (false, s)
  end.

(** The tail shared by both [dequeue]s once sub-queue [i] is chosen. *)
Definition pop (i : nat) (s : state) : result state :=
  q ← array_at (queues_ s) i;
  q' ← pop_front q;
  let len := decr (length_ s) in
  Ok {| queues_ := <[i:=q']> (queues_ s);
        count_ := if len =? 0 then 0 else count_ s;
        length_ := len |}.

Definition dequeue (s : state) : result state :=
  if 0 <? length_ s then
    let i := find_oldest_front s in
    _ ← assert ndebug (i <? SIZE)%nat;
    pop i s
  else Ok s.

Definition dequeue_at (i : nat) (s : state) : result state :=
  _ ← assert ndebug (i <? SIZE)%nat;
  q ← array_at (queues_ s) i;
  if 0 <? deque_size q then pop i s else Ok s.

Definition step (o : op TYPE) (s : state) : result state :=
  match o with
  | Enqueue i data => r ← enqueue i data s; Ok r.2
  | Dequeue => dequeue s
  | DequeueAt i => dequeue_at i s
  end.

Fixpoint run (ops : list (op TYPE)) (s : state) : result state :=
  match ops with
  | [] => Ok s
  | o :: ops' => s' ← step o s; run ops' s'
  end.

(** What sub-queue [i] holds, front first. *)
Definition contents (i : nat) (s : state) : list TYPE :=
  (default [] (queues_ s !! i)).*2.

(** All values present, sub-queue by sub-queue. *)
Definition present (s : state) : list TYPE :=
  concat ((λ i, contents i s) <$> seq 0 SIZE).

(** The IDs of all units present, sub-queue by sub-queue. *)
Definition ids (s : state) : list N :=
  concat ((λ q : deque (Unit TYPE), q.*1) <$> queues_ s).

(** The sizes [size(0)], ..., [size(SIZE - 1)]. *)
Definition sizes (s : state) : list (result N) :=
  (λ i, size_at i s) <$> seq 0 SIZE.

(** The preconditions of the contract, as a caller can check them. *)
Definition within_contract (o : op TYPE) (s : state) : bool :=
  match o with
  | Enqueue i _ => (i <? SIZE)%nat && (count_ s <? ULONG_MAX)
  | Dequeue => negb (empty s)
  | DequeueAt i =>
      (i <? SIZE)%nat &&
      match empty_at i s with Ok b => negb b | _ => false end
  end.

Fixpoint run_contract (ops : list (op TYPE)) (s : state) : option state :=
  match ops with
  | [] => Some s
  | o :: ops' =>
      if within_contract o s then
        match step o s with Ok s' => run_contract ops' s' | _ => None end
      else None
  end.

(** *** Representation invariant

    [tg] lists the units present, oldest first, each with its owner. *)
Definition global (tg : list (nat * Unit TYPE)) : list (nat * TYPE) :=
  (λ e, (e.1, e.2.2)) <$> tg.

Record rep (s : state) (tg : list (nat * Unit TYPE)) : Prop := Rep {
  rep_size : length (queues_ s) = SIZE;
  rep_owner : Forall (λ e, e.1 < SIZE)%nat tg;
  rep_queue : ∀ i, (i < SIZE)%nat → queues_ s !! i = Some (sub i tg);
  rep_sorted : StronglySorted N.lt ((λ e, e.2.1) <$> tg);
  rep_below : Forall (λ e, e.2.1 < count_ s) tg;
  rep_length : length_ s = N.of_nat (length tg);
  rep_count : N.of_nat (length tg) ≤ count_ s ∧ count_ s ≤ ULONG_MAX;
  rep_reset : tg = [] → count_ s = 0
}.

(** How an operation that returns changes [tg]. *)
Definition track (o : op TYPE) (s : state) (tg : list (nat * Unit TYPE)) : list (nat * Unit TYPE) :=
  match o with
  | Enqueue i data =>
      if (i <? SIZE)%nat && (count_ s <? ULONG_MAX)
      then tg ++ [(i, (count_ s, data))] else tg
  | Dequeue => tail tg
  | DequeueAt i => remove_first i tg
  end.

End MultiQueue.

(** The same structure with every value [v] replaced by [f v]. *)
Definition map_state {X Y} (f : X → Y) (s : @state X) : @state Y :=
  {| queues_ := (λ q : deque (Unit X), (λ u, (u.1, f u.2)) <$> q) <$> queues_ s;
     count_ := count_ s;
     length_ := length_ s |}.

End Scan.

(** ** The second header: a queue of indices with lazy deletion *)
Module Lazy.
Section MultiQueue.
Context {TYPE : Type}.
Variable SIZE : nat.
Variable ndebug : bool.

Record state : Type := State {
  index_queue_ : deque nat;
  data_queue_ : list (deque TYPE);
  remain_ : list N;
  length_ : N
}.

(** [MultiQueue()]; the [memset] zeroes [remain_]. *)
Definition init : state :=
  {| index_queue_ := []; data_queue_ := replicate SIZE [];
     remain_ := replicate SIZE 0; length_ := 0 |}.

(** [adjust_deque] on the two members it touches.  Every turn of its loop
    takes one entry from the index queue. *)
Fixpoint adjust_deque (iq : deque nat) (rem : list N) : result (deque nat * list N) :=
  match iq with
  | [] => Ok (iq, rem)
  | i :: iq' =>
      r ← array_at rem i;
      if r =? 0 then Ok (iq, rem) else adjust_deque iq' (<[i:=decr r]> rem)
  end.

Definition size (s : state) : N := length_ s.

Definition size_at (i : nat) (s : state) : result N :=
  _ ← assert ndebug (i <? SIZE)%nat;
  q ← array_at (data_queue_ s) i;
  Ok (deque_size q).

Definition empty (s : state) : bool := deque_empty (index_queue_ s).

Definition empty_at (i : nat) (s : state) : result bool :=
  _ ← assert ndebug (i <? SIZE)%nat;
  q ← array_at (data_queue_ s) i;
  Ok (deque_empty q).

Definition front (s : state) : result TYPE :=
  _ ← assert ndebug (negb (deque_empty (index_queue_ s)));
  i ← deque_front (index_queue_ s);
  q ← array_at (data_queue_ s) i;
  deque_front q.

Definition front_at (i : nat) (s : state) : result TYPE :=
  _ ← assert ndebug (i <? SIZE)%nat;
  q ← array_at (data_queue_ s) i;
  _ ← assert ndebug (negb (deque_empty q));
  deque_front q.

Definition enqueue (i : nat) (data : TYPE) (s : state) : result state :=
  _ ← assert ndebug (i <? SIZE)%nat;
  match push_back (index_queue_ s) i with
  | None => Throw
  | Some iq =>
      q ← array_at (data_queue_ s) i;
      match push_back q data with
      | None => Throw
      | Some q' =>
          Ok {| index_queue_ := iq;
                data_queue_ := <[i:=q']> (data_queue_ s);
                remain_ := remain_ s;
                length_ := incr (length_ s) |}
      end
  end.

Definition dequeue (s : state) : result state :=
  _ ← assert ndebug (negb (deque_empty (index_queue_ s)));
  i ← deque_front (index_queue_ s);
  iq ← pop_front (index_queue_ s);
  q ← array_at (data_queue_ s) i;
  q' ← pop_front q;
  a ← adjust_deque iq (remain_ s);
  Ok {| index_queue_ := a.1;
        data_queue_ := <[i:=q']> (data_queue_ s);
        remain_ := a.2;
        length_ := decr (length_ s) |}.

Definition dequeue_at (i : nat) (s : state) : result state :=
  _ ← assert ndebug (i <? SIZE)%nat;
  q ← array_at (data_queue_ s) i;
  _ ← assert ndebug (negb (deque_empty q));
  q' ← pop_front q;
  f ← deque_front (index_queue_ s);
  a ← (if (i =? f)%nat then
         iq ← pop_front (index_queue_ s);
         adjust_deque iq (remain_ s)
       else
         r ← array_at (remain_ s) i;
         Ok (index_queue_ s, <[i:=incr r]> (remain_ s)));
  Ok {| index_queue_ := a.1;
        data_queue_ := <[i:=q']> (data_queue_ s);
        remain_ := a.2;
        length_ := decr (length_ s) |}.

Definition step (o : op TYPE) (s : state) : result state :=
  match o with
  | Enqueue i data => enqueue i data s
  | Dequeue => dequeue s
  | DequeueAt i => dequeue_at i s
  end.

Fixpoint run (ops : list (op TYPE)) (s : state) : result state :=
  match ops with
  | [] => Ok s
  | o :: ops' => s' ← step o s; run ops' s'
  end.

(** What sub-queue [i] holds, front first. *)
Definition contents (i : nat) (s : state) : list TYPE :=
  default [] (data_queue_ s !! i).

(** All values present, sub-queue by sub-queue. *)
Definition present (s : state) : list TYPE :=
  concat ((λ i, contents i s) <$> seq 0 SIZE).

(** The sizes [size(0)], ..., [size(SIZE - 1)]. *)
Definition sizes (s : state) : list (result N) :=
  (λ i, size_at i s) <$> seq 0 SIZE.

(** The sum of the deficit counters [remain_[i]]. *)
Definition deficit (s : state) : N :=
  foldr N.add 0 (remain_ s).

(** The preconditions of the contract, as a caller can check them. *)
Definition within_contract (o : op TYPE) (s : state) : bool :=
  match o with
  | Enqueue i _ => (i <? SIZE)%nat
  | Dequeue => negb (empty s)
  | DequeueAt i =>
      (i <? SIZE)%nat &&
      match empty_at i s with Ok b => negb b | _ => false end
  end.

Fixpoint run_contract (ops : list (op TYPE)) (s : state) : option state :=
  match ops with
  | [] => Some s
  | o :: ops' =>
      if within_contract o s then
        match step o s with Ok s' => run_contract ops' s' | _ => None end
      else None
  end.

(** *** Representation invariant

    [m] marks every entry of the index queue with the value it stands
    for, or with [None] when that value has left its sub-queue. *)
Definition global (m : list (nat * option TYPE)) : list (nat * TYPE) :=
  omap (λ e, (λ v, (e.1, v)) <$> e.2) m.

Definition head_live (m : list (nat * option TYPE)) : Prop :=
  ∀ i m', m ≠ (i, None) :: m'.

(** Of the entries of sub-queue [i], the first [remain_[i]] are stale and
    the others stand for what [data_queue_[i]] holds, in its order. *)
Definition consistent (dq : list (deque TYPE)) (rem : list N)
    (m : list (nat * option TYPE)) : Prop :=
  ∀ i, (i < SIZE)%nat →
    ∃ r q, rem !! i = Some r ∧ dq !! i = Some q ∧
           sub i m = replicate (N.to_nat r) None ++ (Some <$> q).

Record rep (s : state) (m : list (nat * option TYPE)) : Prop := Rep {
  rep_index : index_queue_ s = m.*1;
  rep_size : length (data_queue_ s) = SIZE ∧ length (remain_ s) = SIZE;
  rep_owner : Forall (λ e, e.1 < SIZE)%nat m;
  rep_queue : consistent (data_queue_ s) (remain_ s) m;
  rep_head : head_live m;
  rep_length : length_ s = N.of_nat (length (global m));
  rep_bound : N.of_nat (length m) ≤ max_size
}.

(** The first live entry of sub-queue [i] becomes stale. *)
Fixpoint kill (i : nat) (m : list (nat * option TYPE)) : list (nat * option TYPE) :=
  match m with
  | [] => []
  | (j, Some v) :: m' =>
      if decide (j = i) then (j, None) :: m' else (j, Some v) :: kill i m'
  | e :: m' => e :: kill i m'
  end.

(** The stale entries at the front go. *)
Fixpoint purge (m : list (nat * option TYPE)) : list (nat * option TYPE) :=
  match m with
  | (_, None) :: m' => purge m'
  | _ => m
  end.

(** How an operation that returns changes [m]. *)
Definition track (o : op TYPE) (m : list (nat * option TYPE)) : list (nat * option TYPE) :=
  match o with
  | Enqueue i data => m ++ [(i, Some data)]
  | Dequeue => purge (tail m)
  | DequeueAt i =>
      match m with
      | (f, _) :: m' => if (i =? f)%nat then purge m' else kill i m
      | [] => m
      end
  end.

End MultiQueue.

(** The same structure with every value [v] replaced by [f v]. *)
Definition map_state {X Y} (f : X → Y) (s : @state X) : @state Y :=
  {| index_queue_ := index_queue_ s;
     data_queue_ := (λ q : deque X, f <$> q) <$> data_queue_ s;
     remain_ := remain_ s;
     length_ := length_ s |}.

End Lazy.


(** ** The two variants side by side

    [agree sA sB]: the two structures hold the same global sequence, and
    the index queue of the second has no more entries than the counter of
    the first has counted. *)
Definition agree {TYPE : Type} (SIZE : nat)
    (sA : @Scan.state TYPE) (sB : @Lazy.state TYPE) : Prop :=
  ∃ tg m, Scan.rep SIZE sA tg ∧ Lazy.rep SIZE sB m ∧
          Scan.global tg = Lazy.global m ∧
          N.of_nat (length m) ≤ Scan.count_ sA.

(** ** Sample runs *)

(** The scenario of a caller: three values into two sub-queues, the oldest
    taken off globally, sub-queue 0 drained, one more value. *)
Definition demo : list (op nat) :=
  [Enqueue 0 0; Enqueue 1 1; Enqueue 0 2; Dequeue; DequeueAt 0; Enqueue 1 3]%nat.

Definition demo_scan : @Scan.state nat :=
  {| Scan.queues_ := [[]; [(1, 1%nat); (3, 3%nat)]];
     Scan.count_ := 4; Scan.length_ := 2 |}.

Definition demo_lazy : @Lazy.state nat :=
  {| Lazy.index_queue_ := [1; 0; 1]%nat;
     Lazy.data_queue_ := [[]; [1; 3]%nat];
     Lazy.remain_ := [1; 0]; Lazy.length_ := 2 |}.

(** What [main] enqueues: the characters of "ccccddcdcdccdd", every 'c'
    into sub-queue 0 and every 'd' into sub-queue 1. *)
Definition main_data : list (op Ascii.ascii) :=
  (λ c, Enqueue (if Ascii.eqb c "c" then 0 else 1)%nat c) <$>
  String.list_ascii_of_string "ccccddcdcdccdd".

(** A run that drains a structure again. *)
Definition drain : list (op nat) :=
  [Enqueue 0 0; Enqueue 1 1; DequeueAt 1; Dequeue]%nat.

(** A structure of one sub-queue that is never empty while [n] more values
    pass through it, and the state this leaves. *)
Definition churn (n : nat) : list (op unit) :=
  Enqueue 0 tt :: concat (replicate n [Enqueue 0 tt; Dequeue]).

Definition churned (n : nat) : @Scan.state unit :=
  {| Scan.queues_ := [[(N.of_nat n, tt)]];
     Scan.count_ := N.of_nat n + 1; Scan.length_ := 1 |}.

(** As many values as it takes to exhaust the counter. *)
Definition exhaust : nat := N.to_nat (ULONG_MAX - 1).

(** ** main.cpp: a caller

    [main] is compiled against either header.  [interface] is what it uses
    of the class; the [bool] that [enqueue] of [multi_queue.hpp] returns is
    dropped, as [main] drops it. *)
Record interface (TYPE Q : Type) : Type := Interface {
  q_new : Q;
  q_size : Q → N;
  q_size_at : nat → Q → result N;
  q_empty : Q → bool;
  q_empty_at : nat → Q → result bool;
  q_front : Q → result TYPE;
  q_front_at : nat → Q → result TYPE;
  q_enqueue : nat → TYPE → Q → result Q;
  q_dequeue : Q → result Q;
  q_dequeue_at : nat → Q → result Q
}.
Arguments Interface {TYPE Q}.
Arguments q_new {TYPE Q}.
Arguments q_size {TYPE Q}.
Arguments q_size_at {TYPE Q}.
Arguments q_empty {TYPE Q}.
Arguments q_empty_at {TYPE Q}.
Arguments q_front {TYPE Q}.
Arguments q_front_at {TYPE Q}.
Arguments q_enqueue {TYPE Q}.
Arguments q_dequeue {TYPE Q}.
Arguments q_dequeue_at {TYPE Q}.

Definition scan_interface {TYPE : Type} (SIZE : nat) (ndebug : bool) :
    interface TYPE (@Scan.state TYPE) :=
  {| q_new := Scan.init SIZE;
     q_size := Scan.size;
     q_size_at := Scan.size_at SIZE ndebug;
     q_empty := Scan.empty;
     q_empty_at := Scan.empty_at SIZE ndebug;
     q_front := Scan.front SIZE ndebug;
     q_front_at := Scan.front_at SIZE ndebug;
     q_enqueue := λ i data s, r ← Scan.enqueue SIZE ndebug i data s; Ok r.2;
     q_dequeue := Scan.dequeue SIZE ndebug;
     q_dequeue_at := Scan.dequeue_at SIZE ndebug |}.

Definition lazy_interface {TYPE : Type} (SIZE : nat) (ndebug : bool) :
    interface TYPE (@Lazy.state TYPE) :=
  {| q_new := Lazy.init SIZE;
     q_size := Lazy.size;
     q_size_at := Lazy.size_at SIZE ndebug;
     q_empty := Lazy.empty;
     q_empty_at := Lazy.empty_at SIZE ndebug;
     q_front := Lazy.front ndebug;
     q_front_at := Lazy.front_at SIZE ndebug;
     q_enqueue := Lazy.enqueue SIZE ndebug;
     q_dequeue := Lazy.dequeue ndebug;
     q_dequeue_at := Lazy.dequeue_at SIZE ndebug |}.

(** A loop runs on fuel: [None] when the fuel is used up before the loop
    ends, [Some r] when the loop ends with [r]. *)
Definition or_fail {X Y} (r : result X) (k : X → option (result Y)) :
    option (result Y) :=
  match r with
  | Ok x => k x
  | AssertFail => Some AssertFail
  | Throw => Some Throw
  | Undefined => Some Undefined
  end.

Definition and_then {X Y} (o : option (result X)) (k : X → option (result Y)) :
    option (result Y) :=
  match o with Some r => or_fail r k | None => None end.

(** The sizes a drained queue goes through, with the value taken at each. *)
Fixpoint countdown {X} (l : list X) : list (N * X) :=
  match l with
  | [] => []
  | x :: l' => (N.of_nat (length l), x) :: countdown l'
  end.

Section caller.
Context {TYPE Q : Type} (I : interface TYPE Q).

(** The mutating member functions through [I]. *)
Definition q_step (o : op TYPE) (q : Q) : result Q :=
  match o with
  | Enqueue i data => q_enqueue I i data q
  | Dequeue => q_dequeue I q
  | DequeueAt i => q_dequeue_at I i q
  end.

Fixpoint q_run (ops : list (op TYPE)) (q : Q) : result Q :=
  match ops with
  | [] => Ok q
  | o :: ops' => q' ← q_step o q; q_run ops' q'
  end.

(** [printf("[%lu] %c\n", size(i), front(i)); dequeue(i);]: the two
    arguments printed and the structure left. *)
Definition report_at (i : nat) (q : Q) : result ((N * TYPE) * Q) :=
  n ← q_size_at I i q;
  c ← q_front_at I i q;
  q' ← q_dequeue_at I i q;
  Ok ((n, c), q').

(** [printf("[%lu] %c\n", size(), front()); dequeue();] *)
Definition report (q : Q) : result ((N * TYPE) * Q) :=
  c ← q_front I q;
  q' ← q_dequeue I q;
  Ok ((q_size I q, c), q').

(** [if (!queue->empty(i)) { ... }] *)
Definition once_at (i : nat) (q : Q) : result (list (N * TYPE) * Q) :=
  e ← q_empty_at I i q;
  if (e : bool) then Ok ([], q) else '(l, q') ← report_at i q; Ok ([l], q').

(** [while (!queue->empty(i)) { ... }] *)
Fixpoint drain_at (fuel : nat) (i : nat) (q : Q) :
    option (result (list (N * TYPE) * Q)) :=
  match fuel with
  | O => None
  | S fuel' =>
      or_fail (q_empty_at I i q) (λ e,
        if e then Some (Ok ([], q)) else
        or_fail (report_at i q) (λ r,
          and_then (drain_at fuel' i r.2) (λ p,
            Some (Ok (r.1 :: p.1, p.2)))))
  end.

(** [while (!queue->empty()) { ... }] *)
Fixpoint drain_all (fuel : nat) (q : Q) : option (result (list (N * TYPE) * Q)) :=
  match fuel with
  | O => None
  | S fuel' =>
      if q_empty I q then Some (Ok ([], q)) else
      or_fail (report q) (λ r,
        and_then (drain_all fuel' r.2) (λ p, Some (Ok (r.1 :: p.1, p.2))))
  end.

(** [for (size_t i(0); data[i]; ++i) queue->enqueue(route, data[i]);] over
    the characters [data] in front of the terminating NUL. *)
Fixpoint fill (route : TYPE → nat) (data : list TYPE) (q : Q) : result Q :=
  match data with
  | [] => Ok q
  | c :: data' => q' ← q_enqueue I (route c) c q; fill route data' q'
  end.

(** The body of [main] for an array [data] routed by [route]: what it
    prints, one pair for each [printf]. *)
Definition main_on (route : TYPE → nat) (data : list TYPE) (fuel : nat) :
    option (result (list (N * TYPE))) :=
  or_fail (fill route data (q_new I)) (λ q0,
  or_fail (once_at 1 q0) (λ r1,
  and_then (drain_at fuel 0 r1.2) (λ r2,
  and_then (drain_all fuel r2.2) (λ r3,
  Some (Ok (r1.1 ++ r2.1 ++ r3.1)))))).

End caller.

(** [data[i] == 'c' ? 0 : 1] *)
Definition main_route (c : ascii) : nat := if Ascii.eqb c "c" then 0%nat else 1%nat.

(** [char data[] = "ccccddcdcdccdd"] *)
Definition main_text : list ascii := list_ascii_of_string "ccccddcdcdccdd".

(** [main] with [ys::MultiQueue<char, 2>] from one header or the other. *)
Definition scan_main (ndebug : bool) (fuel : nat) : option (result (list (N * ascii))) :=
  main_on (scan_interface 2 ndebug) main_route main_text fuel.

Definition lazy_main (ndebug : bool) (fuel : nat) : option (result (list (N * ascii))) :=
  main_on (lazy_interface 2 ndebug) main_route main_text fuel.

(** What [main] prints for [data]: the first character that is not routed
    to sub-queue 0, then those routed to it, then the others, each with the
    size of what it is taken from. *)
Definition main_lines {X} (route : X → nat) (data : list X) : list (N * X) :=
  let cs := filter (λ c, route c = 0%nat) data in
  let ds := filter (λ c, route c ≠ 0%nat) data in
  match ds with d :: _ => [(N.of_nat (length ds), d)] | [] => [] end ++
  countdown cs ++ countdown (tail ds).

(** [refines I SIZE ndebug R room]: the structures [q] behind [I] stand
    for global sequences [g], [R q g], and [room q] more values can go in. *)
Record refines {TYPE Q : Type} (I : interface TYPE Q) (SIZE : nat)
    (ndebug : bool) (R : Q → list (nat * TYPE) → Prop) (room : Q → N) : Prop :=
  Refines {
  rf_new : R (q_new I) [] ∧ room (q_new I) = ULONG_MAX;
  rf_size : ∀ q g, R q g → q_size I q = g_size g;
  rf_empty : ∀ q g, R q g → q_empty I q = g_empty g;
  rf_front : ∀ q g, R q g → q_front I q = g_front ndebug g;
  rf_size_at : ∀ q g i, R q g → q_size_at I i q = g_size_at SIZE ndebug i g;
  rf_empty_at : ∀ q g i, R q g → q_empty_at I i q = g_empty_at SIZE ndebug i g;
  rf_front_at : ∀ q g i, R q g → q_front_at I i q = g_front_at SIZE ndebug i g;
  rf_enqueue : ∀ q g i v, R q g → (i < SIZE)%nat → 0 < room q →
    ∃ q', q_enqueue I i v q = Ok q' ∧ R q' (g ++ [(i, v)]) ∧
          room q' = room q - 1;
  rf_dequeue : ∀ q e g, R q (e :: g) →
    ∃ q', q_dequeue I q = Ok q' ∧ R q' g;
  rf_dequeue_at : ∀ q g i, R q g → (i < SIZE)%nat → sub i g ≠ [] →
    ∃ q', q_dequeue_at I i q = Ok q' ∧ R q' (remove_first i g)
}.

Definition scan_stands {TYPE : Type} (SIZE : nat) (s : @Scan.state TYPE)
    (g : list (nat * TYPE)) : Prop :=
  ∃ tg, Scan.rep SIZE s tg ∧ Scan.global tg = g.

Definition lazy_stands {TYPE : Type} (SIZE : nat) (s : @Lazy.state TYPE)
    (g : list (nat * TYPE)) : Prop :=
  ∃ m, Lazy.rep SIZE s m ∧ Lazy.global m = g.

(** * Facts *)

(** ** Arithmetic of [size_t] *)

Lemma incr_small x : x < SIZE_MAX → incr x = x + 1.
Proof.
  unfold incr, SIZE_MAX, size_t_modulus. intros H.
  apply N.mod_small. lia.
Qed.

Lemma decr_pos x : 0 < x → x < size_t_modulus → decr x = x - 1.
Proof.
  unfold decr, size_t_modulus. intros H0 H.
  replace (x + 18446744073709551616 - 1) with (x - 1 + 1 * 18446744073709551616) by lia.
  rewrite N.Div0.mod_add. apply N.mod_small. lia.
Qed.

Lemma assert_ok ndebug c : c = true → assert ndebug c = Ok tt.
Proof. intros ->. unfold assert. by rewrite orb_true_r. Qed.

Lemma assert_true ndebug : assert ndebug true = Ok tt.
Proof. by apply assert_ok. Qed.

Lemma array_at_lookup {X} (a : list X) i x : a !! i = Some x → array_at a i = Ok x.
Proof. unfold array_at. by intros ->. Qed.

Lemma array_at_ge {X} (a : list X) i : (length a ≤ i)%nat → array_at a i = Undefined.
Proof. unfold array_at. intros H. by rewrite lookup_ge_None_2. Qed.

(** ** Sublists *)

Lemma Forall_sublist {A} (P : A → Prop) (l1 l2 : list A) :
  l1 `sublist_of` l2 → Forall P l2 → Forall P l1.
Proof.
  intros Hsub. rewrite !Forall_forall. intros H x Hx. apply H.
  by eapply elem_of_sublist.
Qed.

Lemma StronglySorted_sublist {A} (R : A → A → Prop) (l1 l2 : list A) :
  l1 `sublist_of` l2 → StronglySorted R l2 → StronglySorted R l1.
Proof.
  induction 1 as [| x l1 l2 Hsub IH | x l1 l2 Hsub IH]; intros Hs.
  - constructor.
  - apply StronglySorted_inv in Hs as [Hs Hx]. constructor; [by apply IH |].
    by eapply Forall_sublist.
  - apply StronglySorted_inv in Hs as [Hs _]. by apply IH.
Qed.

(** ** The global sequence *)
Section global_sequence.
Context {X : Type}.
Implicit Types (g : list (nat * X)) (i j n : nat).

Lemma sub_cons i e g :
  sub i (e :: g) = if decide (e.1 = i) then e.2 :: sub i g else sub i g.
Proof. unfold sub. rewrite filter_cons. by case_decide. Qed.

Lemma sub_app i g1 g2 : sub i (g1 ++ g2) = sub i g1 ++ sub i g2.
Proof. unfold sub. by rewrite filter_app, fmap_app. Qed.

Lemma sub_snoc i j x g :
  sub i (g ++ [(j, x)]) = if decide (j = i) then sub i g ++ [x] else sub i g.
Proof.
  rewrite sub_app, sub_cons. simpl.
  case_decide; [done | by rewrite app_nil_r].
Qed.

Lemma elem_of_sub i x g : x ∈ sub i g ↔ (i, x) ∈ g.
Proof.
  unfold sub. rewrite list_elem_of_fmap. split.
  - intros [[j y] [-> [<- ?]%list_elem_of_filter]]. done.
  - intros ?. exists (i, x). split; [done |]. by apply list_elem_of_filter.
Qed.

Lemma sub_out_of_range n i g :
  Forall (λ e, e.1 < n)%nat g → (n ≤ i)%nat → sub i g = [].
Proof.
  intros Hg Hi. induction Hg as [|e g He _ IH]; [done |].
  rewrite sub_cons, decide_False by lia. done.
Qed.

Lemma length_sub_le i g : (length (sub i g) ≤ length g)%nat.
Proof. unfold sub. rewrite length_fmap. apply length_filter. Qed.

Lemma sub_remove_first i j g :
  sub j (remove_first i g) = if decide (i = j) then tail (sub j g) else sub j g.
Proof.
  induction g as [|e g IH]; simpl; [by case_decide |].
  rewrite (sub_cons j e g).
  destruct (decide (e.1 = i)) as [He | He].
  - subst i. repeat case_decide; try done.
  - rewrite sub_cons, IH. repeat case_decide; try done. congruence.
Qed.

Lemma remove_first_head i x g : remove_first i ((i, x) :: g) = g.
Proof. cbn [remove_first]. by rewrite decide_True. Qed.

Lemma remove_first_absent i g : sub i g = [] → remove_first i g = g.
Proof.
  induction g as [|e g IH]; simpl; [done |]. rewrite sub_cons.
  case_decide; [done |]. intros Hsub. by rewrite IH.
Qed.

Lemma remove_first_sublist i g : remove_first i g `sublist_of` g.
Proof.
  induction g as [|e g IH]; simpl; [done |].
  case_decide; [by apply sublist_cons | by apply sublist_skip].
Qed.

Lemma tail_sublist g : tail g `sublist_of` g.
Proof. destruct g; [done | by apply sublist_cons]. Qed.

Lemma length_remove_first i x g :
  (i, x) ∈ g → length g = S (length (remove_first i g)).
Proof.
  induction g as [|e g IH]; simpl; [by intros ?%elem_of_nil |].
  intros Hin. case_decide; [done |]. simpl. f_equal. apply IH.
  apply elem_of_cons in Hin as [<- | ?]; [done | done].
Qed.

Lemma concat_sub_cons n e g :
  concat ((λ i, sub i (e :: g)) <$> seq 0 n) ≡ₚ
  (if decide (e.1 < n)%nat then [e.2] else []) ++ concat ((λ i, sub i g) <$> seq 0 n).
Proof.
  induction n as [|n IH]; [destruct (decide (e.1 < 0)%nat); [lia | done] |].
  rewrite seq_S, !fmap_app, !concat_app, IH. simpl.
  rewrite !app_nil_r, sub_cons.
  destruct (decide (e.1 = n)) as [-> | Hne].
  - rewrite decide_False by lia. rewrite decide_True by lia. simpl.
    by rewrite Permutation_middle.
  - destruct (decide (e.1 < n)%nat).
    + rewrite decide_True by lia. done.
    + rewrite decide_False by lia. done.
Qed.

Lemma concat_sub n g :
  Forall (λ e, e.1 < n)%nat g → concat ((λ i, sub i g) <$> seq 0 n) ≡ₚ g.*2.
Proof.
  induction 1 as [|e g He _ IH]; simpl.
  - induction n as [|n IHn]; [done |].
    by rewrite seq_S, fmap_app, concat_app, IHn.
  - rewrite concat_sub_cons, decide_True by done. simpl. by rewrite IH.
Qed.

Lemma sum_lengths (ls : list (list X)) :
  foldr N.add 0 ((λ l, N.of_nat (length l)) <$> ls) = N.of_nat (length (concat ls)).
Proof.
  induction ls as [|l ls IH]; [done |].
  rewrite fmap_cons. cbn [foldr concat]. rewrite IH, length_app. lia.
Qed.

Lemma sum_sub_lengths n g :
  Forall (λ e, e.1 < n)%nat g →
  foldr N.add 0 ((λ i, N.of_nat (length (sub i g))) <$> seq 0 n) = N.of_nat (length g).
Proof.
  intros Hg.
  rewrite <- (length_fmap snd g), <- (Permutation_length (concat_sub n g Hg)).
  rewrite <- sum_lengths, <- list_fmap_compose. done.
Qed.

Lemma ordered_sublist seqno n g g' :
  g' `sublist_of` g → ordered seqno n g → ordered seqno n g'.
Proof.
  intros Hsub [Hs Hb]. split.
  - eapply StronglySorted_sublist; [| exact Hs]. by apply fmap_sublist.
  - eapply Forall_sublist; [| exact Hb]. done.
Qed.

Lemma ordered_mono seqno n n' g :
  (n ≤ n')%nat → ordered seqno n g → ordered seqno n' g.
Proof.
  intros Hn [Hs Hb]. split; [done |].
  eapply Forall_impl; [exact Hb |]. simpl. lia.
Qed.

Lemma ordered_snoc seqno n g i x :
  seqno x = n → ordered seqno n g → ordered seqno (S n) (g ++ [(i, x)]).
Proof.
  intros Hx [Hs Hb]. split.
  - rewrite fmap_app. simpl. revert Hs Hb.
    induction g as [|e g IH]; simpl; intros Hs Hb.
    + repeat constructor.
    + apply StronglySorted_inv in Hs as [Hs He].
      apply Forall_cons in Hb as [Hb1 Hb].
      constructor; [by apply IH |].
      apply Forall_app. split; [done |].
      constructor; [simpl in *; lia | constructor].
  - apply Forall_app. split.
    + eapply Forall_impl; [exact Hb |]. intros e He. simpl in *. lia.
    + constructor; [simpl; lia | constructor].
Qed.

Lemma ordered_gstep seqno n o g :
  match o with Enqueue _ data => seqno data = n | _ => True end →
  ordered seqno n g →
  ordered seqno (match o with Enqueue _ _ => S n | _ => n end) (gstep o g).
Proof.
  intros Ho Hg. destruct o as [i data | | i]; simpl.
  - by apply ordered_snoc.
  - eapply ordered_sublist; [apply tail_sublist | done].
  - eapply ordered_sublist; [apply remove_first_sublist | done].
Qed.

Lemma ordered_head_least seqno n e g x :
  ordered seqno n (e :: g) → x ∈ (e :: g).*2 → (seqno e.2 ≤ seqno x)%nat.
Proof.
  intros [Hs _] Hin. simpl in *.
  apply StronglySorted_inv in Hs as [_ He].
  apply elem_of_cons in Hin as [-> | Hin]; [done |].
  apply list_elem_of_fmap in Hin as [e' [-> Hin]].
  rewrite Forall_fmap in He. rewrite Forall_forall in He.
  by apply Nat.lt_le_incl, (He e').
Qed.

Lemma ordered_NoDup seqno n g : ordered seqno n g → NoDup (seqno <$> g.*2).
Proof.
  intros [Hs _]. rewrite <- list_fmap_compose.
  induction g as [|e g IH]; simpl in *; [constructor |].
  apply StronglySorted_inv in Hs as [Hs He].
  constructor; [| by apply IH].
  intros Hin. apply list_elem_of_fmap in Hin as [e' [Heq Hin]].
  rewrite Forall_fmap, Forall_forall in He.
  specialize (He e' Hin). simpl in *. lia.
Qed.

End global_sequence.

Lemma sub_fmap {X Y} (f : X → Y) i (g : list (nat * X)) :
  sub i ((λ e, (e.1, f e.2)) <$> g) = f <$> sub i g.
Proof.
  induction g as [|e g IH]; [done |].
  rewrite fmap_cons, (sub_cons i e g), (sub_cons i (e.1, f e.2)). cbn [fst snd].
  destruct (decide (e.1 = i)); [rewrite fmap_cons |]; by rewrite IH.
Qed.

(** ** Observations of a global sequence *)

Lemma sum_results_ok (ns : list N) :
  sum_results (Ok <$> ns) = Ok (foldr N.add 0 ns).
Proof.
  induction ns as [|n ns IH]; [done |].
  rewrite fmap_cons. cbn [sum_results foldr]. by rewrite IH.
Qed.

Lemma g_sizes_sum {X} SIZE ndebug (g : list (nat * X)) :
  Forall (λ e, e.1 < SIZE)%nat g →
  sum_results ((λ i, g_size_at SIZE ndebug i g) <$> seq 0 SIZE) = Ok (g_size g).
Proof.
  intros Hg.
  rewrite (list_fmap_ext (λ i, g_size_at SIZE ndebug i g)
             (Ok ∘ (λ i, N.of_nat (length (sub i g)))) (seq 0 SIZE)).
  - by rewrite list_fmap_compose, sum_results_ok, sum_sub_lengths.
  - intros k i Hk. apply lookup_seq in Hk as [-> Hk]. unfold g_size_at. simpl.
    by rewrite (proj2 (Nat.ltb_lt _ _) Hk).
Qed.

Lemma g_empty_size {X} (g : list (nat * X)) : g_empty g = true ↔ g_size g = 0.
Proof. unfold g_size. destruct g; simpl; split; (done || lia). Qed.

Lemma g_empty_size_at {X} SIZE ndebug i (g : list (nat * X)) :
  (i < SIZE)%nat →
  ∃ b n, g_empty_at SIZE ndebug i g = Ok b ∧ g_size_at SIZE ndebug i g = Ok n ∧
         (b = true ↔ n = 0).
Proof.
  intros Hi. unfold g_empty_at, g_size_at. rewrite (proj2 (Nat.ltb_lt _ _) Hi).
  eexists _, _. split_and!; try done.
  destruct (sub i g); simpl; split; (done || lia).
Qed.

Lemma g_frame {X} SIZE ndebug i j (g : list (nat * X)) :
  j ≠ i →
  g_size_at SIZE ndebug j (remove_first i g) = g_size_at SIZE ndebug j g ∧
  g_front_at SIZE ndebug j (remove_first i g) = g_front_at SIZE ndebug j g.
Proof.
  intros Hne. unfold g_size_at, g_front_at.
  rewrite sub_remove_first, decide_False by done. done.
Qed.

Lemma g_front_oldest {X} (seqno : X → nat) n ndebug (g : list (nat * X))
    (present : list X) :
  present ≡ₚ g.*2 → ordered seqno n g → g_empty g = false →
  ∃ v, g_front ndebug g = Ok v ∧ v ∈ present ∧
       (∀ w, w ∈ present → (seqno v ≤ seqno w)%nat) ∧
       NoDup (seqno <$> present).
Proof.
  intros Hp Hord Hne. destruct g as [|e g]; [done |].
  exists e.2. split_and!.
  - done.
  - rewrite Hp. apply elem_of_cons. by left.
  - intros w Hw. rewrite Hp in Hw. by eapply ordered_head_least.
  - rewrite Hp. by eapply ordered_NoDup.
Qed.

Lemma g_dequeue {X} ndebug (g : list (nat * X)) :
  g_empty g = false →
  ∃ k v, g_front ndebug g = Ok v ∧ (k, v) ∈ g ∧
         sub k g = v :: sub k (tail g) ∧
         (∀ j, j ≠ k → sub j (tail g) = sub j g) ∧
         g_size g = g_size (tail g) + 1.
Proof.
  intros Hne. destruct g as [|[k v] g]; [done |].
  exists k, v. split_and!.
  - done.
  - apply elem_of_cons. by left.
  - rewrite sub_cons. by rewrite decide_True.
  - intros j Hj. rewrite sub_cons. by rewrite decide_False.
  - unfold g_size. simpl. lia.
Qed.

(** ** multi_queue.hpp *)
Section scan_facts.
Context {TYPE : Type}.
Variable SIZE : nat.
Variable ndebug : bool.
Implicit Types (s : @Scan.state TYPE) (tg : list (nat * Scan.Unit TYPE)).
Implicit Types (qs : list (list (Scan.Unit TYPE))).

Lemma scan_front_id qs k id i :
  Scan.scan SIZE qs (k, id) i =
    match Scan.front_id qs i with
    | Some t => if (k <? SIZE)%nat && (id <=? t) then (k, id) else (i, t)
    | None => (k, id)
    end.
Proof.
  unfold Scan.scan, Scan.front_id.
  destruct (qs !! i) as [[|[t v] q]|]; done.
Qed.

(** The loop of [find_oldest_front] after the sub-queues below [n]: either
    all of them are empty and [k] is still [SIZE], or [k] is one of them and
    [id], the ID at its front, is the least ID at a front. *)
Lemma scan_loop qs id0 n :
  (n ≤ SIZE)%nat →
  ∃ k id, foldl (Scan.scan SIZE qs) (SIZE, id0) (seq 0 n) = (k, id) ∧
    ((k = SIZE ∧ ∀ i, (i < n)%nat → Scan.front_id qs i = None) ∨
     ((k < n)%nat ∧ Scan.front_id qs k = Some id ∧
      ∀ i t, (i < n)%nat → Scan.front_id qs i = Some t → id ≤ t)).
Proof.
  induction n as [|n IH]; intros Hn.
  - exists SIZE, id0. split; [done |]. left. split; [done | lia].
  - destruct IH as (k & id & Hfold & Hk); [lia |].
    rewrite seq_S, foldl_app, Hfold. cbn [foldl Nat.add]. rewrite scan_front_id.
    destruct (Scan.front_id qs n) as [t|] eqn:Hfront.
    + destruct Hk as [[-> Hnone] | (Hlt & Hfk & Hmin)].
      * rewrite Nat.ltb_irrefl. simpl. exists n, t. split; [done |]. right.
        split; [lia |]. split; [done |]. intros i t' Hi Hi'.
        destruct (decide (i = n)) as [-> | Hne]; [by simplify_eq |].
        rewrite Hnone in Hi' by lia. done.
      * assert ((k <? SIZE)%nat = true) as -> by (apply Nat.ltb_lt; lia).
        simpl. destruct (N.leb_spec id t) as [Hle | Hgt].
        -- exists k, id. split; [done |]. right. split; [lia |].
           split; [done |]. intros i t' Hi Hi'.
           destruct (decide (i = n)) as [-> | Hne]; [by simplify_eq |].
           apply (Hmin i); [lia | done].
        -- exists n, t. split; [done |]. right. split; [lia |].
           split; [done |]. intros i t' Hi Hi'.
           destruct (decide (i = n)) as [-> | Hne]; [by simplify_eq |].
           assert (id ≤ t') by (apply (Hmin i); [lia | done]). lia.
    + exists k, id. split; [done |].
      destruct Hk as [[-> Hnone] | (Hlt & Hfk & Hmin)].
      * left. split; [done |]. intros i Hi.
        destruct (decide (i = n)) as [-> | Hne]; [done | apply Hnone; lia].
      * right. split; [lia |]. split; [done |]. intros i t' Hi Hi'.
        destruct (decide (i = n)) as [-> | Hne]; [congruence |].
        apply (Hmin i); [lia | done].
Qed.

(** What [id] holds before the loop does not matter. *)
Lemma find_oldest_front_from_any id0 s :
  Scan.find_oldest_front_from SIZE id0 s = Scan.find_oldest_front SIZE s.
Proof.
  unfold Scan.find_oldest_front, Scan.find_oldest_front_from.
  assert (∀ l k id id', (k < SIZE → id = id')%nat →
    ∃ k' j j', foldl (Scan.scan SIZE (Scan.queues_ s)) (k, id) l = (k', j) ∧
               foldl (Scan.scan SIZE (Scan.queues_ s)) (k, id') l = (k', j') ∧
               (k' < SIZE → j = j')%nat) as H.
  { induction l as [|i l IH]; intros k id id' Hk; cbn [foldl].
    - by exists k, id, id'.
    - rewrite !scan_front_id.
      destruct (Scan.front_id (Scan.queues_ s) i) as [t|]; [| by apply IH].
      destruct (Nat.ltb_spec k SIZE) as [Hlt | Hge]; simpl.
      + rewrite <- (Hk Hlt). destruct (id <=? t); by apply IH.
      + by apply IH. }
  destruct (H (seq 0 SIZE) SIZE id0 0) as (k & j & j' & -> & -> & _); [lia | done].
Qed.

(** *** The representation invariant is kept *)

Lemma scan_rep_init : Scan.rep SIZE (Scan.init (TYPE:=TYPE) SIZE) [].
Proof.
  split; simpl; try done.
  - apply length_replicate.
  - intros i Hi. by apply lookup_replicate_2.
  - constructor.
Qed.

Lemma scan_rep_front_id s tg i :
  Scan.rep SIZE s tg → (i < SIZE)%nat →
  Scan.front_id (Scan.queues_ s) i = fst <$> head (sub i tg).
Proof.
  intros Hrep Hi. unfold Scan.front_id.
  rewrite (Scan.rep_queue _ _ _ Hrep i Hi). by destruct (sub i tg).
Qed.

(** The scan finds the owner of the oldest unit. *)
Lemma scan_rep_find_oldest_front s o u tg :
  Scan.rep SIZE s ((o, u) :: tg) → Scan.find_oldest_front SIZE s = o.
Proof.
  intros Hrep. unfold Scan.find_oldest_front, Scan.find_oldest_front_from.
  pose proof (Scan.rep_owner _ _ _ Hrep) as Ho.
  apply Forall_cons in Ho as [Ho Hown]. simpl in Ho.
  assert (Scan.front_id (Scan.queues_ s) o = Some u.1) as Hfo.
  { rewrite (scan_rep_front_id _ _ _ Hrep Ho), sub_cons.
    by rewrite decide_True. }
  destruct (scan_loop (Scan.queues_ s) 0 SIZE) as (k & id & -> & Hk); [done |].
  simpl. destruct Hk as [[_ Hnone] | (Hlt & Hfk & Hmin)].
  - rewrite Hnone in Hfo by done. done.
  - specialize (Hmin o u.1 Ho Hfo).
    rewrite (scan_rep_front_id _ _ _ Hrep Hlt), sub_cons in Hfk. simpl in Hfk.
    destruct (decide (o = k)) as [-> | Hne]; [done |].
    destruct (sub k tg) as [|[t v] q] eqn:Hsub; [done |].
    simpl in Hfk. simplify_eq.
    assert ((k, (id, v)) ∈ tg) as Hin.
    { apply elem_of_sub. rewrite Hsub. apply elem_of_cons. by left. }
    pose proof (Scan.rep_sorted _ _ _ Hrep) as Hs. simpl in Hs.
    apply StronglySorted_inv in Hs as [_ Hs].
    rewrite Forall_fmap, Forall_forall in Hs.
    specialize (Hs _ Hin). simpl in Hs. lia.
Qed.

(** [pop] on a sub-queue that is not empty. *)
Lemma scan_rep_pop s tg i :
  Scan.rep SIZE s tg → (i < SIZE)%nat → sub i tg ≠ [] →
  ∃ s', Scan.pop i s = Ok s' ∧ Scan.rep SIZE s' (remove_first i tg).
Proof.
  intros Hrep Hi Hne. unfold Scan.pop.
  rewrite (array_at_lookup _ _ _ (Scan.rep_queue _ _ _ Hrep i Hi)).
  destruct (sub i tg) as [|u q] eqn:Hsub; [done |]. simpl.
  eexists. split; [done |].
  assert ((i, u) ∈ tg) as Hin.
  { apply elem_of_sub. rewrite Hsub. apply elem_of_cons. by left. }
  pose proof (length_remove_first _ _ _ Hin) as Hlen.
  pose proof (remove_first_sublist i tg) as Hsl.
  destruct Hrep as [Hsz Hown Hq Hsort Hbelow Hlength [Hcnt Hmax] Hreset].
  assert (decr (Scan.length_ s) = N.of_nat (length (remove_first i tg))) as Hdecr.
  { rewrite decr_pos; unfold ULONG_MAX, size_t_modulus in *; lia. }
  split; simpl.
  - by rewrite length_insert.
  - by eapply Forall_sublist.
  - intros j Hj. rewrite sub_remove_first.
    destruct (decide (i = j)) as [<- | Hij].
    + rewrite list_lookup_insert_eq by lia. by rewrite Hsub.
    + rewrite list_lookup_insert_ne by done. by apply Hq.
  - eapply StronglySorted_sublist; [| exact Hsort]. by apply fmap_sublist.
  - rewrite Hdecr. destruct (N.eqb_spec (N.of_nat (length (remove_first i tg))) 0) as [H0 | H0].
    + destruct (remove_first i tg); [constructor | simpl in H0; lia].
    + by eapply Forall_sublist.
  - done.
  - rewrite Hdecr. destruct (N.eqb_spec (N.of_nat (length (remove_first i tg))) 0); lia.
  - intros Hnil. rewrite Hdecr, Hnil. done.
Qed.

(** [enqueue] while the counter is not exhausted. *)
Lemma scan_rep_enqueue s tg i data :
  Scan.rep SIZE s tg → (i < SIZE)%nat → Scan.count_ s < ULONG_MAX →
  ∃ s', Scan.enqueue SIZE ndebug i data s = Ok (true, s') ∧
        Scan.rep SIZE s' (tg ++ [(i, (Scan.count_ s, data))]).
Proof.
  intros Hrep Hi Hc. unfold Scan.enqueue.
  rewrite (proj2 (Nat.ltb_lt _ _) Hi), (proj2 (N.ltb_lt _ _) Hc), assert_true.
  simpl.
  destruct (N.leb_spec ULONG_MAX (Scan.count_ s)) as [? | _]; [lia |].
  rewrite (array_at_lookup _ _ _ (Scan.rep_queue _ _ _ Hrep i Hi)). simpl.
  destruct Hrep as [Hsz Hown Hq Hsort Hbelow Hlength [Hcnt Hmax] Hreset].
  pose proof (length_sub_le i tg) as Hle.
  unfold push_back, deque_size, max_size.
  destruct (N.ltb_spec (N.of_nat (length (sub i tg))) SIZE_MAX) as [_ | Hge];
    [| unfold ULONG_MAX, SIZE_MAX in *; lia].
  eexists. split; [done |].
  assert (incr (Scan.count_ s) = Scan.count_ s + 1) as Hic
    by (apply incr_small; unfold ULONG_MAX, SIZE_MAX in *; lia).
  assert (incr (Scan.length_ s) = Scan.length_ s + 1) as Hil
    by (apply incr_small; unfold ULONG_MAX, SIZE_MAX in *; lia).
  split; simpl; rewrite ?Hic, ?Hil.
  - by rewrite length_insert.
  - apply Forall_app. split; [done |]. by repeat constructor.
  - intros j Hj. rewrite sub_snoc.
    destruct (decide (i = j)) as [<- | Hij].
    + rewrite list_lookup_insert_eq by lia. done.
    + rewrite list_lookup_insert_ne by done. by apply Hq.
  - rewrite fmap_app. apply StronglySorted_app. split_and!.
    + intros t1 t2 Ht1 Ht2. apply list_elem_of_fmap in Ht1 as [e [-> He]].
      apply list_elem_of_singleton in Ht2 as ->. simpl.
      rewrite Forall_forall in Hbelow. by apply Hbelow.
    + done.
    + repeat constructor.
  - apply Forall_app. split.
    + eapply Forall_impl; [exact Hbelow |]. intros e He. simpl in *. lia.
    + constructor; [simpl; lia | constructor].
  - rewrite length_app. simpl. lia.
  - rewrite length_app. simpl. lia.
  - intros Hnil. by destruct tg.
Qed.

(** Every operation that returns keeps the invariant, with [tg] changed as
    [Scan.track] says. *)
Lemma scan_step_rep o s tg s' :
  Scan.rep SIZE s tg → Scan.step SIZE ndebug o s = Ok s' →
  Scan.rep SIZE s' (Scan.track SIZE o s tg).
Proof.
  intros Hrep Hstep. destruct o as [i data | | i]; simpl in *.
  - destruct (Nat.ltb_spec i SIZE) as [Hi | Hi];
      [destruct (N.ltb_spec (Scan.count_ s) ULONG_MAX) as [Hc | Hc] |]; simpl.
    + destruct (scan_rep_enqueue s tg i data Hrep Hi Hc) as (s1 & Heq & Hrep1).
      rewrite Heq in Hstep. simpl in Hstep. by simplify_eq.
    + unfold Scan.enqueue, assert in Hstep.
      rewrite (proj2 (Nat.ltb_lt _ _) Hi), (proj2 (N.ltb_ge _ _) Hc) in Hstep.
      rewrite (proj2 (N.leb_le _ _) Hc) in Hstep.
      destruct ndebug; simpl in Hstep; by simplify_eq.
    + unfold Scan.enqueue, assert in Hstep.
      rewrite (proj2 (Nat.ltb_ge _ _) Hi) in Hstep.
      rewrite array_at_ge in Hstep by (by rewrite (Scan.rep_size _ _ _ Hrep)).
      destruct ndebug; simpl in Hstep; [| done].
      destruct (ULONG_MAX <=? Scan.count_ s); simpl in Hstep; by simplify_eq.
  - unfold Scan.dequeue in Hstep.
    destruct (N.ltb_spec 0 (Scan.length_ s)) as [Hpos | Hzero].
    + destruct tg as [|[o u] tg].
      { rewrite (Scan.rep_length _ _ _ Hrep) in Hpos. simpl in Hpos. lia. }
      rewrite (scan_rep_find_oldest_front _ _ _ _ Hrep) in Hstep.
      pose proof (Scan.rep_owner _ _ _ Hrep) as Ho.
      apply Forall_cons in Ho as [Ho _]. simpl in Ho.
      rewrite (proj2 (Nat.ltb_lt _ _) Ho), assert_true in Hstep. simpl in Hstep.
      destruct (scan_rep_pop s ((o, u) :: tg) o Hrep Ho) as (s1 & Heq & Hrep1).
      { rewrite sub_cons. by rewrite decide_True. }
      rewrite remove_first_head in Hrep1. rewrite Heq in Hstep. by simplify_eq.
    + simplify_eq. destruct tg; [done |].
      rewrite (Scan.rep_length _ _ _ Hrep) in Hzero. simpl in Hzero. lia.
  - unfold Scan.dequeue_at in Hstep.
    destruct (Nat.ltb_spec i SIZE) as [Hi | Hi].
    + rewrite assert_true in Hstep. simpl in Hstep.
      rewrite (array_at_lookup _ _ _ (Scan.rep_queue _ _ _ Hrep i Hi)) in Hstep.
      simpl in Hstep. destruct (sub i tg) as [|u q] eqn:Hsub.
      * simpl in Hstep. simplify_eq. by rewrite remove_first_absent.
      * destruct (scan_rep_pop s tg i Hrep Hi) as (s1 & Heq & Hrep1);
          [by rewrite Hsub |].
        unfold deque_size in Hstep. cbn [length] in Hstep.
        rewrite (proj2 (N.ltb_lt 0 _)), Heq in Hstep by lia.
        by simplify_eq.
    + unfold assert in Hstep.
      rewrite array_at_ge in Hstep by (by rewrite (Scan.rep_size _ _ _ Hrep)).
      by destruct ndebug.
Qed.

Lemma scan_run_rep ops : ∀ s tg s',
  Scan.rep SIZE s tg → Scan.run SIZE ndebug ops s = Ok s' →
  ∃ tg', Scan.rep SIZE s' tg'.
Proof.
  induction ops as [|o ops IH]; intros s tg s' Hrep Hrun; simpl in Hrun.
  - simplify_eq. by exists tg.
  - destruct (Scan.step SIZE ndebug o s) as [s1| | |] eqn:Hstep; try done.
    simpl in Hrun. eapply IH; [| exact Hrun]. by eapply scan_step_rep.
Qed.

Lemma scan_reachable_rep ops s :
  Scan.run SIZE ndebug ops (Scan.init SIZE) = Ok s → ∃ tg, Scan.rep SIZE s tg.
Proof. apply scan_run_rep with (tg := []), scan_rep_init. Qed.

(** *** What a caller observes *)

Lemma scan_global_sub i tg : sub i (Scan.global tg) = (sub i tg).*2.
Proof. unfold Scan.global. by rewrite (sub_fmap snd). Qed.

Lemma scan_size s tg : Scan.rep SIZE s tg → Scan.size s = g_size (Scan.global tg).
Proof.
  intros Hrep. unfold Scan.size, g_size, Scan.global.
  by rewrite length_fmap, (Scan.rep_length _ _ _ Hrep).
Qed.

Lemma scan_empty s tg :
  Scan.rep SIZE s tg → Scan.empty s = g_empty (Scan.global tg).
Proof.
  intros Hrep. unfold Scan.empty. rewrite (Scan.rep_length _ _ _ Hrep).
  by destruct tg.
Qed.

Lemma scan_violation {Z} i s tg (k : list (Scan.Unit TYPE) → result Z) :
  Scan.rep SIZE s tg → (SIZE ≤ i)%nat →
  (_ ← assert ndebug false; q ← array_at (Scan.queues_ s) i; k q) =
    violation ndebug.
Proof.
  intros Hrep Hi. unfold assert, violation.
  rewrite array_at_ge by (by rewrite (Scan.rep_size _ _ _ Hrep)).
  by destruct ndebug.
Qed.

Lemma scan_size_at i s tg :
  Scan.rep SIZE s tg →
  Scan.size_at SIZE ndebug i s = g_size_at SIZE ndebug i (Scan.global tg).
Proof.
  intros Hrep. unfold Scan.size_at, g_size_at.
  destruct (Nat.ltb_spec i SIZE) as [Hi | Hi].
  - rewrite assert_true. simpl.
    rewrite (array_at_lookup _ _ _ (Scan.rep_queue _ _ _ Hrep i Hi)). simpl.
    unfold deque_size. by rewrite scan_global_sub, length_fmap.
  - by apply (scan_violation i s tg).
Qed.

Lemma scan_empty_at i s tg :
  Scan.rep SIZE s tg →
  Scan.empty_at SIZE ndebug i s = g_empty_at SIZE ndebug i (Scan.global tg).
Proof.
  intros Hrep. unfold Scan.empty_at, g_empty_at.
  destruct (Nat.ltb_spec i SIZE) as [Hi | Hi].
  - rewrite assert_true. simpl.
    rewrite (array_at_lookup _ _ _ (Scan.rep_queue _ _ _ Hrep i Hi)). simpl.
    rewrite scan_global_sub. by destruct (sub i tg).
  - by apply (scan_violation i s tg).
Qed.

Lemma scan_front_at i s tg :
  Scan.rep SIZE s tg →
  Scan.front_at SIZE ndebug i s = g_front_at SIZE ndebug i (Scan.global tg).
Proof.
  intros Hrep. unfold Scan.front_at, g_front_at.
  destruct (Nat.ltb_spec i SIZE) as [Hi | Hi].
  - rewrite assert_true. simpl.
    rewrite (array_at_lookup _ _ _ (Scan.rep_queue _ _ _ Hrep i Hi)). simpl.
    rewrite scan_global_sub. destruct (sub i tg) as [|u q]; simpl.
    + unfold assert, violation. by destruct ndebug.
    + by rewrite assert_true.
  - by apply (scan_violation i s tg).
Qed.

Lemma scan_find_oldest_front_empty s :
  Scan.rep SIZE s [] → Scan.find_oldest_front SIZE s = SIZE.
Proof.
  intros Hrep. unfold Scan.find_oldest_front, Scan.find_oldest_front_from.
  destruct (scan_loop (Scan.queues_ s) 0 SIZE) as (k & id & -> & Hk); [done |].
  simpl. destruct Hk as [[-> _] | (Hlt & Hfk & _)]; [done |].
  by rewrite (scan_rep_front_id _ _ _ Hrep Hlt) in Hfk.
Qed.

Lemma scan_front s tg :
  Scan.rep SIZE s tg → Scan.front SIZE ndebug s = g_front ndebug (Scan.global tg).
Proof.
  intros Hrep. unfold Scan.front. rewrite (Scan.rep_length _ _ _ Hrep).
  destruct tg as [|[o u] tg].
  - rewrite (scan_find_oldest_front_empty _ Hrep), Nat.ltb_irrefl.
    rewrite array_at_ge by (by rewrite (Scan.rep_size _ _ _ Hrep)).
    unfold assert, violation. simpl. by destruct ndebug.
  - rewrite (scan_rep_find_oldest_front _ _ _ _ Hrep).
    pose proof (Scan.rep_owner _ _ _ Hrep) as Ho.
    apply Forall_cons in Ho as [Ho _]. simpl in Ho.
    rewrite (proj2 (Nat.ltb_lt _ _) Ho), assert_true.
    rewrite (array_at_lookup _ _ _ (Scan.rep_queue _ _ _ Hrep o Ho)).
    rewrite sub_cons. cbn [fst]. rewrite decide_True by done.
    rewrite assert_ok; [done |]. apply N.ltb_lt. simpl. lia.
Qed.

Lemma scan_global_owner s tg :
  Scan.rep SIZE s tg → Forall (λ e, e.1 < SIZE)%nat (Scan.global tg).
Proof.
  intros Hrep. unfold Scan.global. rewrite Forall_fmap.
  exact (Scan.rep_owner _ _ _ Hrep).
Qed.

Lemma scan_contents i s tg :
  Scan.rep SIZE s tg → Scan.contents i s = sub i (Scan.global tg).
Proof.
  intros Hrep. unfold Scan.contents. destruct (decide (i < SIZE)%nat) as [Hi | Hi].
  - by rewrite (Scan.rep_queue _ _ _ Hrep i Hi), scan_global_sub.
  - rewrite lookup_ge_None_2 by (rewrite (Scan.rep_size _ _ _ Hrep); lia).
    rewrite (sub_out_of_range SIZE); [done | by eapply scan_global_owner | lia].
Qed.

Lemma scan_present s tg :
  Scan.rep SIZE s tg → Scan.present SIZE s ≡ₚ (Scan.global tg).*2.
Proof.
  intros Hrep. rewrite <- (concat_sub SIZE) by by eapply scan_global_owner.
  unfold Scan.present.
  rewrite (list_fmap_ext (λ i, Scan.contents i s)
             (λ i, sub i (Scan.global tg)) (seq 0 SIZE)); [done |].
  intros k i Hk. by apply scan_contents.
Qed.

Lemma scan_queues s tg :
  Scan.rep SIZE s tg → Scan.queues_ s = (λ i, sub i tg) <$> seq 0 SIZE.
Proof.
  intros Hrep. apply list_eq. intros i. rewrite list_lookup_fmap.
  destruct (decide (i < SIZE)%nat) as [Hi | Hi].
  - rewrite (Scan.rep_queue _ _ _ Hrep i Hi), lookup_seq_lt by done. done.
  - rewrite lookup_ge_None_2 by (rewrite (Scan.rep_size _ _ _ Hrep); lia).
    rewrite lookup_seq_ge by lia. done.
Qed.

Lemma scan_ids s tg :
  Scan.rep SIZE s tg → Scan.ids s ≡ₚ (λ e, e.2.1) <$> tg.
Proof.
  intros Hrep. unfold Scan.ids. rewrite (scan_queues _ _ Hrep).
  rewrite <- list_fmap_compose.
  assert (((λ e : nat * Scan.Unit TYPE, e.2.1) <$> tg) =
          ((λ e : nat * Scan.Unit TYPE, (e.1, e.2.1)) <$> tg).*2) as ->.
  { rewrite <- list_fmap_compose. done. }
  rewrite <- (concat_sub SIZE)
    by (rewrite Forall_fmap; exact (Scan.rep_owner _ _ _ Hrep)).
  rewrite (list_fmap_ext
             ((λ q : list (Scan.Unit TYPE), q.*1) ∘ (λ i, sub i tg))
             (λ i, sub i ((λ e : nat * Scan.Unit TYPE, (e.1, e.2.1)) <$> tg))
             (seq 0 SIZE)); [done |].
  intros _ i _. simpl. by rewrite (sub_fmap fst).
Qed.

Lemma scan_global_track o s tg :
  Scan.global (Scan.track SIZE o s tg) =
    match o with
    | Enqueue i _ =>
        if (i <? SIZE)%nat && (Scan.count_ s <? ULONG_MAX)
        then gstep o (Scan.global tg) else Scan.global tg
    | _ => gstep o (Scan.global tg)
    end.
Proof.
  destruct o as [i data | | i]; simpl.
  - destruct ((i <? SIZE)%nat && (Scan.count_ s <? ULONG_MAX)); [| done].
    unfold Scan.global. by rewrite fmap_app.
  - by destruct tg.
  - induction tg as [|e tg IH]; [done |]. cbn [remove_first].
    unfold Scan.global in *. rewrite fmap_cons. cbn [remove_first fst].
    case_decide; [done |]. by rewrite fmap_cons, IH.
Qed.

(** *** Runs *)

Lemma scan_dequeue_ok s o u tg :
  Scan.rep SIZE s ((o, u) :: tg) →
  ∃ s', Scan.dequeue SIZE ndebug s = Ok s' ∧ Scan.rep SIZE s' tg.
Proof.
  intros Hrep. unfold Scan.dequeue.
  rewrite (Scan.rep_length _ _ _ Hrep), (proj2 (N.ltb_lt 0 _)) by (simpl; lia).
  rewrite (scan_rep_find_oldest_front _ _ _ _ Hrep).
  pose proof (Scan.rep_owner _ _ _ Hrep) as Ho.
  apply Forall_cons in Ho as [Ho _]. simpl in Ho.
  rewrite (proj2 (Nat.ltb_lt _ _) Ho), assert_true. simpl.
  destruct (scan_rep_pop s ((o, u) :: tg) o Hrep Ho) as (s1 & Heq & Hrep1).
  { rewrite sub_cons. by rewrite decide_True. }
  rewrite remove_first_head in Hrep1. by exists s1.
Qed.

Lemma scan_dequeue_at_ok s tg i :
  Scan.rep SIZE s tg → (i < SIZE)%nat → sub i tg ≠ [] →
  ∃ s', Scan.dequeue_at SIZE ndebug i s = Ok s' ∧
        Scan.rep SIZE s' (remove_first i tg).
Proof.
  intros Hrep Hi Hne. unfold Scan.dequeue_at.
  rewrite (proj2 (Nat.ltb_lt _ _) Hi), assert_true. simpl.
  rewrite (array_at_lookup _ _ _ (Scan.rep_queue _ _ _ Hrep i Hi)). simpl.
  destruct (scan_rep_pop s tg i Hrep Hi Hne) as (s1 & Heq & Hrep1).
  unfold deque_size. destruct (sub i tg) as [|u q]; [done |].
  cbn [length]. rewrite (proj2 (N.ltb_lt 0 _)) by lia. by exists s1.
Qed.

Lemma scan_run_ordered seqno ops : ∀ n s tg s',
  Scan.rep SIZE s tg → ordered seqno n (Scan.global tg) →
  stamped seqno n ops → Scan.run SIZE ndebug ops s = Ok s' →
  ∃ tg' n', Scan.rep SIZE s' tg' ∧ ordered seqno n' (Scan.global tg').
Proof.
  induction ops as [|o ops IH]; intros n s tg s' Hrep Hord Hst Hrun;
    simpl in Hrun.
  - simplify_eq. by exists tg, n.
  - destruct (Scan.step SIZE ndebug o s) as [s1| | |] eqn:Hstep; try done.
    simpl in Hrun. pose proof (scan_step_rep _ _ _ _ Hrep Hstep) as Hrep1.
    apply (IH (match o with Enqueue _ _ => S n | _ => n end) s1
             (Scan.track SIZE o s tg) s'); [done | | | done].
    + rewrite scan_global_track.
      assert (ordered seqno (match o with Enqueue _ _ => S n | _ => n end)
                (gstep o (Scan.global tg))) as Hg.
      { apply ordered_gstep; [| done]. destruct o; [by destruct Hst | done..]. }
      destruct o as [i data | | i]; try done.
      destruct ((i <? SIZE)%nat && (Scan.count_ s <? ULONG_MAX)); [done |].
      eapply ordered_mono; [| exact Hord]. lia.
    + destruct o; [by destruct Hst | done..].
Qed.

Lemma scan_front_oldest (seqno : TYPE → nat) ops s :
  stamped seqno 0 ops →
  Scan.run SIZE ndebug ops (Scan.init SIZE) = Ok s → Scan.empty s = false →
  ∃ v, Scan.front SIZE ndebug s = Ok v ∧ v ∈ Scan.present SIZE s ∧
       (∀ w, w ∈ Scan.present SIZE s → (seqno v ≤ seqno w)%nat) ∧
       NoDup (seqno <$> Scan.present SIZE s).
Proof.
  intros Hst Hrun Hne.
  destruct (scan_run_ordered seqno ops 0 _ [] s scan_rep_init)
    as (tg & n & Hrep & Hord); [by repeat constructor | done | done |].
  rewrite (scan_empty _ _ Hrep) in Hne. rewrite (scan_front _ _ Hrep).
  apply (g_front_oldest seqno n); [by apply scan_present | done | done].
Qed.

(** *** The counter *)

Lemma scan_enqueue_exhausted i data s :
  Scan.count_ s = ULONG_MAX →
  Scan.enqueue SIZE ndebug i data s =
    if ndebug then Ok (false, s) else AssertFail.
Proof.
  intros Hc. unfold Scan.enqueue, assert. rewrite Hc.
  rewrite N.ltb_irrefl, N.leb_refl, !orb_false_r.
  destruct ndebug; [done |]. by destruct (i <? SIZE)%nat.
Qed.

Lemma scan_run_app ops1 ops2 s :
  Scan.run SIZE ndebug (ops1 ++ ops2) s =
    (s' ← Scan.run SIZE ndebug ops1 s; Scan.run SIZE ndebug ops2 s').
Proof.
  revert s. induction ops1 as [|o ops1 IH]; intros s; [done |].
  cbn [app Scan.run]. destruct (Scan.step SIZE ndebug o s); try done.
  apply IH.
Qed.

Lemma scan_enqueue_count i data s s' :
  Scan.enqueue SIZE ndebug i data s = Ok (true, s') →
  Scan.count_ s < ULONG_MAX ∧ Scan.count_ s' = Scan.count_ s + 1.
Proof.
  unfold Scan.enqueue. intros Henq.
  destruct (assert ndebug (i <? SIZE)%nat); try done. simpl in Henq.
  destruct (assert ndebug (Scan.count_ s <? ULONG_MAX)); try done.
  simpl in Henq.
  destruct (N.leb_spec ULONG_MAX (Scan.count_ s)) as [Hge | Hlt]; [done |].
  destruct (array_at (Scan.queues_ s) i) as [q| | |]; try done. simpl in Henq.
  destruct (push_back q (Scan.count_ s, data)).
  - injection Henq as <-. simpl. split; [done |].
    apply incr_small. unfold ULONG_MAX, SIZE_MAX in *. lia.
  - by destruct (assert ndebug false).
Qed.

Lemma scan_pop_count i s s' :
  Scan.pop i s = Ok s' →
  Scan.count_ s' = Scan.count_ s ∨ Scan.length_ s' = 0.
Proof.
  unfold Scan.pop. intros Hpop.
  destruct (array_at (Scan.queues_ s) i) as [q| | |]; try done. simpl in Hpop.
  destruct (pop_front q) as [q'| | |]; try done. simpl in Hpop.
  injection Hpop as <-. simpl.
  destruct (N.eqb_spec (decr (Scan.length_ s)) 0); [by right | by left].
Qed.

Lemma scan_step_count o s s' :
  Scan.step SIZE ndebug o s = Ok s' →
  match o with
  | Enqueue _ _ => Scan.count_ s ≤ Scan.count_ s'
  | _ => Scan.count_ s' = Scan.count_ s ∨ Scan.length_ s' = 0
  end.
Proof.
  destruct o as [i data | | i]; simpl; intros Hstep.
  - destruct (Scan.enqueue SIZE ndebug i data s) as [[[] s1]| | |] eqn:Henq;
      try done; simpl in Hstep; simplify_eq.
    + apply scan_enqueue_count in Henq. lia.
    + unfold Scan.enqueue in Henq.
      destruct (assert ndebug (i <? SIZE)%nat); try done. simpl in Henq.
      destruct (assert ndebug (Scan.count_ s <? ULONG_MAX)); try done.
      simpl in Henq.
      destruct (ULONG_MAX <=? Scan.count_ s); [by simplify_eq |].
      destruct (array_at (Scan.queues_ s) i) as [q| | |]; try done.
      simpl in Henq. destruct (push_back q (Scan.count_ s, data)); [done |].
      destruct (assert ndebug false); try done. simpl in Henq. by simplify_eq.
  - unfold Scan.dequeue in Hstep.
    destruct (0 <? Scan.length_ s); [| simplify_eq; by left].
    destruct (assert ndebug (Scan.find_oldest_front SIZE s <? SIZE)%nat);
      try done.
    by apply scan_pop_count in Hstep.
  - unfold Scan.dequeue_at in Hstep.
    destruct (assert ndebug (i <? SIZE)%nat); try done. simpl in Hstep.
    destruct (array_at (Scan.queues_ s) i) as [q| | |]; try done.
    simpl in Hstep.
    destruct (0 <? deque_size q); [| simplify_eq; by left].
    by apply scan_pop_count in Hstep.
Qed.

End scan_facts.

(** ** The second header *)
Section lazy_facts.
Context {TYPE : Type}.
Variable SIZE : nat.
Variable ndebug : bool.
Implicit Types (s : @Lazy.state TYPE) (m : list (nat * option TYPE)).
Implicit Types (dq : list (list TYPE)) (rem : list N).

(** *** The marked index queue *)

Lemma lazy_global_live j v m :
  Lazy.global ((j, Some v) :: m) = (j, v) :: Lazy.global m.
Proof. done. Qed.

Lemma lazy_global_stale j m : Lazy.global ((j, None) :: m) = Lazy.global m.
Proof. done. Qed.

Lemma lazy_global_app m1 m2 :
  Lazy.global (m1 ++ m2) = Lazy.global m1 ++ Lazy.global m2.
Proof. unfold Lazy.global. apply omap_app. Qed.

Lemma lazy_global_purge m : Lazy.global (Lazy.purge m) = Lazy.global m.
Proof. induction m as [|[i [v|]] m IH]; simpl; done. Qed.

Lemma lazy_global_kill i m :
  Lazy.global (Lazy.kill i m) = remove_first i (Lazy.global m).
Proof.
  induction m as [|[j [v|]] m IH]; cbn [Lazy.kill]; [done | | ].
  - destruct (decide (j = i)) as [-> | Hne].
    + by rewrite lazy_global_stale, lazy_global_live, remove_first_head.
    + rewrite !lazy_global_live, IH. cbn [remove_first fst].
      by rewrite decide_False.
  - by rewrite !lazy_global_stale.
Qed.

Lemma lazy_length_global m : (length (Lazy.global m) ≤ length m)%nat.
Proof. induction m as [|[i [v|]] m IH]; simpl in *; lia. Qed.

Lemma lazy_sub_global i m : sub i (Lazy.global m) = omap id (sub i m).
Proof.
  induction m as [|[j [v|]] m IH]; [done | |].
  - rewrite lazy_global_live, !sub_cons. simpl.
    case_decide; simpl; by rewrite IH.
  - rewrite lazy_global_stale, sub_cons. simpl.
    case_decide; simpl; by rewrite IH.
Qed.

Lemma lazy_kill_fst i m : (Lazy.kill i m).*1 = m.*1.
Proof.
  induction m as [|[j [v|]] m IH]; cbn [Lazy.kill]; [done | |].
  - case_decide; rewrite !fmap_cons, ?IH; done.
  - by rewrite !fmap_cons, IH.
Qed.

Lemma lazy_sub_kill_ne i j m : i ≠ j → sub j (Lazy.kill i m) = sub j m.
Proof.
  intros Hne. induction m as [|[k [v|]] m IH]; cbn [Lazy.kill]; [done | |].
  - destruct (decide (k = i)) as [-> | Hk].
    + rewrite !sub_cons. simpl. by rewrite !decide_False.
    + rewrite !sub_cons, IH. done.
  - rewrite !sub_cons, IH. done.
Qed.

Lemma lazy_sub_kill i m r v l :
  sub i m = replicate r None ++ Some v :: l →
  sub i (Lazy.kill i m) = replicate (S r) None ++ l.
Proof.
  revert r. induction m as [|[k [w|]] m IH]; intros r; cbn [Lazy.kill].
  - by destruct r.
  - destruct (decide (k = i)) as [-> | Hk].
    + rewrite !sub_cons. simpl. rewrite !decide_True by done.
      destruct r; simpl; [| done]. by intros [= _ <-].
    + rewrite !sub_cons. simpl. rewrite !decide_False by done. apply IH.
  - rewrite !sub_cons. simpl. case_decide; [| apply IH].
    destruct r; simpl; [done |]. intros [= Heq]. by rewrite (IH r).
Qed.

Lemma lazy_head_live_cons i v m : Lazy.head_live ((i, Some v) :: m).
Proof. by intros j m'. Qed.

Lemma lazy_head_live_inv i x m :
  Lazy.head_live ((i, x) :: m) → ∃ v, x = Some v.
Proof. intros H. destruct x as [v|]; [by exists v |]. by destruct (H i m). Qed.

Lemma lazy_consistent_bound dq rem m i r :
  Lazy.consistent SIZE dq rem m → (i < SIZE)%nat → rem !! i = Some r →
  (N.to_nat r ≤ length (sub i m) ≤ length m)%nat.
Proof.
  intros Hc Hi Hr. destruct (Hc i Hi) as (r' & q & Hr' & _ & Hsub).
  simplify_eq. split; [| apply length_sub_le].
  rewrite Hsub, length_app, length_replicate. lia.
Qed.

(** *** [adjust_deque] takes the stale entries off the front *)
Lemma lazy_adjust dq m : ∀ rem,
  Lazy.consistent SIZE dq rem m → Forall (λ e, e.1 < SIZE)%nat m →
  length rem = SIZE → N.of_nat (length m) ≤ max_size →
  ∃ rem', Lazy.adjust_deque m.*1 rem = Ok ((Lazy.purge m).*1, rem') ∧
          Lazy.consistent SIZE dq rem' (Lazy.purge m) ∧
          length rem' = SIZE ∧ Lazy.head_live (Lazy.purge m).
Proof.
  induction m as [|[i x] m IH]; intros rem Hc Hown Hlen Hmax.
  - exists rem. by split_and!.
  - apply Forall_cons in Hown as [Hi Hown]. simpl in Hi.
    destruct (Hc i Hi) as (r & q & Hr & Hq & Hsub).
    pose proof (lazy_consistent_bound _ _ _ _ _ Hc Hi Hr) as [Hrs Hrm].
    rewrite sub_cons in Hsub. simpl in Hsub. rewrite decide_True in Hsub by done.
    rewrite fmap_cons. cbn [Lazy.adjust_deque fst].
    rewrite (array_at_lookup _ _ _ Hr). simpl.
    destruct (N.eqb_spec r 0) as [-> | Hr0].
    + simpl in Hsub. destruct q as [|v q]; [done |]. simpl in Hsub.
      injection Hsub as -> Hsub. exists rem. by split_and!.
    + destruct (N.to_nat r) as [|r'] eqn:Hnat; [lia |]. simpl in Hsub.
      injection Hsub as -> Hsub. cbn [length] in Hmax, Hrm.
      assert (decr r = N.of_nat r') as Hdecr.
      { rewrite decr_pos; unfold max_size, SIZE_MAX, size_t_modulus in *; lia. }
      destruct (IH (<[i:=decr r]> rem)) as (rem' & Hadj & Hc' & Hlen' & Hhead).
      * intros j Hj. destruct (decide (j = i)) as [-> | Hne].
        -- exists (decr r), q. rewrite list_lookup_insert_eq by lia.
           split_and!; try done. by rewrite Hdecr, Nat2N.id.
        -- destruct (Hc j Hj) as (rj & qj & Hrj & Hqj & Hsubj).
           exists rj, qj. rewrite list_lookup_insert_ne by done.
           split_and!; try done. rewrite sub_cons in Hsubj. simpl in Hsubj.
           by rewrite decide_False in Hsubj.
      * done.
      * by rewrite length_insert.
      * lia.
      * exists rem'. by split_and!.
Qed.

(** *** The representation invariant is kept *)

Lemma lazy_rep_init : Lazy.rep SIZE (Lazy.init (TYPE:=TYPE) SIZE) [].
Proof.
  split; simpl; try done.
  - by rewrite !length_replicate.
  - intros i Hi. exists 0, []. by rewrite !lookup_replicate_2.
Qed.

Lemma omap_id_stale (r : nat) (q : list TYPE) :
  omap id (replicate r None ++ (Some <$> q)) = q.
Proof.
  induction r as [|r IH]; simpl; [| done].
  induction q as [|v q IHq]; simpl; [done |]. f_equal. exact IHq.
Qed.

(** A sub-queue holds what the global sequence has of it. *)
Lemma lazy_consistent_sub dq rem m i q :
  Lazy.consistent SIZE dq rem m → (i < SIZE)%nat → dq !! i = Some q →
  sub i (Lazy.global m) = q.
Proof.
  intros Hc Hi Hq. destruct (Hc i Hi) as (r & q' & _ & Hq' & Hsub).
  simplify_eq. by rewrite lazy_sub_global, Hsub, omap_id_stale.
Qed.

Lemma lazy_rep_enqueue s m i data :
  Lazy.rep SIZE s m → (i < SIZE)%nat → N.of_nat (length m) < max_size →
  ∃ s', Lazy.enqueue SIZE ndebug i data s = Ok s' ∧
        Lazy.rep SIZE s' (m ++ [(i, Some data)]).
Proof.
  intros [Hidx [Hsd Hsr] Hown Hc Hhead Hlength Hbound] Hi Hmax.
  destruct (Hc i Hi) as (r & q & Hr & Hq & Hsub).
  pose proof (length_sub_le i m) as Hle.
  pose proof (lazy_length_global m) as Hlg.
  assert (length q ≤ length m)%nat as Hlq.
  { rewrite Hsub, length_app, length_fmap in Hle. lia. }
  unfold Lazy.enqueue, push_back, deque_size.
  rewrite (proj2 (Nat.ltb_lt _ _) Hi), assert_true. simpl.
  rewrite Hidx, length_fmap, (proj2 (N.ltb_lt _ _) Hmax).
  rewrite (array_at_lookup _ _ _ Hq). simpl.
  rewrite (proj2 (N.ltb_lt (N.of_nat (length q)) max_size)) by lia.
  eexists. split; [done |]. split; simpl.
  - by rewrite fmap_app.
  - by rewrite length_insert.
  - apply Forall_app. split; [done |]. by repeat constructor.
  - intros j Hj. rewrite sub_snoc.
    destruct (decide (i = j)) as [<- | Hij].
    + exists r, (q ++ [data]). rewrite list_lookup_insert_eq by lia.
      split_and!; try done. by rewrite Hsub, fmap_app, app_assoc.
    + destruct (Hc j Hj) as (rj & qj & Hrj & Hqj & Hsubj).
      exists rj, qj. by rewrite list_lookup_insert_ne.
  - destruct m as [|[j x] m]; [apply lazy_head_live_cons |].
    apply lazy_head_live_inv in Hhead as [v ->]. apply lazy_head_live_cons.
  - rewrite lazy_global_app, length_app. simpl.
    rewrite incr_small; unfold max_size in *; lia.
  - rewrite length_app. simpl. lia.
Qed.

(** The entry at the front of the index queue and the value it stands for
    go: the tail shared by [dequeue()] and [dequeue(i)] when [i] is at the
    front. *)
Lemma lazy_rep_pop_head s i x m :
  Lazy.rep SIZE s ((i, x) :: m) →
  ∃ v q rem',
    x = Some v ∧ Lazy.index_queue_ s = i :: m.*1 ∧
    Lazy.data_queue_ s !! i = Some (v :: q) ∧
    Lazy.adjust_deque m.*1 (Lazy.remain_ s) = Ok ((Lazy.purge m).*1, rem') ∧
    Lazy.rep SIZE
      {| Lazy.index_queue_ := (Lazy.purge m).*1;
         Lazy.data_queue_ := <[i:=q]> (Lazy.data_queue_ s);
         Lazy.remain_ := rem';
         Lazy.length_ := decr (Lazy.length_ s) |}
      (Lazy.purge m).
Proof.
  intros [Hidx [Hsd Hsr] Hown Hc Hhead Hlength Hbound].
  apply lazy_head_live_inv in Hhead as [v ->].
  apply Forall_cons in Hown as [Hi Hown]. simpl in Hi.
  destruct (Hc i Hi) as (r & q0 & Hr & Hq & Hsub).
  rewrite sub_cons in Hsub. simpl in Hsub. rewrite decide_True in Hsub by done.
  destruct (N.to_nat r) as [|r'] eqn:Hnat; [| done].
  destruct q0 as [|v' q]; [done |]. simpl in Hsub. injection Hsub as <- Hsub.
  cbn [length] in Hbound.
  destruct (lazy_adjust (<[i:=q]> (Lazy.data_queue_ s)) m (Lazy.remain_ s))
    as (rem' & Hadj & Hc' & Hlen' & Hhead'); [| done | done | lia |].
  { intros j Hj. destruct (decide (j = i)) as [-> | Hne].
    - exists r, q. rewrite list_lookup_insert_eq by lia.
      split_and!; try done. by rewrite Hnat.
    - destruct (Hc j Hj) as (rj & qj & Hrj & Hqj & Hsubj).
      exists rj, qj. rewrite list_lookup_insert_ne by done.
      split_and!; try done. rewrite sub_cons in Hsubj. simpl in Hsubj.
      by rewrite decide_False in Hsubj. }
  exists v, q, rem'. split_and!; try done.
  pose proof (lazy_length_global m) as Hlg.
  pose proof (lazy_length_global (Lazy.purge m)) as Hlp.
  rewrite lazy_global_purge in Hlp.
  split; simpl; try done.
  - by rewrite length_insert.
  - clear -Hown. induction m as [|[j [w|]] m IH]; simpl; try done.
    apply Forall_cons in Hown as [_ Hown]. by apply IH.
  - rewrite lazy_global_purge, Hlength, lazy_global_live. cbn [length].
    rewrite decr_pos; unfold max_size, SIZE_MAX, size_t_modulus in *; lia.
  - assert (length (Lazy.purge m) ≤ length m)%nat; [| lia].
    clear. induction m as [|[j [w|]] m IH]; simpl; lia.
Qed.

(** [dequeue(i)] when another sub-queue is at the front of the index queue:
    the oldest live entry of [i] becomes stale. *)
Lemma lazy_rep_kill s f x m i v q r :
  Lazy.rep SIZE s ((f, x) :: m) → (i < SIZE)%nat → i ≠ f →
  Lazy.data_queue_ s !! i = Some (v :: q) → Lazy.remain_ s !! i = Some r →
  Lazy.rep SIZE
    {| Lazy.index_queue_ := Lazy.index_queue_ s;
       Lazy.data_queue_ := <[i:=q]> (Lazy.data_queue_ s);
       Lazy.remain_ := <[i:=incr r]> (Lazy.remain_ s);
       Lazy.length_ := decr (Lazy.length_ s) |}
    (Lazy.kill i ((f, x) :: m)).
Proof.
  intros Hrep Hi Hne Hq Hr.
  pose proof (lazy_consistent_sub _ _ _ _ _ (Lazy.rep_queue _ _ _ Hrep) Hi Hq) as Hsg.
  destruct Hrep as [Hidx [Hsd Hsr] Hown Hc Hhead Hlength Hbound].
  destruct (Hc i Hi) as (r0 & q0 & Hr0 & Hq0 & Hsub).
  rewrite Hq in Hq0. rewrite Hr in Hr0.
  injection Hq0 as <-. injection Hr0 as <-.
  pose proof (length_sub_le i ((f, x) :: m)) as Hle.
  rewrite Hsub, length_app, length_replicate, length_fmap in Hle.
  cbn [length] in Hle, Hbound.
  assert (incr r = r + 1) as Hincr.
  { apply incr_small. unfold max_size in Hbound. lia. }
  assert ((i, v) ∈ Lazy.global ((f, x) :: m)) as Hin.
  { apply elem_of_sub. rewrite Hsg. apply elem_of_cons. by left. }
  pose proof (length_remove_first _ _ _ Hin) as Hlen.
  pose proof (lazy_length_global ((f, x) :: m)) as Hlg.
  change (length ((f, x) :: m)) with (S (length m)) in Hlg.
  split; cbn [Lazy.index_queue_ Lazy.data_queue_ Lazy.remain_ Lazy.length_].
  - by rewrite lazy_kill_fst.
  - by rewrite !length_insert.
  - rewrite <- Forall_fmap with (f := fst) (P := λ j, (j < SIZE)%nat).
    rewrite lazy_kill_fst. by rewrite Forall_fmap.
  - intros j Hj. destruct (decide (i = j)) as [<- | Hij].
    + exists (incr r), q. rewrite !list_lookup_insert_eq by lia.
      split_and!; try done. rewrite (lazy_sub_kill _ _ _ _ _ Hsub).
      rewrite Hincr. by replace (N.to_nat (r + 1)) with (S (N.to_nat r)) by lia.
    + destruct (Hc j Hj) as (rj & qj & Hrj & Hqj & Hsubj).
      exists rj, qj. rewrite !list_lookup_insert_ne by done.
      split_and!; try done. by rewrite lazy_sub_kill_ne.
  - apply lazy_head_live_inv in Hhead as [w ->]. cbn [Lazy.kill].
    rewrite decide_False by done. apply lazy_head_live_cons.
  - rewrite lazy_global_kill, Hlength.
    rewrite decr_pos; unfold max_size, SIZE_MAX, size_t_modulus in *; lia.
  - assert (length (Lazy.kill i ((f, x) :: m)) = S (length m)) as ->; [| done].
    rewrite <- (length_fmap fst), lazy_kill_fst. by rewrite length_fmap.
Qed.

(** Every operation that returns keeps the invariant, with [m] changed as
    [Lazy.track] says. *)
Lemma lazy_step_rep o s m s' :
  Lazy.rep SIZE s m → Lazy.step SIZE ndebug o s = Ok s' →
  Lazy.rep SIZE s' (Lazy.track o m).
Proof.
  intros Hrep Hstep. destruct o as [i data | | i]; cbn [Lazy.step Lazy.track] in *.
  - destruct (Nat.ltb_spec i SIZE) as [Hi | Hi];
      [destruct (N.ltb_spec (N.of_nat (length m)) max_size) as [Hm | Hm] |].
    + destruct (lazy_rep_enqueue s m i data Hrep Hi Hm) as (s1 & Heq & Hrep1).
      rewrite Heq in Hstep. by simplify_eq.
    + unfold Lazy.enqueue, push_back, deque_size in Hstep.
      rewrite (Lazy.rep_index _ _ _ Hrep), length_fmap in Hstep.
      rewrite (proj2 (N.ltb_ge _ _) Hm) in Hstep.
      by destruct (assert ndebug (i <? SIZE)%nat).
    + unfold Lazy.enqueue, assert in Hstep.
      rewrite (proj2 (Nat.ltb_ge _ _) Hi) in Hstep.
      destruct (Lazy.rep_size _ _ _ Hrep) as [Hsd _].
      rewrite (array_at_ge (Lazy.data_queue_ s) i) in Hstep by lia.
      destruct ndebug; simpl in Hstep; [| done].
      by destruct (push_back (Lazy.index_queue_ s) i).
  - unfold Lazy.dequeue in Hstep. destruct m as [|[i x] m].
    + rewrite (Lazy.rep_index _ _ _ Hrep) in Hstep. unfold assert in Hstep.
      by destruct ndebug.
    + destruct (lazy_rep_pop_head s i x m Hrep)
        as (v & q & rem' & -> & Hidx & Hq & Hadj & Hrep1).
      rewrite Hidx, assert_true in Hstep. simpl in Hstep.
      rewrite (array_at_lookup _ _ _ Hq) in Hstep. simpl in Hstep.
      rewrite Hadj in Hstep. simpl in Hstep. by simplify_eq.
  - unfold Lazy.dequeue_at in Hstep.
    destruct (Nat.ltb_spec i SIZE) as [Hi | Hi].
    + rewrite assert_true in Hstep. simpl in Hstep.
      destruct (Lazy.rep_queue _ _ _ Hrep i Hi) as (r & q0 & Hr & Hq & Hsub).
      rewrite (array_at_lookup _ _ _ Hq) in Hstep. simpl in Hstep.
      destruct q0 as [|v q].
      { unfold assert in Hstep. by destruct ndebug. }
      rewrite assert_true in Hstep. simpl in Hstep.
      destruct m as [|[f x] m].
      { by destruct (N.to_nat r). }
      assert (Lazy.index_queue_ s = f :: m.*1) as Hidx
        by apply (Lazy.rep_index _ _ _ Hrep).
      rewrite Hidx in Hstep. cbn [deque_front pop_front] in Hstep.
      rewrite <- Hidx in Hstep. simpl in Hstep.
      destruct (Nat.eqb_spec i f) as [-> | Hne].
      * destruct (lazy_rep_pop_head s f x m Hrep)
          as (v' & q' & rem' & -> & _ & Hq' & Hadj & Hrep1).
        rewrite Hadj in Hstep. simpl in Hstep.
        rewrite Hq in Hq'. by simplify_eq.
      * rewrite (array_at_lookup _ _ _ Hr) in Hstep. simpl in Hstep.
        pose proof (lazy_rep_kill s f x m i v q r Hrep Hi Hne Hq Hr) as Hrep1.
        by simplify_eq.
    + unfold assert in Hstep.
      destruct (Lazy.rep_size _ _ _ Hrep) as [Hsd _].
      rewrite (array_at_ge (Lazy.data_queue_ s) i) in Hstep by lia.
      by destruct ndebug.
Qed.

Lemma lazy_run_rep ops : ∀ s m s',
  Lazy.rep SIZE s m → Lazy.run SIZE ndebug ops s = Ok s' →
  ∃ m', Lazy.rep SIZE s' m'.
Proof.
  induction ops as [|o ops IH]; intros s m s' Hrep Hrun; simpl in Hrun.
  - simplify_eq. by exists m.
  - destruct (Lazy.step SIZE ndebug o s) as [s1| | |] eqn:Hstep; try done.
    simpl in Hrun. eapply IH; [| exact Hrun]. by eapply lazy_step_rep.
Qed.

Lemma lazy_reachable_rep ops s :
  Lazy.run SIZE ndebug ops (Lazy.init SIZE) = Ok s → ∃ m, Lazy.rep SIZE s m.
Proof. apply lazy_run_rep with (m := []), lazy_rep_init. Qed.

(** *** What a caller observes *)

Lemma lazy_global_owner s m :
  Lazy.rep SIZE s m → Forall (λ e, e.1 < SIZE)%nat (Lazy.global m).
Proof.
  intros Hrep. pose proof (Lazy.rep_owner _ _ _ Hrep) as Hown. clear Hrep.
  induction m as [|[i [v|]] m IH].
  - constructor.
  - apply Forall_cons in Hown as [Hi Hown]. rewrite lazy_global_live.
    constructor; [done | by apply IH].
  - apply Forall_cons in Hown as [_ Hown]. rewrite lazy_global_stale.
    by apply IH.
Qed.

Lemma lazy_data s m i :
  Lazy.rep SIZE s m → (i < SIZE)%nat →
  Lazy.data_queue_ s !! i = Some (sub i (Lazy.global m)).
Proof.
  intros Hrep Hi.
  destruct (Lazy.rep_queue _ _ _ Hrep i Hi) as (r & q & _ & Hq & _).
  by rewrite (lazy_consistent_sub _ _ _ _ _ (Lazy.rep_queue _ _ _ Hrep) Hi Hq).
Qed.

Lemma lazy_size s m : Lazy.rep SIZE s m → Lazy.size s = g_size (Lazy.global m).
Proof. intros Hrep. exact (Lazy.rep_length _ _ _ Hrep). Qed.

Lemma lazy_empty s m :
  Lazy.rep SIZE s m → Lazy.empty s = g_empty (Lazy.global m).
Proof.
  intros Hrep. unfold Lazy.empty. rewrite (Lazy.rep_index _ _ _ Hrep).
  destruct m as [|[i x] m]; [done |].
  by destruct (lazy_head_live_inv _ _ _ (Lazy.rep_head _ _ _ Hrep)) as [v ->].
Qed.

Lemma lazy_violation {Z} i s m (k : list TYPE → result Z) :
  Lazy.rep SIZE s m → (SIZE ≤ i)%nat →
  (_ ← assert ndebug false; q ← array_at (Lazy.data_queue_ s) i; k q) =
    violation ndebug.
Proof.
  intros Hrep Hi. unfold assert, violation.
  destruct (Lazy.rep_size _ _ _ Hrep) as [Hsd _].
  rewrite array_at_ge by lia. by destruct ndebug.
Qed.

Lemma lazy_size_at i s m :
  Lazy.rep SIZE s m →
  Lazy.size_at SIZE ndebug i s = g_size_at SIZE ndebug i (Lazy.global m).
Proof.
  intros Hrep. unfold Lazy.size_at, g_size_at.
  destruct (Nat.ltb_spec i SIZE) as [Hi | Hi].
  - rewrite assert_true. simpl.
    by rewrite (array_at_lookup _ _ _ (lazy_data _ _ _ Hrep Hi)).
  - by apply (lazy_violation i s m).
Qed.

Lemma lazy_empty_at i s m :
  Lazy.rep SIZE s m →
  Lazy.empty_at SIZE ndebug i s = g_empty_at SIZE ndebug i (Lazy.global m).
Proof.
  intros Hrep. unfold Lazy.empty_at, g_empty_at.
  destruct (Nat.ltb_spec i SIZE) as [Hi | Hi].
  - rewrite assert_true. simpl.
    by rewrite (array_at_lookup _ _ _ (lazy_data _ _ _ Hrep Hi)).
  - by apply (lazy_violation i s m).
Qed.

Lemma lazy_front_at i s m :
  Lazy.rep SIZE s m →
  Lazy.front_at SIZE ndebug i s = g_front_at SIZE ndebug i (Lazy.global m).
Proof.
  intros Hrep. unfold Lazy.front_at, g_front_at.
  destruct (Nat.ltb_spec i SIZE) as [Hi | Hi].
  - rewrite assert_true. simpl.
    rewrite (array_at_lookup _ _ _ (lazy_data _ _ _ Hrep Hi)). simpl.
    destruct (sub i (Lazy.global m)) as [|v q]; simpl.
    + unfold assert, violation. by destruct ndebug.
    + by rewrite assert_true.
  - by apply (lazy_violation i s m).
Qed.

Lemma lazy_front s m :
  Lazy.rep SIZE s m → Lazy.front ndebug s = g_front ndebug (Lazy.global m).
Proof.
  intros Hrep. unfold Lazy.front. rewrite (Lazy.rep_index _ _ _ Hrep).
  destruct m as [|[i x] m].
  - unfold assert, violation. simpl. by destruct ndebug.
  - destruct (lazy_head_live_inv _ _ _ (Lazy.rep_head _ _ _ Hrep)) as [v ->].
    pose proof (Lazy.rep_owner _ _ _ Hrep) as Hown.
    apply Forall_cons in Hown as [Hi _]. simpl in Hi.
    rewrite fmap_cons. cbn [deque_empty negb deque_front fst].
    rewrite assert_true. simpl.
    rewrite (array_at_lookup _ _ _ (lazy_data _ _ _ Hrep Hi)).
    rewrite lazy_global_live, sub_cons. cbn [fst]. by rewrite decide_True.
Qed.

Lemma lazy_contents i s m :
  Lazy.rep SIZE s m → Lazy.contents i s = sub i (Lazy.global m).
Proof.
  intros Hrep. unfold Lazy.contents. destruct (decide (i < SIZE)%nat) as [Hi | Hi].
  - by rewrite (lazy_data _ _ _ Hrep Hi).
  - destruct (Lazy.rep_size _ _ _ Hrep) as [Hsd _].
    rewrite lookup_ge_None_2 by lia.
    rewrite (sub_out_of_range SIZE); [done | by eapply lazy_global_owner | lia].
Qed.

Lemma lazy_present s m :
  Lazy.rep SIZE s m → Lazy.present SIZE s ≡ₚ (Lazy.global m).*2.
Proof.
  intros Hrep. rewrite <- (concat_sub SIZE) by by eapply lazy_global_owner.
  unfold Lazy.present.
  rewrite (list_fmap_ext (λ i, Lazy.contents i s)
             (λ i, sub i (Lazy.global m)) (seq 0 SIZE)); [done |].
  intros k i Hk. by apply lazy_contents.
Qed.

Lemma lazy_global_track o m :
  Lazy.head_live m → Lazy.global (Lazy.track o m) = gstep o (Lazy.global m).
Proof.
  intros Hhead. destruct o as [i data | | i]; cbn [Lazy.track gstep].
  - by rewrite lazy_global_app.
  - rewrite lazy_global_purge. destruct m as [|[i x] m]; [done |].
    by destruct (lazy_head_live_inv _ _ _ Hhead) as [v ->].
  - destruct m as [|[f x] m]; [done |].
    destruct (lazy_head_live_inv _ _ _ Hhead) as [v ->].
    destruct (Nat.eqb_spec i f) as [-> | Hne].
    + by rewrite lazy_global_purge, lazy_global_live, remove_first_head.
    + by rewrite lazy_global_kill.
Qed.

(** *** Runs *)

Lemma lazy_dequeue_ok s i x m :
  Lazy.rep SIZE s ((i, x) :: m) →
  ∃ s', Lazy.dequeue ndebug s = Ok s' ∧ Lazy.rep SIZE s' (Lazy.purge m).
Proof.
  intros Hrep. unfold Lazy.dequeue.
  destruct (lazy_rep_pop_head s i x m Hrep)
    as (v & q & rem' & -> & Hidx & Hq & Hadj & Hrep1).
  rewrite Hidx, assert_true. simpl.
  rewrite (array_at_lookup _ _ _ Hq). simpl. rewrite Hadj. simpl.
  eexists. by split.
Qed.

Lemma lazy_dequeue_at_ok s m i :
  Lazy.rep SIZE s m → (i < SIZE)%nat → sub i (Lazy.global m) ≠ [] →
  ∃ s', Lazy.dequeue_at SIZE ndebug i s = Ok s' ∧
        Lazy.rep SIZE s' (Lazy.track (DequeueAt i) m).
Proof.
  intros Hrep Hi Hne.
  assert (∃ s', Lazy.dequeue_at SIZE ndebug i s = Ok s') as [s' Hs'];
    [| exists s'; split; [done | by apply (lazy_step_rep (DequeueAt i) s)]].
  unfold Lazy.dequeue_at.
  rewrite (proj2 (Nat.ltb_lt _ _) Hi), assert_true. simpl.
  rewrite (array_at_lookup _ _ _ (lazy_data _ _ _ Hrep Hi)). simpl.
  destruct (sub i (Lazy.global m)) as [|v q] eqn:Hsub; [done |].
  rewrite assert_true. simpl.
  destruct m as [|[f x] m]; [done |].
  assert (Lazy.index_queue_ s = f :: m.*1) as Hidx
    by apply (Lazy.rep_index _ _ _ Hrep).
  rewrite Hidx. cbn [deque_front pop_front]. simpl.
  destruct (Nat.eqb_spec i f) as [-> | Hif].
  - destruct (lazy_rep_pop_head s f x m Hrep)
      as (v' & q' & rem' & -> & _ & Hq' & Hadj & Hrep1).
    rewrite Hadj. simpl. by eexists.
  - destruct (Lazy.rep_queue _ _ _ Hrep i Hi) as (r & q0 & Hr & _ & _).
    rewrite (array_at_lookup _ _ _ Hr). simpl. by eexists.
Qed.

Lemma lazy_run_ordered seqno ops : ∀ n s m s',
  Lazy.rep SIZE s m → ordered seqno n (Lazy.global m) →
  stamped seqno n ops → Lazy.run SIZE ndebug ops s = Ok s' →
  ∃ m' n', Lazy.rep SIZE s' m' ∧ ordered seqno n' (Lazy.global m').
Proof.
  induction ops as [|o ops IH]; intros n s m s' Hrep Hord Hst Hrun;
    simpl in Hrun.
  - simplify_eq. by exists m, n.
  - destruct (Lazy.step SIZE ndebug o s) as [s1| | |] eqn:Hstep; try done.
    simpl in Hrun. pose proof (lazy_step_rep _ _ _ _ Hrep Hstep) as Hrep1.
    apply (IH (match o with Enqueue _ _ => S n | _ => n end) s1
             (Lazy.track o m) s'); [done | | | done].
    + rewrite lazy_global_track by apply (Lazy.rep_head _ _ _ Hrep).
      apply ordered_gstep; [| done]. destruct o; [by destruct Hst | done..].
    + destruct o; [by destruct Hst | done..].
Qed.

(** *** The deficit counters *)

Lemma length_omap_id (l : list (option TYPE)) :
  (length (omap id l) ≤ length l)%nat.
Proof.
  induction l as [|[v|] l IH]; [done | |].
  - change (omap id (Some v :: l)) with (v :: omap id l). simpl. lia.
  - change (omap id (None :: l)) with (omap id l). simpl. lia.
Qed.

Lemma sum_difference (f g : nat → nat) (l : list nat) :
  (∀ i, g i ≤ f i)%nat →
  foldr N.add 0 ((λ i, N.of_nat (f i - g i)) <$> l) +
  foldr N.add 0 ((λ i, N.of_nat (g i)) <$> l) =
  foldr N.add 0 ((λ i, N.of_nat (f i)) <$> l).
Proof.
  intros Hle. induction l as [|i l IH]; [done |].
  rewrite !fmap_cons. cbn [foldr]. specialize (Hle i). lia.
Qed.

Lemma lazy_remain s m :
  Lazy.rep SIZE s m →
  Lazy.remain_ s =
    (λ i, N.of_nat (length (sub i m) - length (sub i (Lazy.global m)))) <$>
    seq 0 SIZE.
Proof.
  intros Hrep. apply list_eq. intros i. rewrite list_lookup_fmap.
  destruct (Lazy.rep_size _ _ _ Hrep) as [_ Hsr].
  destruct (decide (i < SIZE)%nat) as [Hi | Hi].
  - destruct (Lazy.rep_queue _ _ _ Hrep i Hi) as (r & q & Hr & Hq & Hsub).
    rewrite lookup_seq_lt by done. rewrite Hr. simpl. f_equal.
    rewrite lazy_sub_global, Hsub, omap_id_stale.
    rewrite length_app, length_replicate, length_fmap. lia.
  - rewrite lookup_ge_None_2 by lia. rewrite lookup_seq_ge by lia. done.
Qed.

Lemma lazy_deficit s m :
  Lazy.rep SIZE s m →
  N.of_nat (length m) = N.of_nat (length (Lazy.global m)) + Lazy.deficit s.
Proof.
  intros Hrep. unfold Lazy.deficit. rewrite (lazy_remain _ _ Hrep).
  rewrite <- (sum_sub_lengths SIZE m) by exact (Lazy.rep_owner _ _ _ Hrep).
  rewrite <- (sum_sub_lengths SIZE (Lazy.global m))
    by by eapply lazy_global_owner.
  rewrite N.add_comm. symmetry.
  apply (sum_difference (λ i, length (sub i m))
           (λ i, length (sub i (Lazy.global m)))).
  intros i. rewrite lazy_sub_global. apply length_omap_id.
Qed.

Lemma lazy_front_oldest (seqno : TYPE → nat) ops s :
  stamped seqno 0 ops →
  Lazy.run SIZE ndebug ops (Lazy.init SIZE) = Ok s → Lazy.empty s = false →
  ∃ v, Lazy.front ndebug s = Ok v ∧ v ∈ Lazy.present SIZE s ∧
       (∀ w, w ∈ Lazy.present SIZE s → (seqno v ≤ seqno w)%nat) ∧
       NoDup (seqno <$> Lazy.present SIZE s).
Proof.
  intros Hst Hrun Hne.
  destruct (lazy_run_ordered seqno ops 0 _ [] s lazy_rep_init)
    as (m & n & Hrep & Hord); [by repeat constructor | done | done |].
  rewrite (lazy_empty _ _ Hrep) in Hne. rewrite (lazy_front _ _ Hrep).
  apply (g_front_oldest seqno n); [by apply lazy_present | done | done].
Qed.

End lazy_facts.

(** *** A counter that runs out *)

Lemma churn_step ndebug n :
  N.of_nat n + 1 < ULONG_MAX →
  Scan.run 1 ndebug [Enqueue 0 tt; Dequeue] (churned n) = Ok (churned (S n)).
Proof.
  intros Hn. unfold churned. cbn [Scan.run Scan.step].
  unfold Scan.enqueue. cbn [Scan.count_ Scan.queues_ Scan.length_].
  rewrite (proj2 (N.ltb_lt _ _) Hn), (proj2 (N.leb_gt _ _) Hn), !assert_true.
  rewrite (incr_small (N.of_nat n + 1))
    by (unfold ULONG_MAX, SIZE_MAX in *; lia).
  replace (N.of_nat (S n)) with (N.of_nat n + 1) by lia.
  change (incr 1) with 2. cbn -[assert N.add push_back].
  assert (∀ x y : N * unit, push_back [x] y = Some [x; y]) as -> by done.
  cbn -[assert N.add]. unfold Scan.dequeue. cbn -[assert N.add].
  rewrite assert_true. reflexivity.
Qed.

Lemma churn_run ndebug n :
  N.of_nat n < ULONG_MAX →
  Scan.run 1 ndebug (churn n) (Scan.init 1) = Ok (churned n).
Proof.
  induction n as [|n IH]; intros Hn.
  { unfold churn, churned. cbn [replicate concat Scan.run Scan.step].
    unfold Scan.enqueue. cbn -[assert]. by rewrite !assert_true. }
  unfold churn in *.
  rewrite replicate_S, replicate_cons_app, concat_app, app_comm_cons.
  rewrite scan_run_app, IH by lia. cbn [concat app].
  apply churn_step. lia.
Qed.

(** ** The two variants side by side *)
Section agree_facts.
Context {TYPE : Type}.
Variable SIZE : nat.
Variable ndebug : bool.
Implicit Types (sA : @Scan.state TYPE) (sB : @Lazy.state TYPE).
Implicit Types (ops : list (op TYPE)).

Lemma agree_init : agree SIZE (Scan.init (TYPE:=TYPE) SIZE) (Lazy.init SIZE).
Proof.
  exists [], []. split_and!; [apply scan_rep_init | apply lazy_rep_init | done..].
Qed.

Lemma lazy_global_nil sB m : Lazy.rep SIZE sB m → Lazy.global m = [] → m = [].
Proof.
  intros Hrep Hnil. destruct m as [|[i x] m]; [done |].
  by destruct (lazy_head_live_inv _ _ _ (Lazy.rep_head _ _ _ Hrep)) as [v ->].
Qed.

Lemma lazy_length_track (o : op TYPE) (m : list (nat * option TYPE)) :
  (length (Lazy.track o m) ≤ length m + match o with Enqueue _ _ => 1 | _ => 0 end)%nat.
Proof.
  assert (∀ m' : list (nat * option TYPE),
            length (Lazy.purge m') ≤ length m')%nat as Hpurge.
  { induction m' as [|[j [w|]] m' IH]; simpl; lia. }
  destruct o as [i data | | i]; cbn [Lazy.track].
  - rewrite length_app. simpl. lia.
  - specialize (Hpurge (tail m)). destruct m; simpl in *; lia.
  - destruct m as [|[f x] m]; [simpl; lia |].
    destruct (i =? f)%nat.
    + specialize (Hpurge m). simpl. lia.
    + rewrite <- (length_fmap fst), lazy_kill_fst, length_fmap. lia.
Qed.

(** An operation within the contract of the first variant is within the
    contract of the second, returns there too, and the two still agree. *)
Lemma agree_step o sA sB sA' :
  agree SIZE sA sB →
  Scan.within_contract SIZE ndebug o sA = true →
  Scan.step SIZE ndebug o sA = Ok sA' →
  Lazy.within_contract SIZE ndebug o sB = true ∧
  ∃ sB', Lazy.step SIZE ndebug o sB = Ok sB' ∧ agree SIZE sA' sB'.
Proof.
  intros (tg & m & HrA & HrB & Hg & Hbound) Hpre Hstep.
  pose proof (scan_step_rep _ _ _ _ _ _ HrA Hstep) as HrA'.
  pose proof (scan_step_count _ _ _ _ _ Hstep) as Hcount.
  assert (Lazy.within_contract SIZE ndebug o sB = true ∧
          ∃ sB', Lazy.step SIZE ndebug o sB = Ok sB') as [HpreB [sB' HstepB]].
  { destruct o as [i data | | i]; simpl in *.
    - apply andb_true_iff in Hpre as [Hi Hc]. split; [done |].
      apply Nat.ltb_lt in Hi. apply N.ltb_lt in Hc.
      destruct (lazy_rep_enqueue SIZE ndebug sB m i data HrB Hi) as (sB' & HsB' & _).
      { unfold max_size, ULONG_MAX, SIZE_MAX in *. lia. }
      by exists sB'.
    - rewrite (scan_empty _ _ _ HrA), Hg in Hpre.
      rewrite (lazy_empty _ _ _ HrB). split; [done |].
      destruct m as [|[i x] m]; [done |].
      destruct (lazy_dequeue_ok SIZE ndebug sB i x m HrB) as (sB' & HsB' & _).
      by exists sB'.
    - rewrite (scan_empty_at _ _ _ _ _ HrA), Hg in Hpre.
      rewrite (lazy_empty_at _ _ _ _ _ HrB). split; [done |].
      apply andb_true_iff in Hpre as [Hi Hne]. apply Nat.ltb_lt in Hi.
      unfold g_empty_at in Hne. rewrite (proj2 (Nat.ltb_lt _ _) Hi) in Hne.
      destruct (lazy_dequeue_at_ok SIZE ndebug sB m i HrB Hi) as (sB' & HsB' & _).
      { intros Hnil. by rewrite Hnil in Hne. }
      by exists sB'. }
  split; [done |]. exists sB'. split; [done |].
  pose proof (lazy_step_rep _ _ _ _ _ _ HrB HstepB) as HrB'.
  exists (Scan.track SIZE o sA tg), (Lazy.track o m).
  assert (Scan.global (Scan.track SIZE o sA tg) = Lazy.global (Lazy.track o m))
    as Hg'.
  { rewrite scan_global_track, lazy_global_track
      by apply (Lazy.rep_head _ _ _ HrB).
    rewrite Hg. destruct o as [i data | | i]; try done.
    simpl in Hpre. by rewrite Hpre. }
  split_and!; try done.
  pose proof (lazy_length_track o m) as Hlen.
  destruct o as [i data | | i].
  - simpl in Hstep.
    destruct (Scan.enqueue SIZE ndebug i data sA) as [[b s1]| | |] eqn:Henq;
      try done.
    simpl in Hstep. simplify_eq. simpl in Hpre.
    apply andb_true_iff in Hpre as [Hi Hc].
    apply Nat.ltb_lt in Hi. apply N.ltb_lt in Hc.
    destruct (scan_rep_enqueue SIZE ndebug sA tg i data HrA Hi Hc)
      as (s1 & Heq & _).
    rewrite Heq in Henq. simplify_eq.
    apply scan_enqueue_count in Heq as [_ ->]. lia.
  - destruct Hcount as [-> | Hzero]; [lia |].
    rewrite (Scan.rep_length _ _ _ HrA') in Hzero.
    assert (Scan.track SIZE Dequeue sA tg = []) as Hnil
      by (destruct (Scan.track SIZE Dequeue sA tg); [done | simpl in Hzero; lia]).
    rewrite Hnil in Hg'. symmetry in Hg'.
    rewrite (lazy_global_nil _ _ HrB' Hg'). simpl. lia.
  - destruct Hcount as [-> | Hzero]; [lia |].
    rewrite (Scan.rep_length _ _ _ HrA') in Hzero.
    assert (Scan.track SIZE (DequeueAt i) sA tg = []) as Hnil
      by (destruct (Scan.track SIZE (DequeueAt i) sA tg);
          [done | simpl in Hzero; lia]).
    rewrite Hnil in Hg'. symmetry in Hg'.
    rewrite (lazy_global_nil _ _ HrB' Hg'). simpl. lia.
Qed.

Lemma agree_run ops : ∀ sA sB sA',
  agree SIZE sA sB →
  Scan.run_contract SIZE ndebug ops sA = Some sA' →
  ∃ sB', Lazy.run_contract SIZE ndebug ops sB = Some sB' ∧ agree SIZE sA' sB'.
Proof.
  induction ops as [|o ops IH]; intros sA sB sA' Hag Hrun; simpl in *.
  - simplify_eq. by exists sB.
  - destruct (Scan.within_contract SIZE ndebug o sA) eqn:Hpre; [| done].
    destruct (Scan.step SIZE ndebug o sA) as [s1| | |] eqn:Hstep; try done.
    destruct (agree_step o sA sB s1 Hag Hpre Hstep) as (-> & sB1 & -> & Hag1).
    by apply (IH s1).
Qed.

(** Structures that agree look the same to a caller. *)
Lemma agree_observe sA sB :
  agree SIZE sA sB →
  Scan.size sA = Lazy.size sB ∧ Scan.empty sA = Lazy.empty sB ∧
  Scan.front SIZE ndebug sA = Lazy.front ndebug sB ∧
  ∀ i, Scan.size_at SIZE ndebug i sA = Lazy.size_at SIZE ndebug i sB ∧
       Scan.empty_at SIZE ndebug i sA = Lazy.empty_at SIZE ndebug i sB ∧
       Scan.front_at SIZE ndebug i sA = Lazy.front_at SIZE ndebug i sB ∧
       Scan.contents i sA = Lazy.contents i sB.
Proof.
  intros (tg & m & HrA & HrB & Hg & _). split_and!.
  - by rewrite (scan_size _ _ _ HrA), (lazy_size _ _ _ HrB), Hg.
  - by rewrite (scan_empty _ _ _ HrA), (lazy_empty _ _ _ HrB), Hg.
  - by rewrite (scan_front _ _ _ _ HrA), (lazy_front _ _ _ _ HrB), Hg.
  - intros i. split_and!.
    + by rewrite (scan_size_at _ _ _ _ _ HrA), (lazy_size_at _ _ _ _ _ HrB), Hg.
    + by rewrite (scan_empty_at _ _ _ _ _ HrA), (lazy_empty_at _ _ _ _ _ HrB), Hg.
    + by rewrite (scan_front_at _ _ _ _ _ HrA), (lazy_front_at _ _ _ _ _ HrB), Hg.
    + by rewrite (scan_contents _ _ _ _ HrA), (lazy_contents _ _ _ _ HrB), Hg.
Qed.

Lemma agree_enqueue sA sB i data :
  agree SIZE sA sB →
  Scan.within_contract SIZE ndebug (Enqueue i data) sA = true →
  ∃ sA' sB', Scan.enqueue SIZE ndebug i data sA = Ok (true, sA') ∧
             Lazy.enqueue SIZE ndebug i data sB = Ok sB'.
Proof.
  intros (tg & m & HrA & HrB & Hg & Hbound) Hpre. simpl in Hpre.
  apply andb_true_iff in Hpre as [Hi Hc].
  apply Nat.ltb_lt in Hi. apply N.ltb_lt in Hc.
  destruct (scan_rep_enqueue SIZE ndebug sA tg i data HrA Hi Hc) as (sA' & HsA' & _).
  destruct (lazy_rep_enqueue SIZE ndebug sB m i data HrB Hi) as (sB' & HsB' & _).
  { unfold max_size, ULONG_MAX, SIZE_MAX in *. lia. }
  by exists sA', sB'.
Qed.

End agree_facts.

(** ** The structure does not look at the values

    Both templates treat [TYPE] as opaque: running the same calls on other
    data gives the same structure with the other data in it. *)
Section relabel.
Context {X Y : Type} (f : X → Y).
Variable SIZE : nat.
Variable ndebug : bool.

Lemma fmap_concat {A B} (g : A → B) (ls : list (list A)) :
  g <$> concat ls = concat ((λ l : list A, g <$> l) <$> ls).
Proof.
  induction ls as [|l ls IH]; [done |].
  rewrite fmap_cons. cbn [concat]. by rewrite fmap_app, IH.
Qed.

Lemma array_at_fmap {A B} (g : A → B) (a : list A) i :
  array_at (g <$> a) i = g <$> array_at a i.
Proof. unfold array_at. rewrite list_lookup_fmap. by destruct (a !! i). Qed.

Lemma deque_front_fmap {A B} (g : A → B) (q : list A) :
  deque_front (g <$> q) = g <$> deque_front q.
Proof. by destruct q. Qed.

Lemma pop_front_fmap {A B} (g : A → B) (q : list A) :
  pop_front (g <$> q) = (λ l : list A, g <$> l) <$> pop_front q.
Proof. by destruct q. Qed.

Lemma deque_empty_fmap {A B} (g : A → B) (q : list A) :
  deque_empty (g <$> q) = deque_empty q.
Proof. by destruct q. Qed.

Lemma push_back_fmap {A B} (g : A → B) (q : list A) x :
  push_back (g <$> q) (g x) = (λ l : list A, g <$> l) <$> push_back q x.
Proof.
  unfold push_back, deque_size. rewrite length_fmap.
  destruct (N.of_nat (length q) <? max_size); [| done].
  simpl. by rewrite fmap_app.
Qed.

Lemma scan_map_find_oldest_front (s : @Scan.state X) :
  Scan.find_oldest_front SIZE (Scan.map_state f s) =
  Scan.find_oldest_front SIZE s.
Proof.
  unfold Scan.find_oldest_front, Scan.find_oldest_front_from.
  generalize (SIZE, 0). generalize (seq 0 SIZE).
  induction l as [|i l IH]; intros [k id]; [done |]. cbn [foldl].
  rewrite <- IH. f_equal.
  unfold Scan.scan, Scan.map_state. cbn [Scan.queues_].
  rewrite list_lookup_fmap.
  by destruct (Scan.queues_ s !! i) as [[|[t v] q]|].
Qed.

Lemma scan_map_enqueue i data (s : @Scan.state X) :
  Scan.enqueue SIZE ndebug i (f data) (Scan.map_state f s) =
    (λ r, (r.1, Scan.map_state f r.2)) <$> Scan.enqueue SIZE ndebug i data s.
Proof.
  unfold Scan.enqueue. cbn [Scan.map_state Scan.count_ Scan.queues_ Scan.length_].
  destruct (assert ndebug (i <? SIZE)%nat); try done. simpl.
  destruct (assert ndebug (Scan.count_ s <? ULONG_MAX)); try done. simpl.
  destruct (ULONG_MAX <=? Scan.count_ s); [done |].
  rewrite array_at_fmap.
  destruct (array_at (Scan.queues_ s) i) as [q| | |]; try done. simpl.
  pose proof (push_back_fmap (λ u : N * X, (u.1, f u.2)) q
                (Scan.count_ s, data)) as Hpb.
  cbn beta in Hpb. cbn [fst snd] in Hpb. rewrite Hpb.
  destruct (push_back q (Scan.count_ s, data)) as [q'|]; simpl.
  - unfold Scan.map_state. simpl. by rewrite list_fmap_insert.
  - by destruct (assert ndebug false).
Qed.

Lemma scan_map_pop i (s : @Scan.state X) :
  Scan.pop i (Scan.map_state f s) = Scan.map_state f <$> Scan.pop i s.
Proof.
  unfold Scan.pop. cbn [Scan.map_state Scan.count_ Scan.queues_ Scan.length_].
  rewrite array_at_fmap.
  destruct (array_at (Scan.queues_ s) i) as [q| | |]; try done. simpl.
  rewrite pop_front_fmap. destruct (pop_front q) as [q'| | |]; try done.
  simpl. unfold Scan.map_state. simpl. by rewrite list_fmap_insert.
Qed.

Lemma scan_map_step o (s : @Scan.state X) :
  Scan.step SIZE ndebug (map_op f o) (Scan.map_state f s) =
    Scan.map_state f <$> Scan.step SIZE ndebug o s.
Proof.
  destruct o as [i data | | i]; cbn [map_op Scan.step].
  - rewrite scan_map_enqueue.
    by destruct (Scan.enqueue SIZE ndebug i data s) as [[b s']| | |].
  - unfold Scan.dequeue. rewrite scan_map_find_oldest_front.
    cbn [Scan.map_state Scan.length_]. destruct (0 <? Scan.length_ s); [| done].
    destruct (assert ndebug (Scan.find_oldest_front SIZE s <? SIZE)%nat);
      try done.
    apply scan_map_pop.
  - unfold Scan.dequeue_at. cbn [Scan.map_state Scan.queues_].
    destruct (assert ndebug (i <? SIZE)%nat); try done. simpl.
    rewrite array_at_fmap.
    destruct (array_at (Scan.queues_ s) i) as [q| | |]; try done. simpl.
    unfold deque_size. rewrite length_fmap.
    destruct (0 <? N.of_nat (length q)); [| done]. apply scan_map_pop.
Qed.

Lemma scan_map_run ops : ∀ s : @Scan.state X,
  Scan.run SIZE ndebug (map_op f <$> ops) (Scan.map_state f s) =
    Scan.map_state f <$> Scan.run SIZE ndebug ops s.
Proof.
  induction ops as [|o ops IH]; intros s; [done |].
  rewrite fmap_cons. cbn [Scan.run]. rewrite scan_map_step.
  destruct (Scan.step SIZE ndebug o s) as [s'| | |]; try done. apply IH.
Qed.

Lemma scan_map_init : Scan.map_state f (Scan.init SIZE) = Scan.init SIZE.
Proof. unfold Scan.map_state, Scan.init. simpl. by rewrite fmap_replicate. Qed.

Lemma scan_map_front (s : @Scan.state X) :
  Scan.front SIZE ndebug (Scan.map_state f s) = f <$> Scan.front SIZE ndebug s.
Proof.
  unfold Scan.front. rewrite scan_map_find_oldest_front.
  cbn [Scan.map_state Scan.length_ Scan.queues_].
  destruct (assert ndebug (0 <? Scan.length_ s)); try done. simpl.
  destruct (assert ndebug (Scan.find_oldest_front SIZE s <? SIZE)%nat);
    try done. simpl.
  rewrite array_at_fmap.
  destruct (array_at (Scan.queues_ s) _) as [[|u q]| | |]; done.
Qed.

Lemma scan_map_present (s : @Scan.state X) :
  Scan.present SIZE (Scan.map_state f s) = f <$> Scan.present SIZE s.
Proof.
  unfold Scan.present. rewrite fmap_concat, <- list_fmap_compose.
  f_equal. apply list_fmap_ext. intros _ i _.
  unfold Scan.contents, Scan.map_state. simpl. rewrite list_lookup_fmap.
  destruct (Scan.queues_ s !! i) as [q|]; simpl; [| done].
  by rewrite <- !list_fmap_compose.
Qed.

Lemma lazy_map_enqueue i data (s : @Lazy.state X) :
  Lazy.enqueue SIZE ndebug i (f data) (Lazy.map_state f s) =
    Lazy.map_state f <$> Lazy.enqueue SIZE ndebug i data s.
Proof.
  unfold Lazy.enqueue.
  cbn [Lazy.map_state Lazy.index_queue_ Lazy.data_queue_ Lazy.length_ Lazy.remain_].
  destruct (assert ndebug (i <? SIZE)%nat); try done. simpl.
  destruct (push_back (Lazy.index_queue_ s) i) as [iq|]; [| done].
  rewrite array_at_fmap.
  destruct (array_at (Lazy.data_queue_ s) i) as [q| | |]; try done. simpl.
  rewrite push_back_fmap. destruct (push_back q data) as [q'|]; [| done].
  simpl. unfold Lazy.map_state. simpl. by rewrite list_fmap_insert.
Qed.

Lemma lazy_map_step o (s : @Lazy.state X) :
  Lazy.step SIZE ndebug (map_op f o) (Lazy.map_state f s) =
    Lazy.map_state f <$> Lazy.step SIZE ndebug o s.
Proof.
  destruct o as [i data | | i]; cbn [map_op Lazy.step].
  - apply lazy_map_enqueue.
  - unfold Lazy.dequeue.
    cbn [Lazy.map_state Lazy.index_queue_ Lazy.data_queue_ Lazy.length_ Lazy.remain_].
    destruct (assert ndebug (negb (deque_empty (Lazy.index_queue_ s))));
      try done. simpl.
    destruct (deque_front (Lazy.index_queue_ s)) as [i| | |]; try done. simpl.
    destruct (pop_front (Lazy.index_queue_ s)) as [iq| | |]; try done. simpl.
    rewrite array_at_fmap.
    destruct (array_at (Lazy.data_queue_ s) i) as [q| | |]; try done. simpl.
    rewrite pop_front_fmap. destruct (pop_front q) as [q'| | |]; try done.
    simpl. destruct (Lazy.adjust_deque iq (Lazy.remain_ s)) as [a| | |];
      try done.
    simpl. unfold Lazy.map_state. simpl. by rewrite list_fmap_insert.
  - unfold Lazy.dequeue_at.
    cbn [Lazy.map_state Lazy.index_queue_ Lazy.data_queue_ Lazy.length_ Lazy.remain_].
    destruct (assert ndebug (i <? SIZE)%nat); try done. simpl.
    rewrite array_at_fmap.
    destruct (array_at (Lazy.data_queue_ s) i) as [q| | |]; try done. simpl.
    rewrite deque_empty_fmap.
    destruct (assert ndebug (negb (deque_empty q))); try done. simpl.
    rewrite pop_front_fmap. destruct (pop_front q) as [q'| | |]; try done.
    simpl.
    destruct (deque_front (Lazy.index_queue_ s)) as [k| | |]; try done. simpl.
    match goal with |- ?a ≫= _ = _ => destruct a as [b| | |] end; try done.
    simpl. unfold Lazy.map_state. simpl. by rewrite list_fmap_insert.
Qed.

Lemma lazy_map_run ops : ∀ s : @Lazy.state X,
  Lazy.run SIZE ndebug (map_op f <$> ops) (Lazy.map_state f s) =
    Lazy.map_state f <$> Lazy.run SIZE ndebug ops s.
Proof.
  induction ops as [|o ops IH]; intros s; [done |].
  rewrite fmap_cons. cbn [Lazy.run]. rewrite lazy_map_step.
  destruct (Lazy.step SIZE ndebug o s) as [s'| | |]; try done. apply IH.
Qed.

Lemma lazy_map_init : Lazy.map_state f (Lazy.init SIZE) = Lazy.init SIZE.
Proof. unfold Lazy.map_state, Lazy.init. simpl. by rewrite fmap_replicate. Qed.

Lemma lazy_map_front (s : @Lazy.state X) :
  Lazy.front ndebug (Lazy.map_state f s) = f <$> Lazy.front ndebug s.
Proof.
  unfold Lazy.front. cbn [Lazy.map_state Lazy.index_queue_ Lazy.data_queue_].
  destruct (assert ndebug (negb (deque_empty (Lazy.index_queue_ s))));
    try done. simpl.
  destruct (deque_front (Lazy.index_queue_ s)) as [i| | |]; try done. simpl.
  rewrite array_at_fmap.
  destruct (array_at (Lazy.data_queue_ s) i) as [[|v q]| | |]; done.
Qed.

Lemma lazy_map_present (s : @Lazy.state X) :
  Lazy.present SIZE (Lazy.map_state f s) = f <$> Lazy.present SIZE s.
Proof.
  unfold Lazy.present. rewrite fmap_concat, <- list_fmap_compose.
  f_equal. apply list_fmap_ext. intros _ i _.
  unfold Lazy.contents, Lazy.map_state. simpl. rewrite list_lookup_fmap.
  by destruct (Lazy.data_queue_ s !! i).
Qed.

End relabel.

(** Numbering the values of a run changes nothing but the values. *)
Lemma stamped_number {X} n (ops : list (op X)) : stamped fst n (number n ops).
Proof.
  revert n. induction ops as [|[i data | | i] ops IH]; intros n; simpl; auto.
Qed.

Lemma map_number {X} n (ops : list (op X)) : map_op snd <$> number n ops = ops.
Proof.
  revert n. induction ops as [|[i data | | i] ops IH]; intros n; simpl;
    by rewrite ?IH.
Qed.

Lemma scan_run_number {X} SIZE ndebug (ops : list (op X)) s :
  Scan.run SIZE ndebug ops (Scan.init SIZE) = Ok s →
  ∃ sn, Scan.run SIZE ndebug (number 0 ops) (Scan.init SIZE) = Ok sn ∧
        Scan.map_state snd sn = s.
Proof.
  intros Hrun. rewrite <- (map_number 0 ops) in Hrun.
  rewrite <- (scan_map_init (@snd nat X) SIZE), scan_map_run in Hrun.
  destruct (Scan.run SIZE ndebug (number 0 ops) (Scan.init SIZE)) as [sn| | |];
    try done.
  exists sn. split; [done |]. by injection Hrun.
Qed.

Lemma lazy_run_number {X} SIZE ndebug (ops : list (op X)) s :
  Lazy.run SIZE ndebug ops (Lazy.init SIZE) = Ok s →
  ∃ sn, Lazy.run SIZE ndebug (number 0 ops) (Lazy.init SIZE) = Ok sn ∧
        Lazy.map_state snd sn = s.
Proof.
  intros Hrun. rewrite <- (map_number 0 ops) in Hrun.
  rewrite <- (lazy_map_init (@snd nat X) SIZE), lazy_map_run in Hrun.
  destruct (Lazy.run SIZE ndebug (number 0 ops) (Lazy.init SIZE)) as [sn| | |];
    try done.
  exists sn. split; [done |]. by injection Hrun.
Qed.

(** In a state that is not empty, [front()] returns the value that the
    numbered run holds with the least number. *)
Lemma scan_front_numbered {X} SIZE ndebug (ops : list (op X)) s :
  Scan.run SIZE ndebug ops (Scan.init SIZE) = Ok s → Scan.empty s = false →
  ∃ sn v, Scan.run SIZE ndebug (number 0 ops) (Scan.init SIZE) = Ok sn ∧
          Scan.map_state snd sn = s ∧
          Scan.present SIZE s = snd <$> Scan.present SIZE sn ∧
          Scan.front SIZE ndebug s = Ok v.2 ∧
          Scan.front SIZE ndebug sn = Ok v ∧
          v ∈ Scan.present SIZE sn ∧
          (∀ w, w ∈ Scan.present SIZE sn → (v.1 ≤ w.1)%nat) ∧
          NoDup (fst <$> Scan.present SIZE sn).
Proof.
  intros Hrun Hne. destruct (scan_run_number _ _ _ _ Hrun) as (sn & Hsn & <-).
  destruct (scan_front_oldest SIZE ndebug fst (number 0 ops) sn)
    as (v & Hv & Hin & Hmin & Hnd); [apply stamped_number | done | done |].
  exists sn, v. split_and!; try done.
  - apply scan_map_present.
  - by rewrite scan_map_front, Hv.
Qed.

Lemma lazy_front_numbered {X} SIZE ndebug (ops : list (op X)) s :
  Lazy.run SIZE ndebug ops (Lazy.init SIZE) = Ok s → Lazy.empty s = false →
  ∃ sn v, Lazy.run SIZE ndebug (number 0 ops) (Lazy.init SIZE) = Ok sn ∧
          Lazy.map_state snd sn = s ∧
          Lazy.present SIZE s = snd <$> Lazy.present SIZE sn ∧
          Lazy.front ndebug s = Ok v.2 ∧
          Lazy.front ndebug sn = Ok v ∧
          v ∈ Lazy.present SIZE sn ∧
          (∀ w, w ∈ Lazy.present SIZE sn → (v.1 ≤ w.1)%nat) ∧
          NoDup (fst <$> Lazy.present SIZE sn).
Proof.
  intros Hrun Hne. destruct (lazy_run_number _ _ _ _ Hrun) as (sn & Hsn & <-).
  destruct (lazy_front_oldest SIZE ndebug fst (number 0 ops) sn)
    as (v & Hv & Hin & Hmin & Hnd); [apply stamped_number | done | done |].
  exists sn, v. split_and!; try done.
  - apply lazy_map_present.
  - by rewrite lazy_map_front, Hv.
Qed.

(** * Properties of the structure *)
Section properties.
Context {TYPE : Type}.
Variable SIZE : nat.
Variable ndebug : bool.
Implicit Types (ops : list (op TYPE)).

(** C1.  Number the values in the order in which they are enqueued.  A
    state [s] reached by either variant is the state [sn] that the numbered
    run reaches, without the numbers; when [s] is not empty, [front()]
    returns the value that has the least number of all values present, and
    no two values present have the same number, whatever [enqueue],
    [dequeue()] and [dequeue(i)] calls led to [s]. *)
Theorem front_is_oldest ops :
  (∀ s, Scan.run SIZE ndebug ops (Scan.init SIZE) = Ok s →
        Scan.empty s = false →
        ∃ sn v, Scan.run SIZE ndebug (number 0 ops) (Scan.init SIZE) = Ok sn ∧
                Scan.map_state snd sn = s ∧
                Scan.present SIZE s = snd <$> Scan.present SIZE sn ∧
                Scan.front SIZE ndebug s = Ok v.2 ∧
                Scan.front SIZE ndebug sn = Ok v ∧
                v ∈ Scan.present SIZE sn ∧
                (∀ w, w ∈ Scan.present SIZE sn → (v.1 ≤ w.1)%nat) ∧
                NoDup (fst <$> Scan.present SIZE sn)) ∧
  (∀ s, Lazy.run SIZE ndebug ops (Lazy.init SIZE) = Ok s →
        Lazy.empty s = false →
        ∃ sn v, Lazy.run SIZE ndebug (number 0 ops) (Lazy.init SIZE) = Ok sn ∧
                Lazy.map_state snd sn = s ∧
                Lazy.present SIZE s = snd <$> Lazy.present SIZE sn ∧
                Lazy.front ndebug s = Ok v.2 ∧
                Lazy.front ndebug sn = Ok v ∧
                v ∈ Lazy.present SIZE sn ∧
                (∀ w, w ∈ Lazy.present SIZE sn → (v.1 ≤ w.1)%nat) ∧
                NoDup (fst <$> Lazy.present SIZE sn)).
Proof.
  split; intros s Hrun Hne.
  - by apply scan_front_numbered.
  - by apply lazy_front_numbered.
Qed.

(** C2.  In every reachable state of either variant that is not empty,
    [dequeue()] returns, it takes the value that [front()] returns off the
    front of one sub-queue [k], every other sub-queue is as it was, and the
    total length is one less.  With the values numbered in the order in
    which they are enqueued, that value has the least number of all values
    present. *)
Theorem dequeue_removes_front ops :
  (∀ s, Scan.run SIZE ndebug ops (Scan.init SIZE) = Ok s →
        Scan.empty s = false →
        ∃ v k s', Scan.front SIZE ndebug s = Ok v ∧
          Scan.dequeue SIZE ndebug s = Ok s' ∧ (k < SIZE)%nat ∧
          Scan.contents k s = v :: Scan.contents k s' ∧
          (∀ j, j ≠ k → Scan.contents j s' = Scan.contents j s) ∧
          Scan.size s = Scan.size s' + 1 ∧
          ∃ sn n, Scan.run SIZE ndebug (number 0 ops) (Scan.init SIZE) = Ok sn ∧
                  Scan.map_state snd sn = s ∧
                  Scan.front SIZE ndebug sn = Ok (n, v) ∧
                  ∀ w, w ∈ Scan.present SIZE sn → (n ≤ w.1)%nat) ∧
  (∀ s, Lazy.run SIZE ndebug ops (Lazy.init SIZE) = Ok s →
        Lazy.empty s = false →
        ∃ v k s', Lazy.front ndebug s = Ok v ∧
          Lazy.dequeue ndebug s = Ok s' ∧ (k < SIZE)%nat ∧
          Lazy.contents k s = v :: Lazy.contents k s' ∧
          (∀ j, j ≠ k → Lazy.contents j s' = Lazy.contents j s) ∧
          Lazy.size s = Lazy.size s' + 1 ∧
          ∃ sn n, Lazy.run SIZE ndebug (number 0 ops) (Lazy.init SIZE) = Ok sn ∧
                  Lazy.map_state snd sn = s ∧
                  Lazy.front ndebug sn = Ok (n, v) ∧
                  ∀ w, w ∈ Lazy.present SIZE sn → (n ≤ w.1)%nat).
Proof.
  split; intros s Hrun Hne.
  - destruct (scan_reachable_rep _ _ _ _ Hrun) as [tg Hrep].
    rewrite (scan_empty _ _ _ Hrep) in Hne.
    destruct (g_dequeue ndebug _ Hne) as (k & v & Hfront & Hin & Hk & Hj & Hsz).
    destruct tg as [|[o u] tg]; [done |].
    destruct (scan_dequeue_ok SIZE ndebug s o u tg Hrep) as (s' & Hs' & Hrep').
    exists v, k, s'. split_and!.
    + by rewrite (scan_front _ _ _ _ Hrep).
    + done.
    + pose proof (scan_global_owner _ _ _ Hrep) as Hown.
      rewrite Forall_forall in Hown. apply (Hown _ Hin).
    + by rewrite (scan_contents _ _ _ _ Hrep), (scan_contents _ _ _ _ Hrep').
    + intros j Hjk.
      rewrite (scan_contents _ _ _ _ Hrep), (scan_contents _ _ _ _ Hrep').
      by apply Hj.
    + by rewrite (scan_size _ _ _ Hrep), (scan_size _ _ _ Hrep').
    + destruct (scan_front_numbered SIZE ndebug ops s Hrun)
        as (sn & [n v'] & Hsn & Hmap & _ & Hv' & Hvn & _ & Hmin & _).
      { by rewrite (scan_empty _ _ _ Hrep). }
      rewrite (scan_front _ _ _ _ Hrep), Hfront in Hv'. simpl in Hv'.
      injection Hv' as ->. by exists sn, n.
  - destruct (lazy_reachable_rep _ _ _ _ Hrun) as [m Hrep].
    rewrite (lazy_empty _ _ _ Hrep) in Hne.
    destruct (g_dequeue ndebug _ Hne) as (k & v & Hfront & Hin & Hk & Hj & Hsz).
    destruct m as [|[i x] m]; [done |].
    destruct (lazy_dequeue_ok SIZE ndebug s i x m Hrep) as (s' & Hs' & Hrep').
    destruct (lazy_head_live_inv _ _ _ (Lazy.rep_head _ _ _ Hrep)) as [v0 ->].
    rewrite lazy_global_live in Hk, Hj, Hsz. cbn [tail] in Hk, Hj, Hsz.
    exists v, k, s'. split_and!.
    + by rewrite (lazy_front _ _ _ _ Hrep).
    + done.
    + pose proof (lazy_global_owner _ _ _ Hrep) as Hown.
      rewrite Forall_forall in Hown. apply (Hown _ Hin).
    + rewrite (lazy_contents _ _ _ _ Hrep), (lazy_contents _ _ _ _ Hrep').
      by rewrite lazy_global_purge, lazy_global_live.
    + intros j Hjk.
      rewrite (lazy_contents _ _ _ _ Hrep), (lazy_contents _ _ _ _ Hrep').
      rewrite lazy_global_purge, lazy_global_live. by apply Hj.
    + rewrite (lazy_size _ _ _ Hrep), (lazy_size _ _ _ Hrep').
      by rewrite lazy_global_purge, lazy_global_live.
    + destruct (lazy_front_numbered SIZE ndebug ops s Hrun)
        as (sn & [n v'] & Hsn & Hmap & _ & Hv' & Hvn & _ & Hmin & _).
      { by rewrite (lazy_empty _ _ _ Hrep). }
      rewrite (lazy_front _ _ _ _ Hrep), Hfront in Hv'. simpl in Hv'.
      injection Hv' as ->. by exists sn, n.
Qed.

(** C3.  In every reachable state of either variant, [size()] is the sum of
    [size(i)] over all [i] below [SIZE]. *)
Theorem size_is_sum_of_sizes ops :
  (∀ s, Scan.run SIZE ndebug ops (Scan.init SIZE) = Ok s →
        sum_results (Scan.sizes SIZE ndebug s) = Ok (Scan.size s)) ∧
  (∀ s, Lazy.run SIZE ndebug ops (Lazy.init SIZE) = Ok s →
        sum_results (Lazy.sizes SIZE ndebug s) = Ok (Lazy.size s)).
Proof.
  split; intros s Hrun.
  - destruct (scan_reachable_rep _ _ _ _ Hrun) as [tg Hrep].
    rewrite (scan_size _ _ _ Hrep).
    rewrite <- (g_sizes_sum SIZE ndebug) by by eapply scan_global_owner.
    unfold Scan.sizes. f_equal. apply list_fmap_ext. intros _ i _.
    by apply scan_size_at.
  - destruct (lazy_reachable_rep _ _ _ _ Hrun) as [m Hrep].
    rewrite (lazy_size _ _ _ Hrep).
    rewrite <- (g_sizes_sum SIZE ndebug) by by eapply lazy_global_owner.
    unfold Lazy.sizes. f_equal. apply list_fmap_ext. intros _ i _.
    by apply lazy_size_at.
Qed.

(** C4, as the code has it.  With assertions enabled: [front()] of an empty
    structure, and [front(i)] with an invalid index or of an empty
    sub-queue, fail an assertion in both variants; so do [dequeue()] of an
    empty structure and [dequeue(i)] with an invalid index or of an empty
    sub-queue in the index-queue variant, and [dequeue(i)] with an invalid
    index in [multi_queue.hpp].  In [multi_queue.hpp], [dequeue()] of an
    empty structure and [dequeue(i)] of an empty sub-queue return and leave
    the structure as it was. *)
Theorem contract_violations (sA : @Scan.state TYPE) (sB : @Lazy.state TYPE) :
  (Scan.empty sA = true →
     Scan.front SIZE false sA = AssertFail ∧
     Scan.dequeue SIZE false sA = Ok sA) ∧
  (Lazy.empty sB = true →
     Lazy.front false sB = AssertFail ∧ Lazy.dequeue false sB = AssertFail) ∧
  (∀ i, (SIZE ≤ i)%nat →
     Scan.front_at SIZE false i sA = AssertFail ∧
     Scan.dequeue_at SIZE false i sA = AssertFail ∧
     Lazy.front_at SIZE false i sB = AssertFail ∧
     Lazy.dequeue_at SIZE false i sB = AssertFail) ∧
  (∀ i, Scan.empty_at SIZE false i sA = Ok true →
     Scan.front_at SIZE false i sA = AssertFail ∧
     Scan.dequeue_at SIZE false i sA = Ok sA) ∧
  (∀ i, Lazy.empty_at SIZE false i sB = Ok true →
     Lazy.front_at SIZE false i sB = AssertFail ∧
     Lazy.dequeue_at SIZE false i sB = AssertFail).
Proof.
  split_and!.
  - unfold Scan.empty, Scan.front, Scan.dequeue. intros Hz%N.eqb_eq.
    by rewrite <- Hz.
  - unfold Lazy.empty, Lazy.front, Lazy.dequeue. by intros ->.
  - intros i Hi.
    unfold Scan.front_at, Scan.dequeue_at, Lazy.front_at, Lazy.dequeue_at.
    by rewrite (proj2 (Nat.ltb_ge _ _) Hi).
  - intros i. unfold Scan.empty_at, Scan.front_at, Scan.dequeue_at.
    destruct (assert false (i <? SIZE)%nat); try done. simpl.
    destruct (array_at (Scan.queues_ sA) i) as [[|u q]| | |]; by try done.
  - intros i. unfold Lazy.empty_at, Lazy.front_at, Lazy.dequeue_at.
    destruct (assert false (i <? SIZE)%nat); try done. simpl.
    destruct (array_at (Lazy.data_queue_ sB) i) as [[|u q]| | |]; by try done.
Qed.

(** C5.  For every sequence of operations within the contract (valid
    indices, no [dequeue] of what is empty, counter of the first variant not
    exhausted), the second variant runs it too, and in the states reached
    [size()], [size(i)], [empty()], [empty(i)], [front()] and [front(i)]
    give the same results in both, every sub-queue holds the same values in
    both, and an [enqueue] within the contract returns in both, with [true]
    from the first. *)
Theorem variants_agree ops sA :
  Scan.run_contract SIZE ndebug ops (Scan.init SIZE) = Some sA →
  ∃ sB, Lazy.run_contract SIZE ndebug ops (Lazy.init SIZE) = Some sB ∧
    Scan.size sA = Lazy.size sB ∧ Scan.empty sA = Lazy.empty sB ∧
    Scan.front SIZE ndebug sA = Lazy.front ndebug sB ∧
    (∀ i, Scan.size_at SIZE ndebug i sA = Lazy.size_at SIZE ndebug i sB ∧
          Scan.empty_at SIZE ndebug i sA = Lazy.empty_at SIZE ndebug i sB ∧
          Scan.front_at SIZE ndebug i sA = Lazy.front_at SIZE ndebug i sB ∧
          Scan.contents i sA = Lazy.contents i sB) ∧
    (∀ i data,
       Scan.within_contract SIZE ndebug (Enqueue i data) sA = true →
       ∃ sA' sB', Scan.enqueue SIZE ndebug i data sA = Ok (true, sA') ∧
                  Lazy.enqueue SIZE ndebug i data sB = Ok sB').
Proof.
  intros Hrun.
  destruct (agree_run SIZE ndebug ops _ _ sA (agree_init SIZE) Hrun)
    as (sB & HrunB & Hag).
  exists sB. split; [done |].
  destruct (agree_observe SIZE ndebug sA sB Hag) as (Hsz & Hem & Hfr & Hat).
  split_and!; try done.
  intros i data Hpre. by apply (agree_enqueue SIZE).
Qed.

(** C6.  In every reachable state of either variant, [empty()] is true
    exactly when [size()] is 0, and for every valid index [i], [empty(i)]
    is true exactly when [size(i)] is 0. *)
Theorem empty_iff_size_zero ops :
  (∀ s, Scan.run SIZE ndebug ops (Scan.init SIZE) = Ok s →
        (Scan.empty s = true ↔ Scan.size s = 0) ∧
        ∀ i, (i < SIZE)%nat →
          ∃ b n, Scan.empty_at SIZE ndebug i s = Ok b ∧
                 Scan.size_at SIZE ndebug i s = Ok n ∧ (b = true ↔ n = 0)) ∧
  (∀ s, Lazy.run SIZE ndebug ops (Lazy.init SIZE) = Ok s →
        (Lazy.empty s = true ↔ Lazy.size s = 0) ∧
        ∀ i, (i < SIZE)%nat →
          ∃ b n, Lazy.empty_at SIZE ndebug i s = Ok b ∧
                 Lazy.size_at SIZE ndebug i s = Ok n ∧ (b = true ↔ n = 0)).
Proof.
  split; intros s Hrun.
  - destruct (scan_reachable_rep _ _ _ _ Hrun) as [tg Hrep]. split.
    + rewrite (scan_empty _ _ _ Hrep), (scan_size _ _ _ Hrep).
      apply g_empty_size.
    + intros i Hi.
      rewrite (scan_empty_at _ _ _ _ _ Hrep), (scan_size_at _ _ _ _ _ Hrep).
      by apply g_empty_size_at.
  - destruct (lazy_reachable_rep _ _ _ _ Hrun) as [m Hrep]. split.
    + rewrite (lazy_empty _ _ _ Hrep), (lazy_size _ _ _ Hrep).
      apply g_empty_size.
    + intros i Hi.
      rewrite (lazy_empty_at _ _ _ _ _ Hrep), (lazy_size_at _ _ _ _ _ Hrep).
      by apply g_empty_size_at.
Qed.

(** C7.  In [multi_queue.hpp], a reachable state whose length is 0 has its
    counter at zero; it is the state of a freshly constructed structure, so
    whatever is done next goes as it does on a fresh structure. *)
Theorem counter_reset ops s :
  Scan.run SIZE ndebug ops (Scan.init SIZE) = Ok s → Scan.size s = 0 →
  Scan.count_ s = 0 ∧ s = Scan.init SIZE ∧
  ∀ ops', Scan.run SIZE ndebug ops' s = Scan.run SIZE ndebug ops' (Scan.init SIZE).
Proof.
  intros Hrun Hsize. destruct (scan_reachable_rep _ _ _ _ Hrun) as [tg Hrep].
  assert (tg = []) as ->.
  { unfold Scan.size in Hsize. rewrite (Scan.rep_length _ _ _ Hrep) in Hsize.
    destruct tg; [done | simpl in Hsize; lia]. }
  assert (s = Scan.init SIZE) as ->; [| done].
  pose proof (scan_queues _ _ _ Hrep) as Hq.
  pose proof (Scan.rep_reset _ _ _ Hrep eq_refl) as Hc.
  pose proof (Scan.rep_length _ _ _ Hrep) as Hl.
  destruct s as [qs c l]. simpl in *. subst. unfold Scan.init. f_equal.
  clear. induction SIZE as [|n IH]; [done |].
  rewrite seq_S, fmap_app, IH. simpl.
  by rewrite <- replicate_cons_app.
Qed.

(** C8, as the code has it.  In [multi_queue.hpp], when the counter of a
    reachable state has reached [ULONG_MAX], [enqueue] fails and changes
    nothing: it returns [false] when assertions are compiled out, and fails
    an assertion otherwise.  An [enqueue] that returns [false] changes
    nothing, one that returns [true] adds exactly one to a counter below
    [ULONG_MAX], so the counter never wraps around, and no two units
    present in a reachable state have the same ID. *)
Theorem counter_exhausted ops s :
  Scan.run SIZE ndebug ops (Scan.init SIZE) = Ok s →
  (Scan.count_ s = ULONG_MAX →
     ∀ i data, Scan.enqueue SIZE ndebug i data s =
               if ndebug then Ok (false, s) else AssertFail) ∧
  (∀ i data s', Scan.enqueue SIZE ndebug i data s = Ok (false, s') → s' = s) ∧
  (∀ i data s', Scan.enqueue SIZE ndebug i data s = Ok (true, s') →
     Scan.count_ s < ULONG_MAX ∧ Scan.count_ s' = Scan.count_ s + 1) ∧
  Scan.count_ s ≤ ULONG_MAX ∧
  NoDup (Scan.ids s).
Proof.
  intros Hrun. destruct (scan_reachable_rep _ _ _ _ Hrun) as [tg Hrep].
  split_and!.
  - intros Hc i data. by apply scan_enqueue_exhausted.
  - intros i data s' Henq.
    destruct (Nat.ltb_spec i SIZE) as [Hi | Hi];
      [destruct (N.ltb_spec (Scan.count_ s) ULONG_MAX) as [Hc | Hc] |].
    + destruct (scan_rep_enqueue SIZE ndebug s tg i data Hrep Hi Hc)
        as (s1 & Heq & _).
      rewrite Heq in Henq. done.
    + unfold Scan.enqueue in Henq.
      destruct (assert ndebug (i <? SIZE)%nat); try done. simpl in Henq.
      destruct (assert ndebug (Scan.count_ s <? ULONG_MAX)); try done.
      simpl in Henq. rewrite (proj2 (N.leb_le _ _) Hc) in Henq.
      by simplify_eq.
    + unfold Scan.enqueue in Henq.
      destruct (assert ndebug (i <? SIZE)%nat); try done. simpl in Henq.
      destruct (assert ndebug (Scan.count_ s <? ULONG_MAX)); try done.
      simpl in Henq.
      destruct (ULONG_MAX <=? Scan.count_ s); [by simplify_eq |].
      rewrite array_at_ge in Henq by (by rewrite (Scan.rep_size _ _ _ Hrep)).
      done.
  - intros i data s' Henq. by apply (scan_enqueue_count SIZE ndebug i data).
  - apply (Scan.rep_count _ _ _ Hrep).
  - rewrite (scan_ids _ _ _ Hrep).
    pose proof (Scan.rep_sorted _ _ _ Hrep) as Hs.
    induction Hs as [|t ts _ IH Ht]; constructor; [| done].
    intros Hin. rewrite Forall_forall in Ht. specialize (Ht _ Hin). lia.
Qed.

(** C9.  In every reachable state of either variant in which sub-queue [i]
    is not empty, [dequeue(i)] returns and leaves [size(j)] and [front(j)]
    as they were for every valid [j] other than [i]. *)
Theorem dequeue_at_frame ops i :
  (i < SIZE)%nat →
  (∀ s, Scan.run SIZE ndebug ops (Scan.init SIZE) = Ok s →
        Scan.empty_at SIZE ndebug i s = Ok false →
        ∃ s', Scan.dequeue_at SIZE ndebug i s = Ok s' ∧
          ∀ j, (j < SIZE)%nat → j ≠ i →
            Scan.size_at SIZE ndebug j s' = Scan.size_at SIZE ndebug j s ∧
            Scan.front_at SIZE ndebug j s' = Scan.front_at SIZE ndebug j s) ∧
  (∀ s, Lazy.run SIZE ndebug ops (Lazy.init SIZE) = Ok s →
        Lazy.empty_at SIZE ndebug i s = Ok false →
        ∃ s', Lazy.dequeue_at SIZE ndebug i s = Ok s' ∧
          ∀ j, (j < SIZE)%nat → j ≠ i →
            Lazy.size_at SIZE ndebug j s' = Lazy.size_at SIZE ndebug j s ∧
            Lazy.front_at SIZE ndebug j s' = Lazy.front_at SIZE ndebug j s).
Proof.
  intros Hi. split; intros s Hrun Hne.
  - destruct (scan_reachable_rep _ _ _ _ Hrun) as [tg Hrep].
    rewrite (scan_empty_at _ _ _ _ _ Hrep) in Hne. unfold g_empty_at in Hne.
    rewrite (proj2 (Nat.ltb_lt _ _) Hi), scan_global_sub in Hne.
    destruct (scan_dequeue_at_ok SIZE ndebug s tg i Hrep Hi) as (s' & Hs' & Hrep').
    { intros Hnil. by rewrite Hnil in Hne. }
    exists s'. split; [done |]. intros j Hj Hji.
    rewrite !(scan_size_at _ _ _ _ _ Hrep'), !(scan_front_at _ _ _ _ _ Hrep').
    rewrite !(scan_size_at _ _ _ _ _ Hrep), !(scan_front_at _ _ _ _ _ Hrep).
    pose proof (scan_global_track SIZE (DequeueAt i) s tg) as Hg.
    simpl in Hg. rewrite Hg. by apply g_frame.
  - destruct (lazy_reachable_rep _ _ _ _ Hrun) as [m Hrep].
    rewrite (lazy_empty_at _ _ _ _ _ Hrep) in Hne. unfold g_empty_at in Hne.
    rewrite (proj2 (Nat.ltb_lt _ _) Hi) in Hne.
    destruct (lazy_dequeue_at_ok SIZE ndebug s m i Hrep Hi) as (s' & Hs' & Hrep').
    { intros Hnil. by rewrite Hnil in Hne. }
    exists s'. split; [done |]. intros j Hj Hji.
    rewrite !(lazy_size_at _ _ _ _ _ Hrep'), !(lazy_front_at _ _ _ _ _ Hrep').
    rewrite !(lazy_size_at _ _ _ _ _ Hrep), !(lazy_front_at _ _ _ _ _ Hrep).
    rewrite (lazy_global_track (DequeueAt i) m) by apply (Lazy.rep_head _ _ _ Hrep).
    by apply g_frame.
Qed.

(** C10.  In every reachable state of the index-queue variant, the index
    queue has as many entries as the total length plus the sum of the
    deficit counters, and when it is not empty the deficit counter of the
    sub-queue its front entry names is zero and that sub-queue is not
    empty. *)
Theorem index_queue_invariant ops s :
  Lazy.run SIZE ndebug ops (Lazy.init SIZE) = Ok s →
  deque_size (Lazy.index_queue_ s) = Lazy.size s + Lazy.deficit s ∧
  ∀ f, deque_front (Lazy.index_queue_ s) = Ok f →
       array_at (Lazy.remain_ s) f = Ok 0 ∧
       Lazy.empty_at SIZE ndebug f s = Ok false.
Proof.
  intros Hrun. destruct (lazy_reachable_rep _ _ _ _ Hrun) as [m Hrep]. split.
  - unfold deque_size.
    rewrite (Lazy.rep_index _ _ _ Hrep), length_fmap, (lazy_size _ _ _ Hrep).
    by apply (lazy_deficit SIZE).
  - intros f Hf. rewrite (Lazy.rep_index _ _ _ Hrep) in Hf.
    destruct m as [|[i x] m]; [done |]. simpl in Hf. simplify_eq.
    destruct (lazy_head_live_inv _ _ _ (Lazy.rep_head _ _ _ Hrep)) as [v ->].
    pose proof (Lazy.rep_owner _ _ _ Hrep) as Hown.
    apply Forall_cons in Hown as [Hf _]. simpl in Hf.
    destruct (Lazy.rep_queue _ _ _ Hrep f Hf) as (r & q & Hr & Hq & Hsub).
    rewrite sub_cons in Hsub. cbn [fst snd] in Hsub.
    rewrite decide_True in Hsub by done.
    split.
    + rewrite (array_at_lookup _ _ _ Hr). f_equal.
      destruct (N.to_nat r) eqn:Hnat; [lia | done].
    + rewrite (lazy_empty_at _ _ _ _ _ Hrep). unfold g_empty_at.
      rewrite (proj2 (Nat.ltb_lt _ _) Hf), lazy_global_live, sub_cons.
      cbn [fst]. by rewrite decide_True.
Qed.

End properties.

(** * The properties on sample runs *)

Lemma demo_run_scan : Scan.run 2 false demo (Scan.init 2) = Ok demo_scan.
Proof. reflexivity. Qed.

Lemma demo_run_lazy : Lazy.run 2 false demo (Lazy.init 2) = Ok demo_lazy.
Proof. reflexivity. Qed.

(** [main], after its first loop: fourteen values, eight of them in
    sub-queue 0, in both variants. *)
Lemma main_enqueued :
  (s ← Scan.run 2 false main_data (Scan.init 2);
   Ok (Scan.size s, Scan.sizes 2 false s, Scan.front 2 false s)) =
    Ok (14, [Ok 8; Ok 6], Ok "c"%char) ∧
  (s ← Lazy.run 2 false main_data (Lazy.init 2);
   Ok (Lazy.size s, Lazy.sizes 2 false s, Lazy.front false s)) =
    Ok (14, [Ok 8; Ok 6], Ok "c"%char).
Proof. split; reflexivity. Qed.

Lemma front_is_oldest_witness :
  Scan.run 2 false demo (Scan.init 2) = Ok demo_scan ∧
  Scan.empty demo_scan = false ∧
  Lazy.run 2 false demo (Lazy.init 2) = Ok demo_lazy ∧
  Lazy.empty demo_lazy = false ∧
  (∃ sn v, Scan.run 2 false (number 0 demo) (Scan.init 2) = Ok sn ∧
           Scan.map_state snd sn = demo_scan ∧
           Scan.present 2 demo_scan = snd <$> Scan.present 2 sn ∧
           Scan.front 2 false demo_scan = Ok v.2 ∧
           Scan.front 2 false sn = Ok v ∧
           v ∈ Scan.present 2 sn ∧
           (∀ w, w ∈ Scan.present 2 sn → (v.1 ≤ w.1)%nat) ∧
           NoDup (fst <$> Scan.present 2 sn)) ∧
  (∃ sn v, Lazy.run 2 false (number 0 demo) (Lazy.init 2) = Ok sn ∧
           Lazy.map_state snd sn = demo_lazy ∧
           Lazy.present 2 demo_lazy = snd <$> Lazy.present 2 sn ∧
           Lazy.front false demo_lazy = Ok v.2 ∧
           Lazy.front false sn = Ok v ∧
           v ∈ Lazy.present 2 sn ∧
           (∀ w, w ∈ Lazy.present 2 sn → (v.1 ≤ w.1)%nat) ∧
           NoDup (fst <$> Lazy.present 2 sn)).
Proof.
  do 4 (split; [reflexivity |]). split.
  - apply (proj1 (front_is_oldest 2 false demo) demo_scan); reflexivity.
  - apply (proj2 (front_is_oldest 2 false demo) demo_lazy); reflexivity.
Defined.

Lemma dequeue_removes_front_witness :
  Scan.run 2 false demo (Scan.init 2) = Ok demo_scan ∧
  Scan.empty demo_scan = false ∧
  Lazy.run 2 false demo (Lazy.init 2) = Ok demo_lazy ∧
  Lazy.empty demo_lazy = false ∧
  (∃ v k s', Scan.front 2 false demo_scan = Ok v ∧
     Scan.dequeue 2 false demo_scan = Ok s' ∧ (k < 2)%nat ∧
     Scan.contents k demo_scan = v :: Scan.contents k s' ∧
     (∀ j, j ≠ k → Scan.contents j s' = Scan.contents j demo_scan) ∧
     Scan.size demo_scan = Scan.size s' + 1 ∧
     ∃ sn n, Scan.run 2 false (number 0 demo) (Scan.init 2) = Ok sn ∧
             Scan.map_state snd sn = demo_scan ∧
             Scan.front 2 false sn = Ok (n, v) ∧
             ∀ w, w ∈ Scan.present 2 sn → (n ≤ w.1)%nat) ∧
  (∃ v k s', Lazy.front false demo_lazy = Ok v ∧
     Lazy.dequeue false demo_lazy = Ok s' ∧ (k < 2)%nat ∧
     Lazy.contents k demo_lazy = v :: Lazy.contents k s' ∧
     (∀ j, j ≠ k → Lazy.contents j s' = Lazy.contents j demo_lazy) ∧
     Lazy.size demo_lazy = Lazy.size s' + 1 ∧
     ∃ sn n, Lazy.run 2 false (number 0 demo) (Lazy.init 2) = Ok sn ∧
             Lazy.map_state snd sn = demo_lazy ∧
             Lazy.front false sn = Ok (n, v) ∧
             ∀ w, w ∈ Lazy.present 2 sn → (n ≤ w.1)%nat).
Proof.
  do 4 (split; [reflexivity |]). split.
  - apply (proj1 (dequeue_removes_front 2 false demo) demo_scan); reflexivity.
  - apply (proj2 (dequeue_removes_front 2 false demo) demo_lazy); reflexivity.
Defined.

Lemma size_is_sum_of_sizes_witness :
  Scan.run 2 false demo (Scan.init 2) = Ok demo_scan ∧
  Lazy.run 2 false demo (Lazy.init 2) = Ok demo_lazy ∧
  sum_results (Scan.sizes 2 false demo_scan) = Ok (Scan.size demo_scan) ∧
  sum_results (Lazy.sizes 2 false demo_lazy) = Ok (Lazy.size demo_lazy).
Proof.
  do 2 (split; [reflexivity |]). split.
  - apply (proj1 (size_is_sum_of_sizes 2 false demo) demo_scan); reflexivity.
  - apply (proj2 (size_is_sum_of_sizes 2 false demo) demo_lazy); reflexivity.
Defined.

Lemma empty_iff_size_zero_witness :
  Scan.run 2 false demo (Scan.init 2) = Ok demo_scan ∧
  Lazy.run 2 false demo (Lazy.init 2) = Ok demo_lazy ∧
  ((Scan.empty demo_scan = true ↔ Scan.size demo_scan = 0) ∧
   ∀ i, (i < 2)%nat →
     ∃ b n, Scan.empty_at 2 false i demo_scan = Ok b ∧
            Scan.size_at 2 false i demo_scan = Ok n ∧ (b = true ↔ n = 0)) ∧
  ((Lazy.empty demo_lazy = true ↔ Lazy.size demo_lazy = 0) ∧
   ∀ i, (i < 2)%nat →
     ∃ b n, Lazy.empty_at 2 false i demo_lazy = Ok b ∧
            Lazy.size_at 2 false i demo_lazy = Ok n ∧ (b = true ↔ n = 0)).
Proof.
  do 2 (split; [reflexivity |]). split.
  - apply (proj1 (empty_iff_size_zero 2 false demo) demo_scan); reflexivity.
  - apply (proj2 (empty_iff_size_zero 2 false demo) demo_lazy); reflexivity.
Defined.

Lemma dequeue_at_frame_witness :
  (1 < 2)%nat ∧
  Scan.run 2 false demo (Scan.init 2) = Ok demo_scan ∧
  Scan.empty_at 2 false 1 demo_scan = Ok false ∧
  Lazy.run 2 false demo (Lazy.init 2) = Ok demo_lazy ∧
  Lazy.empty_at 2 false 1 demo_lazy = Ok false ∧
  (∃ s', Scan.dequeue_at 2 false 1 demo_scan = Ok s' ∧
     ∀ j, (j < 2)%nat → j ≠ 1%nat →
       Scan.size_at 2 false j s' = Scan.size_at 2 false j demo_scan ∧
       Scan.front_at 2 false j s' = Scan.front_at 2 false j demo_scan) ∧
  (∃ s', Lazy.dequeue_at 2 false 1 demo_lazy = Ok s' ∧
     ∀ j, (j < 2)%nat → j ≠ 1%nat →
       Lazy.size_at 2 false j s' = Lazy.size_at 2 false j demo_lazy ∧
       Lazy.front_at 2 false j s' = Lazy.front_at 2 false j demo_lazy).
Proof.
  assert (1 < 2)%nat as Hi by lia.
  split; [exact Hi |]. do 4 (split; [reflexivity |]). split.
  - apply (proj1 (dequeue_at_frame 2 false demo 1 Hi) demo_scan); reflexivity.
  - apply (proj2 (dequeue_at_frame 2 false demo 1 Hi) demo_lazy); reflexivity.
Defined.

Lemma counter_reset_witness :
  Scan.run 2 false drain (Scan.init 2) = Ok (Scan.init 2) ∧
  Scan.size (Scan.init (TYPE:=nat) 2) = 0 ∧
  Scan.count_ (Scan.init (TYPE:=nat) 2) = 0 ∧
  Scan.init (TYPE:=nat) 2 = Scan.init 2 ∧
  ∀ ops', Scan.run 2 false ops' (Scan.init (TYPE:=nat) 2) =
          Scan.run 2 false ops' (Scan.init 2).
Proof.
  do 2 (split; [reflexivity |]).
  apply (counter_reset 2 false drain (Scan.init 2)); reflexivity.
Defined.

Lemma index_queue_invariant_witness :
  Lazy.run 2 false demo (Lazy.init 2) = Ok demo_lazy ∧
  deque_size (Lazy.index_queue_ demo_lazy) =
    Lazy.size demo_lazy + Lazy.deficit demo_lazy ∧
  ∀ f, deque_front (Lazy.index_queue_ demo_lazy) = Ok f →
       array_at (Lazy.remain_ demo_lazy) f = Ok 0 ∧
       Lazy.empty_at 2 false f demo_lazy = Ok false.
Proof.
  split; [reflexivity |].
  apply (index_queue_invariant 2 false demo demo_lazy); reflexivity.
Defined.

Lemma variants_agree_witness :
  Scan.run_contract 2 false demo (Scan.init 2) = Some demo_scan ∧
  ∃ sB, Lazy.run_contract 2 false demo (Lazy.init 2) = Some sB ∧
    Scan.size demo_scan = Lazy.size sB ∧
    Scan.empty demo_scan = Lazy.empty sB ∧
    Scan.front 2 false demo_scan = Lazy.front false sB ∧
    (∀ i, Scan.size_at 2 false i demo_scan = Lazy.size_at 2 false i sB ∧
          Scan.empty_at 2 false i demo_scan = Lazy.empty_at 2 false i sB ∧
          Scan.front_at 2 false i demo_scan = Lazy.front_at 2 false i sB ∧
          Scan.contents i demo_scan = Lazy.contents i sB) ∧
    (∀ i data,
       Scan.within_contract 2 false (Enqueue i data) demo_scan = true →
       ∃ sA' sB', Scan.enqueue 2 false i data demo_scan = Ok (true, sA') ∧
                  Lazy.enqueue 2 false i data sB = Ok sB').
Proof.
  split; [reflexivity |].
  apply (variants_agree 2 false demo demo_scan); reflexivity.
Defined.

Lemma contract_violations_witness :
  Scan.empty (Scan.init (TYPE:=nat) 2) = true ∧
  Lazy.empty (Lazy.init (TYPE:=nat) 2) = true ∧
  (2 ≤ 5)%nat ∧
  Scan.empty_at 2 false 0 (Scan.init (TYPE:=nat) 2) = Ok true ∧
  Lazy.empty_at 2 false 0 (Lazy.init (TYPE:=nat) 2) = Ok true ∧
  (Scan.front 2 false (Scan.init (TYPE:=nat) 2) = AssertFail ∧
   Scan.dequeue 2 false (Scan.init (TYPE:=nat) 2) = Ok (Scan.init 2)) ∧
  (Lazy.front false (Lazy.init (TYPE:=nat) 2) = AssertFail ∧
   Lazy.dequeue false (Lazy.init (TYPE:=nat) 2) = AssertFail) ∧
  (Scan.front_at 2 false 5 (Scan.init (TYPE:=nat) 2) = AssertFail ∧
   Scan.dequeue_at 2 false 5 (Scan.init (TYPE:=nat) 2) = AssertFail ∧
   Lazy.front_at 2 false 5 (Lazy.init (TYPE:=nat) 2) = AssertFail ∧
   Lazy.dequeue_at 2 false 5 (Lazy.init (TYPE:=nat) 2) = AssertFail) ∧
  (Scan.front_at 2 false 0 (Scan.init (TYPE:=nat) 2) = AssertFail ∧
   Scan.dequeue_at 2 false 0 (Scan.init (TYPE:=nat) 2) = Ok (Scan.init 2)) ∧
  (Lazy.front_at 2 false 0 (Lazy.init (TYPE:=nat) 2) = AssertFail ∧
   Lazy.dequeue_at 2 false 0 (Lazy.init (TYPE:=nat) 2) = AssertFail).
Proof.
  assert (2 ≤ 5)%nat as Hi by lia.
  pose proof (contract_violations 2 (Scan.init (TYPE:=nat) 2) (Lazy.init 2))
    as (HA & HB & Hinv & HAi & HBi).
  split; [reflexivity |]. split; [reflexivity |]. split; [exact Hi |].
  split; [reflexivity |]. split; [reflexivity |].
  split; [apply HA; reflexivity |]. split; [apply HB; reflexivity |].
  split; [apply (Hinv 5%nat Hi) |].
  split; [apply (HAi 0%nat); reflexivity | apply (HBi 0%nat); reflexivity].
Defined.

Lemma counter_exhausted_witness :
  Scan.run 2 false demo (Scan.init 2) = Ok demo_scan ∧
  (Scan.count_ demo_scan = ULONG_MAX →
     ∀ i data, Scan.enqueue 2 false i data demo_scan = AssertFail) ∧
  (∀ i data s', Scan.enqueue 2 false i data demo_scan = Ok (false, s') →
     s' = demo_scan) ∧
  (∀ i data s', Scan.enqueue 2 false i data demo_scan = Ok (true, s') →
     Scan.count_ demo_scan < ULONG_MAX ∧
     Scan.count_ s' = Scan.count_ demo_scan + 1) ∧
  Scan.count_ demo_scan ≤ ULONG_MAX ∧
  NoDup (Scan.ids demo_scan).
Proof.
  split; [reflexivity |].
  apply (counter_exhausted 2 false demo demo_scan); reflexivity.
Defined.

(** * Where the code departs from its specification *)

(** C4 does not hold as the specification words it.  With assertions
    enabled, [dequeue()] of an empty
    structure and [dequeue(i)] of an empty sub-queue return in
    [multi_queue.hpp] and leave the structure as it was. *)
Lemma dequeue_of_empty_returns :
  Scan.empty (Scan.init (TYPE:=nat) 2) = true ∧
  Scan.dequeue 2 false (Scan.init (TYPE:=nat) 2) = Ok (Scan.init 2) ∧
  Scan.empty_at 2 false 0 (Scan.init (TYPE:=nat) 2) = Ok true ∧
  Scan.dequeue_at 2 false 0 (Scan.init (TYPE:=nat) 2) = Ok (Scan.init 2).
Proof. by repeat split. Qed.

Lemma churned_exhaust_count : Scan.count_ (churned exhaust) = ULONG_MAX.
Proof.
  unfold churned, exhaust. cbn [Scan.count_]. rewrite N2Nat.id. reflexivity.
Qed.

(** C8 does not hold as the specification words it.  With assertions
    enabled, a structure of one
    sub-queue reaches a state whose counter is [ULONG_MAX], and [enqueue]
    does not return [false] there: it fails an assertion. *)
Lemma exhausted_enqueue_aborts :
  Scan.run 1 false (churn exhaust) (Scan.init 1) = Ok (churned exhaust) ∧
  Scan.count_ (churned exhaust) = ULONG_MAX ∧
  Scan.enqueue 1 false 0 tt (churned exhaust) = AssertFail ∧
  Scan.enqueue 1 false 0 tt (churned exhaust) ≠ Ok (false, churned exhaust).
Proof.
  pose proof churned_exhaust_count as Hc.
  pose proof (scan_enqueue_exhausted 1 false 0 tt _ Hc) as He.
  split_and!.
  - apply churn_run. unfold exhaust. rewrite N2Nat.id. reflexivity.
  - exact Hc.
  - exact He.
  - rewrite He. discriminate.
Qed.

(** Compiled with [NDEBUG], [enqueue] returns [false] there and changes
    nothing. *)
Lemma exhausted_enqueue_returns_false :
  Scan.run 1 true (churn exhaust) (Scan.init 1) = Ok (churned exhaust) ∧
  Scan.enqueue 1 true 0 tt (churned exhaust) = Ok (false, churned exhaust).
Proof.
  split.
  - apply churn_run. unfold exhaust. rewrite N2Nat.id. reflexivity.
  - apply (scan_enqueue_exhausted 1 true 0 tt), churned_exhaust_count.
Qed.


(** * Further properties of the code *)

(** ** [find_oldest_front] on any structure *)
Section further_scan.
Context {TYPE : Type}.
Variable SIZE : nat.
Variable ndebug : bool.
Implicit Types (s : @Scan.state TYPE) (tg : list (nat * Scan.Unit TYPE)).
Implicit Types (qs : list (list (Scan.Unit TYPE))).

(** The loop after the sub-queues below [n], with what decides between
    fronts: a later sub-queue replaces [k] only when its front ID is
    strictly less. *)
Lemma scan_loop_first qs id0 n :
  (n ≤ SIZE)%nat →
  ∃ k id, foldl (Scan.scan SIZE qs) (SIZE, id0) (seq 0 n) = (k, id) ∧
    ((k = SIZE ∧ ∀ i, (i < n)%nat → Scan.front_id qs i = None) ∨
     ((k < n)%nat ∧ Scan.front_id qs k = Some id ∧
      (∀ i t, (i < n)%nat → Scan.front_id qs i = Some t → id ≤ t) ∧
      (∀ i t, (i < k)%nat → Scan.front_id qs i = Some t → id < t))).
Proof.
  induction n as [|n IH]; intros Hn.
  - exists SIZE, id0. split; [done |]. left. split; [done | lia].
  - destruct IH as (k & id & Hfold & Hk); [lia |].
    rewrite seq_S, foldl_app, Hfold. cbn [foldl Nat.add]. rewrite scan_front_id.
    destruct (Scan.front_id qs n) as [t|] eqn:Hfront.
    + destruct Hk as [[-> Hnone] | (Hlt & Hfk & Hmin & Hfirst)].
      * rewrite Nat.ltb_irrefl. simpl. exists n, t. split; [done |]. right.
        split; [lia |]. split; [done |]. split.
        -- intros i t' Hi Hi'.
           destruct (decide (i = n)) as [-> | Hne]; [by simplify_eq |].
           rewrite Hnone in Hi' by lia. done.
        -- intros i t' Hi Hi'. rewrite Hnone in Hi' by lia. done.
      * assert ((k <? SIZE)%nat = true) as -> by (apply Nat.ltb_lt; lia).
        simpl. destruct (N.leb_spec id t) as [Hle | Hgt].
        -- exists k, id. split; [done |]. right. split; [lia |].
           split; [done |]. split; [| done]. intros i t' Hi Hi'.
           destruct (decide (i = n)) as [-> | Hne]; [by simplify_eq |].
           apply (Hmin i); [lia | done].
        -- exists n, t. split; [done |]. right. split; [lia |].
           split; [done |]. split.
           ++ intros i t' Hi Hi'.
              destruct (decide (i = n)) as [-> | Hne]; [by simplify_eq |].
              assert (id ≤ t') by (apply (Hmin i); [lia | done]). lia.
           ++ intros i t' Hi Hi'.
              assert (id ≤ t') by (apply (Hmin i); [lia | done]). lia.
    + exists k, id. split; [done |].
      destruct Hk as [[-> Hnone] | (Hlt & Hfk & Hmin & Hfirst)].
      * left. split; [done |]. intros i Hi.
        destruct (decide (i = n)) as [-> | Hne]; [done | apply Hnone; lia].
      * right. split; [lia |]. split; [done |]. split; [| done].
        intros i t' Hi Hi'.
        destruct (decide (i = n)) as [-> | Hne]; [congruence |].
        apply (Hmin i); [lia | done].
Qed.

(** X1.  [find_oldest_front] on any structure, whatever its local [id]
    holds before the loop: the result is at most [SIZE]; it is [SIZE]
    exactly when every sub-queue is empty; otherwise it is the index of a
    sub-queue that is not empty and whose front ID is the least of all front
    IDs, and no sub-queue of lower index has a front ID that small. *)
Theorem find_oldest_front_least id0 s :
  let k := Scan.find_oldest_front_from SIZE id0 s in
  (k ≤ SIZE)%nat ∧
  (k = SIZE ↔
   ∀ i, (i < SIZE)%nat → Scan.front_id (Scan.queues_ s) i = None) ∧
  ((k < SIZE)%nat →
   ∃ id, Scan.front_id (Scan.queues_ s) k = Some id ∧
     (∀ i t, (i < SIZE)%nat →
        Scan.front_id (Scan.queues_ s) i = Some t → id ≤ t) ∧
     (∀ i t, (i < k)%nat →
        Scan.front_id (Scan.queues_ s) i = Some t → id < t)).
Proof.
  cbv zeta. unfold Scan.find_oldest_front_from.
  destruct (scan_loop_first (Scan.queues_ s) id0 SIZE) as (k & id & -> & Hk);
    [lia |].
  cbn [fst]. destruct Hk as [[-> Hnone] | (Hlt & Hfk & Hmin & Hfirst)].
  - split; [lia |]. split; [done |]. lia.
  - split; [lia |]. split.
    + split; [lia |]. intros Hnone. rewrite Hnone in Hfk by done. done.
    + intros _. by exists id.
Qed.

End further_scan.

(** ** Observations of a global sequence, continued *)

Lemma g_enqueue {X} ndebug i (x : X) (g : list (nat * X)) :
  g_size (g ++ [(i, x)]) = g_size g + 1 ∧
  g_front ndebug (g ++ [(i, x)]) = (if g_empty g then Ok x else g_front ndebug g) ∧
  sub i (g ++ [(i, x)]) = sub i g ++ [x] ∧
  ∀ j, j ≠ i → sub j (g ++ [(i, x)]) = sub j g.
Proof.
  split_and!.
  - unfold g_size. rewrite length_app. simpl. lia.
  - by destruct g.
  - rewrite sub_snoc. by rewrite decide_True.
  - intros j Hj. rewrite sub_snoc. by rewrite decide_False.
Qed.

Lemma g_dequeue_at {X} i (g : list (nat * X)) v l :
  sub i g = v :: l →
  sub i (remove_first i g) = l ∧ g_size g = g_size (remove_first i g) + 1.
Proof.
  intros Hsub. split.
  - rewrite sub_remove_first, decide_True by done. by rewrite Hsub.
  - unfold g_size. rewrite (length_remove_first i v).
    + lia.
    + apply elem_of_sub. rewrite Hsub. by left.
Qed.

Lemma g_all_empty {X} SIZE (g : list (nat * X)) :
  Forall (λ e, e.1 < SIZE)%nat g →
  (g = [] ↔ ∀ i, (i < SIZE)%nat → sub i g = []).
Proof.
  intros Hown. split; [by intros -> |]. intros Hall.
  destruct g as [|[i x] g]; [done |].
  apply Forall_cons in Hown as [Hi _]. simpl in Hi.
  specialize (Hall i Hi). rewrite sub_cons in Hall. cbn [fst] in Hall.
  by rewrite decide_True in Hall.
Qed.

Lemma sub_sorted {X} (seqno : X → nat) n i (g : list (nat * X)) :
  ordered seqno n g → StronglySorted lt (seqno <$> sub i g).
Proof.
  intros [Hsorted _]. unfold sub.
  rewrite <- list_fmap_compose.
  eapply StronglySorted_sublist; [| exact Hsorted].
  apply fmap_sublist, sublist_filter.
Qed.

(** ** Both variants: what the operations do to a sub-queue *)
Section further_properties.
Context {TYPE : Type}.
Variable SIZE : nat.
Variable ndebug : bool.
Implicit Types (ops : list (op TYPE)).

Lemma scan_global_snoc (tg : list (nat * Scan.Unit TYPE)) i c (data : TYPE) :
  Scan.global (tg ++ [(i, (c, data))]) = Scan.global tg ++ [(i, data)].
Proof. unfold Scan.global. by rewrite fmap_app. Qed.

Lemma lazy_global_snoc (m : list (nat * option TYPE)) i (data : TYPE) :
  Lazy.global (m ++ [(i, Some data)]) = Lazy.global m ++ [(i, data)].
Proof. by rewrite lazy_global_app. Qed.

Lemma lazy_enqueue_remain i data (s s' : @Lazy.state TYPE) :
  Lazy.enqueue SIZE ndebug i data s = Ok s' →
  Lazy.remain_ s' = Lazy.remain_ s ∧
  Lazy.index_queue_ s' = Lazy.index_queue_ s ++ [i].
Proof.
  unfold Lazy.enqueue, push_back. intros Henq.
  destruct (assert ndebug (i <? SIZE)%nat); simpl in Henq; try done.
  destruct (deque_size (Lazy.index_queue_ s) <? max_size); try done.
  destruct (array_at (Lazy.data_queue_ s) i) as [q| | |]; simpl in Henq; try done.
  destruct (deque_size q <? max_size); try done.
  by injection Henq as <-.
Qed.

(** X2.  In a reachable state of either variant, [enqueue(i, data)] with a
    valid index, the counter of [multi_queue.hpp] not exhausted (the index
    queue not at its maximum size in the other variant), returns ([true] in
    [multi_queue.hpp]); [data] is then the last value of sub-queue [i],
    behind what it held; every other sub-queue holds what it held;
    [size()] is one more; [front()] is what it was, or [data] when the
    structure was empty; and the index-queue variant has its deficit
    counters as they were and [i] at the back of its index queue. *)
Theorem enqueue_appends ops i data :
  (i < SIZE)%nat →
  (∀ s, Scan.run SIZE ndebug ops (Scan.init SIZE) = Ok s →
        Scan.count_ s < ULONG_MAX →
        ∃ s', Scan.enqueue SIZE ndebug i data s = Ok (true, s') ∧
          Scan.contents i s' = Scan.contents i s ++ [data] ∧
          (∀ j, j ≠ i → Scan.contents j s' = Scan.contents j s) ∧
          Scan.size s' = Scan.size s + 1 ∧
          Scan.front SIZE ndebug s' =
            (if Scan.empty s then Ok data else Scan.front SIZE ndebug s)) ∧
  (∀ s, Lazy.run SIZE ndebug ops (Lazy.init SIZE) = Ok s →
        deque_size (Lazy.index_queue_ s) < max_size →
        ∃ s', Lazy.enqueue SIZE ndebug i data s = Ok s' ∧
          Lazy.contents i s' = Lazy.contents i s ++ [data] ∧
          (∀ j, j ≠ i → Lazy.contents j s' = Lazy.contents j s) ∧
          Lazy.size s' = Lazy.size s + 1 ∧
          Lazy.front ndebug s' =
            (if Lazy.empty s then Ok data else Lazy.front ndebug s) ∧
          Lazy.remain_ s' = Lazy.remain_ s ∧
          Lazy.index_queue_ s' = Lazy.index_queue_ s ++ [i]).
Proof.
  intros Hi. split; intros s Hrun Hroom.
  - destruct (scan_reachable_rep _ _ _ _ Hrun) as [tg Hrep].
    destruct (scan_rep_enqueue SIZE ndebug s tg i data Hrep Hi Hroom)
      as (s' & Henq & Hrep').
    destruct (g_enqueue ndebug i data (Scan.global tg)) as (Hsz & Hfr & Hsi & Hsj).
    exists s'. split; [done |].
    rewrite !(scan_contents _ _ _ _ Hrep'), !(scan_contents _ _ _ _ Hrep).
    rewrite (scan_size _ _ _ Hrep'), (scan_size _ _ _ Hrep).
    rewrite (scan_front _ _ _ _ Hrep'), (scan_front _ _ _ _ Hrep).
    rewrite (scan_empty _ _ _ Hrep), scan_global_snoc.
    split_and!; try done.
    intros j Hj.
    rewrite (scan_contents _ _ _ _ Hrep'), (scan_contents _ _ _ _ Hrep).
    rewrite scan_global_snoc. by apply Hsj.
  - destruct (lazy_reachable_rep _ _ _ _ Hrun) as [m Hrep].
    assert (N.of_nat (length m) < max_size) as Hm.
    { unfold deque_size in Hroom.
      by rewrite (Lazy.rep_index _ _ _ Hrep), length_fmap in Hroom. }
    destruct (lazy_rep_enqueue SIZE ndebug s m i data Hrep Hi Hm)
      as (s' & Henq & Hrep').
    destruct (g_enqueue ndebug i data (Lazy.global m)) as (Hsz & Hfr & Hsi & Hsj).
    destruct (lazy_enqueue_remain _ _ _ _ Henq) as [Hrem Hiq].
    exists s'. split; [done |].
    rewrite !(lazy_contents _ _ _ _ Hrep'), !(lazy_contents _ _ _ _ Hrep).
    rewrite (lazy_size _ _ _ Hrep'), (lazy_size _ _ _ Hrep).
    rewrite (lazy_front _ _ _ _ Hrep'), (lazy_front _ _ _ _ Hrep).
    rewrite (lazy_empty _ _ _ Hrep), lazy_global_snoc.
    split_and!; try done.
    intros j Hj.
    rewrite (lazy_contents _ _ _ _ Hrep'), (lazy_contents _ _ _ _ Hrep).
    rewrite lazy_global_snoc. by apply Hsj.
Qed.

(** X3.  In a reachable state of either variant in which sub-queue [i] is
    not empty, [front(i)] returns the value at the front of sub-queue [i],
    [dequeue(i)] returns and takes exactly that value off, leaving the rest
    of sub-queue [i] in its order, [size()] is one less, and [size(i)] was
    the number of values of sub-queue [i]. *)
Theorem dequeue_at_takes_front_at ops i :
  (i < SIZE)%nat →
  (∀ s, Scan.run SIZE ndebug ops (Scan.init SIZE) = Ok s →
        Scan.empty_at SIZE ndebug i s = Ok false →
        ∃ v s', Scan.front_at SIZE ndebug i s = Ok v ∧
          Scan.dequeue_at SIZE ndebug i s = Ok s' ∧
          Scan.contents i s = v :: Scan.contents i s' ∧
          Scan.size s = Scan.size s' + 1 ∧
          Scan.size_at SIZE ndebug i s =
            Ok (N.of_nat (length (Scan.contents i s)))) ∧
  (∀ s, Lazy.run SIZE ndebug ops (Lazy.init SIZE) = Ok s →
        Lazy.empty_at SIZE ndebug i s = Ok false →
        ∃ v s', Lazy.front_at SIZE ndebug i s = Ok v ∧
          Lazy.dequeue_at SIZE ndebug i s = Ok s' ∧
          Lazy.contents i s = v :: Lazy.contents i s' ∧
          Lazy.size s = Lazy.size s' + 1 ∧
          Lazy.size_at SIZE ndebug i s =
            Ok (N.of_nat (length (Lazy.contents i s)))).
Proof.
  intros Hi. split; intros s Hrun Hne.
  - destruct (scan_reachable_rep _ _ _ _ Hrun) as [tg Hrep].
    rewrite (scan_empty_at _ _ _ _ _ Hrep) in Hne. unfold g_empty_at in Hne.
    rewrite (proj2 (Nat.ltb_lt _ _) Hi) in Hne.
    destruct (sub i (Scan.global tg)) as [|v l] eqn:Hsub; [done |].
    destruct (scan_dequeue_at_ok SIZE ndebug s tg i Hrep Hi) as (s' & Hs' & Hrep').
    { intros Hnil. by rewrite scan_global_sub, Hnil in Hsub. }
    destruct (g_dequeue_at i _ _ _ Hsub) as [Hl Hsz].
    pose proof (scan_global_track SIZE (DequeueAt i) s tg) as Hg. simpl in Hg.
    exists v, s'.
    rewrite (scan_front_at _ _ _ _ _ Hrep), (scan_size_at _ _ _ _ _ Hrep).
    rewrite (scan_contents _ _ _ _ Hrep'), (scan_contents _ _ _ _ Hrep).
    rewrite (scan_size _ _ _ Hrep'), (scan_size _ _ _ Hrep), Hg, Hl.
    unfold g_front_at, g_size_at.
    rewrite (proj2 (Nat.ltb_lt _ _) Hi), Hsub. done.
  - destruct (lazy_reachable_rep _ _ _ _ Hrun) as [m Hrep].
    rewrite (lazy_empty_at _ _ _ _ _ Hrep) in Hne. unfold g_empty_at in Hne.
    rewrite (proj2 (Nat.ltb_lt _ _) Hi) in Hne.
    destruct (sub i (Lazy.global m)) as [|v l] eqn:Hsub; [done |].
    destruct (lazy_dequeue_at_ok SIZE ndebug s m i Hrep Hi) as (s' & Hs' & Hrep').
    { by rewrite Hsub. }
    destruct (g_dequeue_at i _ _ _ Hsub) as [Hl Hsz].
    pose proof (lazy_global_track (DequeueAt i) m (Lazy.rep_head _ _ _ Hrep)) as Hg.
    cbn [gstep] in Hg.
    exists v, s'.
    rewrite (lazy_front_at _ _ _ _ _ Hrep), (lazy_size_at _ _ _ _ _ Hrep).
    rewrite (lazy_contents _ _ _ _ Hrep'), (lazy_contents _ _ _ _ Hrep).
    rewrite (lazy_size _ _ _ Hrep'), (lazy_size _ _ _ Hrep), Hg, Hl.
    unfold g_front_at, g_size_at.
    rewrite (proj2 (Nat.ltb_lt _ _) Hi), Hsub. done.
Qed.

End further_properties.

(** ** [adjust_deque] on its own *)

(** X4.  [adjust_deque] on an index queue whose entries are valid indices
    of [remain_]: it returns, takes a prefix [gone] off the index queue and
    keeps the rest; for every index, the deficit counter goes down by the
    number of entries of [gone] that name it, without wrapping around; the
    entry then at the front, if there is one, has a deficit counter of
    zero; and a second call changes nothing. *)
Theorem adjust_deque_prefix (iq : list nat) : ∀ rem : list N,
  Forall (λ i, i < length rem)%nat iq →
  Forall (λ r, r < size_t_modulus) rem →
  ∃ gone iq' rem',
    Lazy.adjust_deque iq rem = Ok (iq', rem') ∧ iq = gone ++ iq' ∧
    length rem' = length rem ∧
    (∀ i r, rem !! i = Some r →
       ∃ r', rem' !! i = Some r' ∧
             r = r' + N.of_nat (length (filter (λ j, j = i) gone))) ∧
    (∀ f, head iq' = Some f → rem' !! f = Some 0) ∧
    Lazy.adjust_deque iq' rem' = Ok (iq', rem').
Proof.
  induction iq as [|f iq IH]; intros rem Hiq Hrem.
  - exists [], [], rem. split_and!; try done.
    intros i r Hr. exists r. split; [done |]. simpl. lia.
  - apply Forall_cons in Hiq as [Hf Hiq].
    destruct (lookup_lt_is_Some_2 rem f Hf) as [r Hr].
    cbn [Lazy.adjust_deque]. rewrite (array_at_lookup _ _ _ Hr). simpl.
    destruct (N.eqb_spec r 0) as [-> | Hr0].
    + exists [], (f :: iq), rem. split_and!; try done.
      * intros i r' Hr'. exists r'. split; [done |]. simpl. lia.
      * intros f' Hf'. simpl in Hf'. by simplify_eq.
      * cbn [Lazy.adjust_deque]. by rewrite (array_at_lookup _ _ _ Hr).
    + pose proof (proj1 (Forall_lookup _ _) Hrem f r Hr) as Hlt.
      simpl in Hlt.
      assert (decr r = r - 1) as Hdecr by (apply decr_pos; lia).
      destruct (IH (<[f:=decr r]> rem)) as (gone & iq' & rem' & Hadj & -> & Hlen & Hcnt & Hhead & Hidem).
      * by rewrite length_insert.
      * apply Forall_insert; [done |]. rewrite Hdecr. lia.
      * exists (f :: gone), iq', rem'. rewrite length_insert in Hlen.
        split_and!; try done.
        intros i r0 Hr0'. rewrite filter_cons.
        destruct (decide (f = i)) as [-> | Hne].
        -- assert (r0 = r) as -> by congruence.
           destruct (Hcnt i (decr r)) as (r' & Hr' & Heq).
           { by rewrite list_lookup_insert_eq. }
           exists r'. split; [done |]. cbn [length]. lia.
        -- destruct (Hcnt i r0) as (r' & Hr' & Heq).
           { by rewrite list_lookup_insert_ne. }
           exists r'. split; [done |]. lia.
Qed.

(** An index of the index queue beyond [remain_] is a subscript out of
    range. *)
Lemma adjust_deque_out_of_range (f : nat) (iq : list nat) (rem : list N) :
  (length rem ≤ f)%nat → Lazy.adjust_deque (f :: iq) rem = Undefined.
Proof.
  intros Hf. cbn [Lazy.adjust_deque]. by rewrite array_at_ge.
Qed.

(** ** Invariants of the two representations *)
Section further_invariants.
Context {TYPE : Type}.
Variable SIZE : nat.
Variable ndebug : bool.
Implicit Types (ops : list (op TYPE)).

Lemma scan_rep_nil_init (s : @Scan.state TYPE) :
  Scan.rep SIZE s [] → s = Scan.init SIZE.
Proof.
  intros Hrep.
  pose proof (scan_queues _ _ _ Hrep) as Hq.
  pose proof (Scan.rep_reset _ _ _ Hrep eq_refl) as Hc.
  pose proof (Scan.rep_length _ _ _ Hrep) as Hl.
  destruct s as [qs c l]. simpl in *. subst. unfold Scan.init. f_equal.
  clear. induction SIZE as [|n IH]; [done |].
  rewrite seq_S, fmap_app, IH. simpl.
  by rewrite <- replicate_cons_app.
Qed.

Lemma lazy_rep_nil_init (s : @Lazy.state TYPE) :
  Lazy.rep SIZE s [] → s = Lazy.init SIZE.
Proof.
  intros Hrep.
  pose proof (Lazy.rep_index _ _ _ Hrep) as Hiq.
  destruct (Lazy.rep_size _ _ _ Hrep) as [Hd Hr].
  pose proof (Lazy.rep_length _ _ _ Hrep) as Hl.
  pose proof (Lazy.rep_queue _ _ _ Hrep) as Hc.
  destruct s as [iq dq rem len]. simpl in *. rewrite Hiq, Hl.
  unfold Lazy.init. f_equal.
  - apply list_eq. intros i. destruct (decide (i < SIZE)%nat) as [Hi | Hi].
    + destruct (Hc i Hi) as (r & q & Hr' & Hq & Hsub).
      rewrite Hq, lookup_replicate_2 by done. f_equal.
      symmetry in Hsub. apply app_eq_nil in Hsub as [_ Hq0].
      by apply fmap_nil_inv in Hq0.
    + rewrite !lookup_ge_None_2; [done | rewrite length_replicate; lia | lia].
  - apply list_eq. intros i. destruct (decide (i < SIZE)%nat) as [Hi | Hi].
    + destruct (Hc i Hi) as (r & q & Hr' & Hq & Hsub).
      rewrite Hr', lookup_replicate_2 by done. f_equal.
      symmetry in Hsub. apply app_eq_nil in Hsub as [Hr0 _].
      destruct (N.to_nat r) eqn:Hnat; [lia | done].
    + rewrite !lookup_ge_None_2; [done | rewrite length_replicate; lia | lia].
Qed.

Lemma length_sub_index (i : nat) (m : list (nat * option TYPE)) :
  length (sub i m) = length (filter (λ j, j = i) m.*1).
Proof.
  induction m as [|[j x] m IH]; [done |].
  rewrite sub_cons, fmap_cons, filter_cons. cbn [fst snd].
  destruct (decide (j = i)); simpl; by rewrite IH.
Qed.

(** X5.  In the index-queue variant, a reachable state that is empty is the
    state of a freshly constructed structure: the index queue holds no
    stale entry and every deficit counter is back at zero, so whatever is
    done next goes as it does on a fresh structure. *)
Theorem lazy_empty_is_init ops s :
  Lazy.run SIZE ndebug ops (Lazy.init SIZE) = Ok s → Lazy.empty s = true →
  s = Lazy.init SIZE ∧
  ∀ ops', Lazy.run SIZE ndebug ops' s = Lazy.run SIZE ndebug ops' (Lazy.init SIZE).
Proof.
  intros Hrun Hempty. destruct (lazy_reachable_rep _ _ _ _ Hrun) as [m Hrep].
  assert (m = []) as ->.
  { unfold Lazy.empty in Hempty. rewrite (Lazy.rep_index _ _ _ Hrep) in Hempty.
    by destruct m. }
  by rewrite (lazy_rep_nil_init _ Hrep).
Qed.

(** X6.  In every reachable state of the index-queue variant, every entry
    of the index queue is a valid index, and for every valid [i] the number
    of entries that name [i] is [size(i)] plus the deficit counter
    [remain_[i]]. *)
Theorem index_queue_counts ops s :
  Lazy.run SIZE ndebug ops (Lazy.init SIZE) = Ok s →
  Forall (λ i, i < SIZE)%nat (Lazy.index_queue_ s) ∧
  ∀ i, (i < SIZE)%nat →
    ∃ n r, Lazy.size_at SIZE ndebug i s = Ok n ∧
           array_at (Lazy.remain_ s) i = Ok r ∧
           N.of_nat (length (filter (λ j, j = i) (Lazy.index_queue_ s))) = n + r.
Proof.
  intros Hrun. destruct (lazy_reachable_rep _ _ _ _ Hrun) as [m Hrep].
  rewrite (Lazy.rep_index _ _ _ Hrep). split.
  - apply Forall_fmap. exact (Lazy.rep_owner _ _ _ Hrep).
  - intros i Hi.
    destruct (Lazy.rep_queue _ _ _ Hrep i Hi) as (r & q & Hr & Hq & Hsub).
    exists (deque_size q), r. split_and!.
    + unfold Lazy.size_at.
      by rewrite (proj2 (Nat.ltb_lt _ _) Hi), assert_true, (array_at_lookup _ _ _ Hq).
    + by apply array_at_lookup.
    + rewrite <- length_sub_index, Hsub.
      rewrite length_app, length_replicate, length_fmap. unfold deque_size. lia.
Qed.

(** X7.  In every reachable state of [multi_queue.hpp], the IDs of every
    sub-queue increase strictly from its front to its back and are below
    the counter; the length is at most the counter; and the counter is
    zero exactly when the structure is empty. *)
Theorem scan_ids_increase ops s :
  Scan.run SIZE ndebug ops (Scan.init SIZE) = Ok s →
  (∀ i q, Scan.queues_ s !! i = Some q →
     StronglySorted N.lt q.*1 ∧ Forall (λ u, u.1 < Scan.count_ s) q) ∧
  Scan.length_ s ≤ Scan.count_ s ∧
  (Scan.count_ s = 0 ↔ Scan.length_ s = 0).
Proof.
  intros Hrun. destruct (scan_reachable_rep _ _ _ _ Hrun) as [tg Hrep].
  pose proof (Scan.rep_count _ _ _ Hrep) as [Hle _].
  rewrite (Scan.rep_length _ _ _ Hrep). split_and!.
  - intros i q Hq.
    assert (i < SIZE)%nat as Hi.
    { rewrite <- (Scan.rep_size _ _ _ Hrep). by eapply lookup_lt_Some. }
    rewrite (Scan.rep_queue _ _ _ Hrep i Hi) in Hq. injection Hq as <-.
    unfold sub. split.
    + rewrite <- list_fmap_compose.
      eapply StronglySorted_sublist; [| exact (Scan.rep_sorted _ _ _ Hrep)].
      apply fmap_sublist, sublist_filter.
    + apply Forall_fmap.
      eapply Forall_sublist; [apply sublist_filter |].
      exact (Scan.rep_below _ _ _ Hrep).
  - done.
  - split.
    + intros Hc. lia.
    + intros Hl. apply (Scan.rep_reset _ _ _ Hrep). destruct tg; [done |].
      simpl in Hl. lia.
Qed.

(** X8.  In every reachable state of either variant that is not empty,
    [front()] and [dequeue()] are [front(k)] and [dequeue(k)] for one valid
    index [k]: the one [find_oldest_front] returns in [multi_queue.hpp],
    the entry at the front of the index queue in the other variant. *)
Theorem dequeue_is_dequeue_at ops :
  (∀ s, Scan.run SIZE ndebug ops (Scan.init SIZE) = Ok s →
        Scan.empty s = false →
        let k := Scan.find_oldest_front SIZE s in
        (k < SIZE)%nat ∧
        Scan.front SIZE ndebug s = Scan.front_at SIZE ndebug k s ∧
        Scan.dequeue SIZE ndebug s = Scan.dequeue_at SIZE ndebug k s) ∧
  (∀ s, Lazy.run SIZE ndebug ops (Lazy.init SIZE) = Ok s →
        Lazy.empty s = false →
        ∃ k, deque_front (Lazy.index_queue_ s) = Ok k ∧ (k < SIZE)%nat ∧
             Lazy.front ndebug s = Lazy.front_at SIZE ndebug k s ∧
             Lazy.dequeue ndebug s = Lazy.dequeue_at SIZE ndebug k s).
Proof.
  split; intros s Hrun Hne.
  - destruct (scan_reachable_rep _ _ _ _ Hrun) as [tg Hrep]. cbv zeta.
    rewrite (scan_empty _ _ _ Hrep) in Hne.
    destruct tg as [|[o u] tg]; [done |].
    rewrite (scan_rep_find_oldest_front _ _ _ _ _ Hrep).
    pose proof (Scan.rep_owner _ _ _ Hrep) as Ho.
    apply Forall_cons in Ho as [Ho _]. simpl in Ho.
    pose proof (Scan.rep_queue _ _ _ Hrep o Ho) as Hq.
    rewrite sub_cons in Hq. cbn [fst snd] in Hq. rewrite decide_True in Hq by done.
    pose proof (Scan.rep_length _ _ _ Hrep) as Hl.
    assert ((0 <? Scan.length_ s) = true) as Hpos.
    { apply N.ltb_lt. rewrite Hl. simpl. lia. }
    split; [done |].
    unfold Scan.front, Scan.front_at, Scan.dequeue, Scan.dequeue_at.
    rewrite (scan_rep_find_oldest_front _ _ _ _ _ Hrep), Hpos.
    rewrite (proj2 (Nat.ltb_lt _ _) Ho), !assert_true.
    rewrite (array_at_lookup _ _ _ Hq).
    split; simpl; [by rewrite assert_true | done].
  - destruct (lazy_reachable_rep _ _ _ _ Hrun) as [m Hrep].
    destruct m as [|[k x] m].
    { unfold Lazy.empty in Hne. by rewrite (Lazy.rep_index _ _ _ Hrep) in Hne. }
    destruct (lazy_rep_pop_head _ _ _ _ _ Hrep) as (v & q & rem' & -> & Hiq & Hq & _).
    pose proof (Lazy.rep_owner _ _ _ Hrep) as Ho.
    apply Forall_cons in Ho as [Ho _]. simpl in Ho.
    exists k. rewrite Hiq. split; [done |]. split; [done |].
    unfold Lazy.front, Lazy.front_at, Lazy.dequeue, Lazy.dequeue_at.
    rewrite Hiq, (proj2 (Nat.ltb_lt _ _) Ho). simpl.
    rewrite !assert_true. simpl. rewrite (array_at_lookup _ _ _ Hq). simpl.
    rewrite !assert_true, Nat.eqb_refl. done.
Qed.

(** X9.  A reachable state of either variant is empty exactly when every
    one of its sub-queues is empty, whatever mix of [dequeue()] and
    [dequeue(i)] emptied them. *)
Theorem empty_iff_all_empty ops :
  (∀ s, Scan.run SIZE ndebug ops (Scan.init SIZE) = Ok s →
        (Scan.empty s = true ↔
         ∀ i, (i < SIZE)%nat → Scan.empty_at SIZE ndebug i s = Ok true)) ∧
  (∀ s, Lazy.run SIZE ndebug ops (Lazy.init SIZE) = Ok s →
        (Lazy.empty s = true ↔
         ∀ i, (i < SIZE)%nat → Lazy.empty_at SIZE ndebug i s = Ok true)).
Proof.
  assert (∀ g : list (nat * TYPE), Forall (λ e, e.1 < SIZE)%nat g →
    (g_empty g = true ↔
     ∀ i, (i < SIZE)%nat → g_empty_at SIZE ndebug i g = Ok true)) as Hg.
  { intros g Hown. unfold g_empty_at.
    assert (g_empty g = true ↔ g = []) as -> by (by destruct g).
    rewrite (g_all_empty SIZE g Hown). split; intros Hall i Hi.
    - by rewrite (proj2 (Nat.ltb_lt _ _) Hi), (Hall i Hi).
    - specialize (Hall i Hi). rewrite (proj2 (Nat.ltb_lt _ _) Hi) in Hall.
      by destruct (sub i g). }
  split; intros s Hrun.
  - destruct (scan_reachable_rep _ _ _ _ Hrun) as [tg Hrep].
    rewrite (scan_empty _ _ _ Hrep), (Hg _ (scan_global_owner _ _ _ Hrep)).
    split; intros Hall i Hi.
    + rewrite (scan_empty_at _ _ _ _ _ Hrep). by apply Hall.
    + rewrite <- (scan_empty_at _ _ _ _ _ Hrep). by apply Hall.
  - destruct (lazy_reachable_rep _ _ _ _ Hrun) as [m Hrep].
    rewrite (lazy_empty _ _ _ Hrep), (Hg _ (lazy_global_owner _ _ _ Hrep)).
    split; intros Hall i Hi.
    + rewrite (lazy_empty_at _ _ _ _ _ Hrep). by apply Hall.
    + rewrite <- (lazy_empty_at _ _ _ _ _ Hrep). by apply Hall.
Qed.

(** X10.  With the values numbered in the order in which they are
    enqueued, every sub-queue of a reachable state of either variant
    holds its values in strictly increasing order of their numbers, front
    first: each sub-queue is a queue of its own. *)
Theorem contents_in_insertion_order (seqno : TYPE → nat) ops :
  stamped seqno 0 ops →
  (∀ s i, Scan.run SIZE ndebug ops (Scan.init SIZE) = Ok s →
          StronglySorted lt (seqno <$> Scan.contents i s)) ∧
  (∀ s i, Lazy.run SIZE ndebug ops (Lazy.init SIZE) = Ok s →
          StronglySorted lt (seqno <$> Lazy.contents i s)).
Proof.
  intros Hst.
  assert (ordered seqno 0 (@nil (nat * TYPE))) as Hnil.
  { split; constructor. }
  split; intros s i Hrun.
  - destruct (scan_run_ordered SIZE ndebug seqno ops 0%nat _ [] s
                (scan_rep_init SIZE) Hnil Hst Hrun) as (tg & n & Hrep & Hord).
    rewrite (scan_contents _ _ _ _ Hrep). by eapply sub_sorted.
  - destruct (lazy_run_ordered SIZE ndebug seqno ops 0%nat _ [] s
                (lazy_rep_init SIZE) Hnil Hst Hrun) as (m & n & Hrep & Hord).
    rewrite (lazy_contents _ _ _ _ Hrep). by eapply sub_sorted.
Qed.

End further_invariants.

(** ** Compiled with [NDEBUG] *)
Section further_ndebug.
Context {TYPE : Type}.
Variable SIZE : nat.
Implicit Types (ops : list (op TYPE)).

(** X11.  With the assertions compiled out, in every reachable state: an
    invalid index is a subscript out of range in [size(i)], [empty(i)],
    [front(i)], [dequeue(i)] and (unless the counter is exhausted, or the
    index queue full) [enqueue(i, data)] of both variants; [front()] of an
    empty structure is undefined in both, in [multi_queue.hpp] because it
    reads [queues_[SIZE]]; [front(i)] of an empty sub-queue is undefined in
    both; [dequeue()] of an empty structure and [dequeue(i)] of an empty
    sub-queue are undefined in the index-queue variant, and return with
    nothing changed in [multi_queue.hpp]. *)
Theorem ndebug_violations ops :
  (∀ s, Scan.run SIZE true ops (Scan.init SIZE) = Ok s →
     (Scan.empty s = true →
        Scan.find_oldest_front SIZE s = SIZE ∧
        Scan.front SIZE true s = Undefined ∧ Scan.dequeue SIZE true s = Ok s) ∧
     (∀ i, (SIZE ≤ i)%nat →
        Scan.size_at SIZE true i s = Undefined ∧
        Scan.empty_at SIZE true i s = Undefined ∧
        Scan.front_at SIZE true i s = Undefined ∧
        Scan.dequeue_at SIZE true i s = Undefined ∧
        ∀ data, Scan.count_ s < ULONG_MAX →
                Scan.enqueue SIZE true i data s = Undefined) ∧
     (∀ i, Scan.empty_at SIZE true i s = Ok true →
        Scan.front_at SIZE true i s = Undefined ∧
        Scan.dequeue_at SIZE true i s = Ok s)) ∧
  (∀ s, Lazy.run SIZE true ops (Lazy.init SIZE) = Ok s →
     (Lazy.empty s = true →
        Lazy.front true s = Undefined ∧ Lazy.dequeue true s = Undefined) ∧
     (∀ i, (SIZE ≤ i)%nat →
        Lazy.size_at SIZE true i s = Undefined ∧
        Lazy.empty_at SIZE true i s = Undefined ∧
        Lazy.front_at SIZE true i s = Undefined ∧
        Lazy.dequeue_at SIZE true i s = Undefined ∧
        ∀ data, deque_size (Lazy.index_queue_ s) < max_size →
                Lazy.enqueue SIZE true i data s = Undefined) ∧
     (∀ i, Lazy.empty_at SIZE true i s = Ok true →
        Lazy.front_at SIZE true i s = Undefined ∧
        Lazy.dequeue_at SIZE true i s = Undefined)).
Proof.
  split; intros s Hrun.
  - destruct (scan_reachable_rep _ _ _ _ Hrun) as [tg Hrep]. split_and!.
    + intros He. pose proof He as He'.
      rewrite (scan_empty _ _ _ Hrep) in He'.
      destruct tg as [|e tg]; [| done].
      rewrite (scan_front _ _ _ _ Hrep).
      rewrite (scan_find_oldest_front_empty _ _ Hrep).
      split_and!; try done.
      unfold Scan.empty in He. apply N.eqb_eq in He.
      unfold Scan.dequeue. by rewrite <- He.
    + intros i Hi.
      assert (array_at (Scan.queues_ s) i = Undefined) as Hq.
      { apply array_at_ge. by rewrite (Scan.rep_size _ _ _ Hrep). }
      unfold Scan.size_at, Scan.empty_at, Scan.front_at, Scan.dequeue_at,
        Scan.enqueue.
      rewrite Hq. split_and!; try done.
      intros data Hc. simpl.
      by rewrite (proj2 (N.leb_gt _ _) Hc).
    + intros i He. unfold Scan.empty_at in He.
      unfold Scan.front_at, Scan.dequeue_at. simpl in *.
      destruct (array_at (Scan.queues_ s) i) as [q| | |]; simpl in *; try done.
      by destruct q.
  - destruct (lazy_reachable_rep _ _ _ _ Hrun) as [m Hrep]. split_and!.
    + intros He. unfold Lazy.empty in He. unfold Lazy.front, Lazy.dequeue.
      by destruct (Lazy.index_queue_ s).
    + intros i Hi.
      assert (array_at (Lazy.data_queue_ s) i = Undefined) as Hq.
      { apply array_at_ge. by rewrite (proj1 (Lazy.rep_size _ _ _ Hrep)). }
      unfold Lazy.size_at, Lazy.empty_at, Lazy.front_at, Lazy.dequeue_at,
        Lazy.enqueue.
      rewrite Hq. split_and!; try done.
      intros data Hc. simpl. unfold push_back.
      by rewrite (proj2 (N.ltb_lt _ _) Hc).
    + intros i He. unfold Lazy.empty_at in He.
      unfold Lazy.front_at, Lazy.dequeue_at. simpl in *.
      destruct (array_at (Lazy.data_queue_ s) i) as [q| | |]; simpl in *; try done.
      by destruct q.
Qed.

End further_ndebug.

(** ** main.cpp: the loops of a caller *)

Lemma filter_ne_remove_first {X} i (g : list (nat * X)) :
  filter (λ e, e.1 ≠ i) (remove_first i g) = filter (λ e, e.1 ≠ i) g.
Proof.
  induction g as [|e g IH]; [done |]. cbn [remove_first].
  rewrite (filter_cons _ e g).
  destruct (decide (e.1 = i)) as [He | He].
  - by rewrite decide_False by (intros Hne; by apply Hne).
  - rewrite decide_True by done. rewrite filter_cons, decide_True by done.
    by rewrite IH.
Qed.

Lemma filter_ne_absent {X} i (g : list (nat * X)) :
  sub i g = [] → filter (λ e, e.1 ≠ i) g = g.
Proof.
  induction g as [|e g IH]; [done |]. rewrite sub_cons, filter_cons.
  destruct (decide (e.1 = i)) as [He | He]; [done |].
  intros Hsub. rewrite decide_True by done. by rewrite IH.
Qed.

Lemma sub_filter_ne {X} i j (g : list (nat * X)) :
  sub j (filter (λ e, e.1 ≠ i) g) = if decide (j = i) then [] else sub j g.
Proof.
  induction g as [|e g IH]; [by destruct (decide (j = i)) |].
  rewrite filter_cons, (sub_cons j e g).
  destruct (decide (e.1 ≠ i)) as [He | He].
  - rewrite sub_cons, IH.
    destruct (decide (e.1 = j)) as [Hj | Hj]; [| done].
    destruct (decide (j = i)) as [Hji | Hji]; [| done].
    by rewrite Hj, Hji in He.
  - rewrite IH. apply dec_stable in He.
    destruct (decide (j = i)) as [Hji | Hji]; [done |].
    destruct (decide (e.1 = j)) as [Hj | Hj]; [| done].
    by rewrite Hj in He.
Qed.

Lemma sub_routed {X} (route : X → nat) i (data : list X) :
  sub i ((λ c, (route c, c)) <$> data) = filter (λ c, route c = i) data.
Proof.
  induction data as [|c data IH]; [done |].
  rewrite fmap_cons, sub_cons, filter_cons. cbn [fst snd].
  destruct (decide (route c = i)); by rewrite IH.
Qed.

(** With two sub-queues, what is left once the first value of sub-queue 1
    and all of sub-queue 0 are gone. *)
Lemma routed_rest {X} (route : X → nat) (data : list X) :
  (∀ c, route c < 2)%nat →
  sub 1 ((λ c, (route c, c)) <$> data) = filter (λ c, route c ≠ 0%nat) data ∧
  (filter (λ e, e.1 ≠ 0%nat)
     (remove_first 1 ((λ c, (route c, c)) <$> data))).*2 =
    tail (filter (λ c, route c ≠ 0%nat) data).
Proof.
  intros Hroute. split.
  - rewrite sub_routed. apply list_filter_iff. intros c.
    specialize (Hroute c). lia.
  - induction data as [|c data IH]; [done |].
    rewrite fmap_cons. cbn [remove_first fst]. rewrite (filter_cons _ c data).
    destruct (decide (route c = 1%nat)) as [Hc | Hc].
    + rewrite decide_True by lia. cbn [tail]. clear IH.
      induction data as [|d data IH]; [done |].
      rewrite fmap_cons, !filter_cons. cbn [fst].
      destruct (decide (route d ≠ 0%nat)); [rewrite fmap_cons; cbn [snd] |];
        by rewrite IH.
    + rewrite decide_False by (specialize (Hroute c); lia).
      rewrite filter_cons. cbn [fst].
      rewrite decide_False by (specialize (Hroute c); lia). exact IH.
Qed.

Section caller_facts.
Context {TYPE Q : Type} (I : interface TYPE Q).
Variable SIZE : nat.
Variable ndebug : bool.
Variable R : Q → list (nat * TYPE) → Prop.
Variable room : Q → N.
Hypothesis HR : refines I SIZE ndebug R room.

Lemma q_run_app ops1 ops2 q :
  q_run I (ops1 ++ ops2) q = (q' ← q_run I ops1 q; q_run I ops2 q').
Proof using Type.
  revert q. induction ops1 as [|o ops1 IH]; intros q; [done |].
  cbn [app q_run]. destruct (q_step I o q); simpl; by rewrite ?IH.
Qed.

(** The first loop of [main] is a run of [enqueue] calls. *)
Lemma fill_q_run route data q :
  fill I route data q = q_run I ((λ c, Enqueue (route c) c) <$> data) q.
Proof using Type.
  revert q. induction data as [|c data IH]; intros q; [done |].
  rewrite fmap_cons. cbn [fill q_run q_step].
  destruct (q_enqueue I (route c) c q); simpl; by rewrite ?IH.
Qed.

Lemma fill_refines route data : ∀ q g,
  R q g → (∀ c, route c < SIZE)%nat → N.of_nat (length data) ≤ room q →
  ∃ q', fill I route data q = Ok q' ∧
        R q' (g ++ ((λ c, (route c, c)) <$> data)) ∧
        room q' = room q - N.of_nat (length data).
Proof.
  induction data as [|c data IH]; intros q g HRq Hroute Hroom.
  - exists q. rewrite app_nil_r. simpl. split_and!; [done | done | lia].
  - cbn [length] in Hroom.
    destruct (rf_enqueue _ _ _ _ _ HR q g (route c) c HRq (Hroute c))
      as (q1 & He & HR1 & Hroom1); [lia |].
    destruct (IH q1 _ HR1 Hroute) as (q' & Hfill & HR' & Hroom'); [lia |].
    exists q'. cbn [fill]. rewrite He. simpl. split; [done |].
    rewrite <- app_assoc in HR'. split; [exact HR' | lia].
Qed.

Lemma report_at_refines i q g v l :
  R q g → (i < SIZE)%nat → sub i g = v :: l →
  ∃ q', report_at I i q = Ok ((N.of_nat (S (length l)), v), q') ∧
        q_dequeue_at I i q = Ok q' ∧ R q' (remove_first i g).
Proof.
  intros HRq Hi Hsub.
  destruct (rf_dequeue_at _ _ _ _ _ HR q g i HRq Hi) as (q' & Hd & HR').
  { by rewrite Hsub. }
  exists q'. unfold report_at.
  rewrite (rf_size_at _ _ _ _ _ HR q g i HRq), (rf_front_at _ _ _ _ _ HR q g i HRq).
  unfold g_size_at, g_front_at.
  rewrite (proj2 (Nat.ltb_lt _ _) Hi), Hsub, Hd. done.
Qed.

Lemma once_at_refines i q g :
  R q g → (i < SIZE)%nat →
  ∃ q', once_at I i q =
          Ok (match sub i g with
              | v :: l => [(N.of_nat (S (length l)), v)]
              | [] => []
              end, q') ∧
        R q' (remove_first i g).
Proof.
  intros HRq Hi. unfold once_at.
  rewrite (rf_empty_at _ _ _ _ _ HR q g i HRq). unfold g_empty_at.
  rewrite (proj2 (Nat.ltb_lt _ _) Hi).
  destruct (sub i g) as [|v l] eqn:Hsub.
  - exists q. split; [done |]. by rewrite remove_first_absent.
  - destruct (report_at_refines i q g v l HRq Hi Hsub) as (q' & Hrep & _ & HR').
    exists q'. simpl. rewrite Hrep. done.
Qed.

(** The loop on sub-queue [i] takes its values in their order, each
    printed with the size of sub-queue [i] before it goes; it is that many
    calls of [dequeue(i)], and the other sub-queues are as they were. *)
Lemma drain_at_refines i : (i < SIZE)%nat → ∀ fuel q g,
  R q g → (length (sub i g) < fuel)%nat →
  ∃ q', drain_at I fuel i q = Some (Ok (countdown (sub i g), q')) ∧
        q_run I (replicate (length (sub i g)) (DequeueAt i)) q = Ok q' ∧
        R q' (filter (λ e, e.1 ≠ i) g).
Proof.
  intros Hi. induction fuel as [|fuel IH]; intros q g HRq Hfuel; [lia |].
  cbn [drain_at]. rewrite (rf_empty_at _ _ _ _ _ HR q g i HRq).
  unfold g_empty_at. rewrite (proj2 (Nat.ltb_lt _ _) Hi).
  destruct (sub i g) as [|v l] eqn:Hsub.
  - exists q. split; [done |]. split; [done |]. by rewrite filter_ne_absent.
  - destruct (report_at_refines i q g v l HRq Hi Hsub) as (q1 & Hrep & Hd & HR1).
    destruct (g_dequeue_at i g v l Hsub) as [Hl _].
    destruct (IH q1 _ HR1) as (q' & Hdrain & Hrun & HR').
    { rewrite Hl. simpl in Hfuel. lia. }
    rewrite Hl in Hdrain, Hrun. rewrite filter_ne_remove_first in HR'.
    exists q'. cbn [or_fail deque_empty]. rewrite Hrep. cbn [or_fail snd fst].
    rewrite Hdrain. split; [done |]. split; [| done].
    cbn [length replicate q_run q_step]. rewrite Hd. done.
Qed.

(** The loop on the whole structure takes all values in the order of the
    global sequence, each printed with [size()] before it goes; it is that
    many calls of [dequeue()], and the structure is empty afterwards. *)
Lemma drain_all_refines : ∀ fuel q g,
  R q g → (length g < fuel)%nat →
  ∃ q', drain_all I fuel q = Some (Ok (countdown g.*2, q')) ∧
        q_run I (replicate (length g) Dequeue) q = Ok q' ∧
        R q' [].
Proof.
  induction fuel as [|fuel IH]; intros q g HRq Hfuel; [lia |].
  cbn [drain_all]. rewrite (rf_empty _ _ _ _ _ HR q g HRq).
  destruct g as [|e g].
  - exists q. done.
  - destruct (rf_dequeue _ _ _ _ _ HR q e g HRq) as (q1 & Hd & HR1).
    destruct (IH q1 g HR1) as (q' & Hdrain & Hrun & HR').
    { simpl in Hfuel. lia. }
    exists q'. cbn [g_empty]. unfold report.
    rewrite (rf_front _ _ _ _ _ HR q _ HRq), (rf_size _ _ _ _ _ HR q _ HRq), Hd.
    cbn [g_front]. simpl. rewrite Hdrain. simpl. split; [| split; [| done]].
    + unfold g_size. by rewrite length_fmap.
    + by rewrite Hd.
Qed.

(** [main] with two sub-queues or more and a route into the first two. *)
Lemma main_on_refines route data fuel :
  (1 < SIZE)%nat → (∀ c, route c < 2)%nat →
  N.of_nat (length data) ≤ ULONG_MAX → (length data < fuel)%nat →
  main_on I route data fuel = Some (Ok (main_lines route data)).
Proof.
  intros HSIZE Hroute Hdata Hfuel. unfold main_on.
  destruct (rf_new _ _ _ _ _ HR) as [HR0 Hroom0].
  destruct (fill_refines route data _ _ HR0) as (q0 & Hfill & HRq0 & _).
  { intros c. specialize (Hroute c). lia. }
  { by rewrite Hroom0. }
  rewrite Hfill. cbn [or_fail app] in *.
  set (g0 := (λ c, (route c, c)) <$> data) in *.
  assert (length g0 = length data) as Hlen by (unfold g0; by rewrite length_fmap).
  destruct (once_at_refines 1 q0 g0 HRq0) as (q1 & Honce & HRq1); [lia |].
  rewrite Honce. cbn [or_fail snd fst].
  pose proof (sublist_length _ _ (remove_first_sublist 1 g0)) as Hlen1.
  destruct (drain_at_refines 0 ltac:(lia) fuel q1 _ HRq1) as (q2 & Hdrain & _ & HRq2).
  { pose proof (length_sub_le 0 (remove_first 1 g0)). lia. }
  rewrite Hdrain. cbn [and_then or_fail snd fst].
  destruct (drain_all_refines fuel q2 _ HRq2) as (q3 & Hall & _ & _).
  { pose proof (length_filter (λ e : nat * TYPE, e.1 ≠ 0%nat) (remove_first 1 g0)).
    lia. }
  rewrite Hall. cbn [and_then or_fail snd fst].
  destruct (routed_rest route data Hroute) as [H1 Hrest]. fold g0 in H1, Hrest.
  rewrite sub_remove_first, decide_False by done.
  unfold main_lines. rewrite H1, Hrest. unfold g0. rewrite sub_routed.
  by destruct (filter (λ c, route c ≠ 0%nat) data).
Qed.

End caller_facts.

(** ** The two headers behind [main] *)
Section caller_variants.
Context {TYPE : Type}.
Variable SIZE : nat.
Variable ndebug : bool.
Implicit Types (ops : list (op TYPE)).

Lemma scan_q_run ops : ∀ s : @Scan.state TYPE,
  q_run (scan_interface SIZE ndebug) ops s = Scan.run SIZE ndebug ops s.
Proof.
  induction ops as [|o ops IH]; intros s; [done |].
  cbn [q_run Scan.run].
  assert (q_step (scan_interface SIZE ndebug) o s = Scan.step SIZE ndebug o s)
    as -> by (by destruct o).
  destruct (Scan.step SIZE ndebug o s); simpl; by rewrite ?IH.
Qed.

Lemma lazy_q_run ops : ∀ s : @Lazy.state TYPE,
  q_run (lazy_interface SIZE ndebug) ops s = Lazy.run SIZE ndebug ops s.
Proof.
  induction ops as [|o ops IH]; intros s; [done |].
  cbn [q_run Lazy.run].
  assert (q_step (lazy_interface SIZE ndebug) o s = Lazy.step SIZE ndebug o s)
    as -> by (by destruct o).
  destruct (Lazy.step SIZE ndebug o s); simpl; by rewrite ?IH.
Qed.

Lemma scan_refines :
  refines (scan_interface (TYPE:=TYPE) SIZE ndebug) SIZE ndebug
    (scan_stands SIZE) (λ s, ULONG_MAX - Scan.count_ s).
Proof.
  split; cbn [scan_interface q_new q_size q_size_at q_empty q_empty_at q_front
                q_front_at q_enqueue q_dequeue q_dequeue_at].
  - split; [| done]. exists []. split; [apply scan_rep_init | done].
  - intros s g (tg & Hrep & <-). by apply (scan_size SIZE).
  - intros s g (tg & Hrep & <-). by apply (scan_empty SIZE).
  - intros s g (tg & Hrep & <-). by apply scan_front.
  - intros s g i (tg & Hrep & <-). by apply scan_size_at.
  - intros s g i (tg & Hrep & <-). by apply scan_empty_at.
  - intros s g i (tg & Hrep & <-). by apply scan_front_at.
  - intros s g i v (tg & Hrep & <-) Hi Hroom.
    destruct (scan_rep_enqueue SIZE ndebug s tg i v Hrep Hi) as (s' & He & Hrep');
      [lia |].
    exists s'. rewrite He. split; [done |].
    destruct (scan_enqueue_count _ _ _ _ _ _ He) as [_ Hc]. split.
    + eexists. split; [exact Hrep' |]. apply scan_global_snoc.
    + lia.
  - intros s e g (tg & Hrep & Hg). destruct tg as [|[o u] tg]; [done |].
    destruct (scan_dequeue_ok SIZE ndebug s o u tg Hrep) as (s' & Hd & Hrep').
    exists s'. split; [done |]. exists tg. split; [done |].
    unfold Scan.global in Hg. rewrite fmap_cons in Hg. by injection Hg.
  - intros s g i (tg & Hrep & <-) Hi Hsub.
    destruct (scan_dequeue_at_ok SIZE ndebug s tg i Hrep Hi) as (s' & Hd & Hrep').
    { intros Hnil. apply Hsub. by rewrite scan_global_sub, Hnil. }
    exists s'. split; [done |]. eexists. split; [exact Hrep' |].
    exact (scan_global_track SIZE (DequeueAt i) s tg).
Qed.

Lemma lazy_refines :
  refines (lazy_interface (TYPE:=TYPE) SIZE ndebug) SIZE ndebug
    (lazy_stands SIZE) (λ s, max_size - deque_size (Lazy.index_queue_ s)).
Proof.
  split; cbn [lazy_interface q_new q_size q_size_at q_empty q_empty_at q_front
                q_front_at q_enqueue q_dequeue q_dequeue_at].
  - split; [| done]. exists []. split; [apply lazy_rep_init | done].
  - intros s g (m & Hrep & <-). by apply (lazy_size SIZE).
  - intros s g (m & Hrep & <-). by apply (lazy_empty SIZE).
  - intros s g (m & Hrep & <-). by apply (lazy_front SIZE).
  - intros s g i (m & Hrep & <-). by apply lazy_size_at.
  - intros s g i (m & Hrep & <-). by apply lazy_empty_at.
  - intros s g i (m & Hrep & <-). by apply lazy_front_at.
  - intros s g i v (m & Hrep & <-) Hi Hroom.
    assert (deque_size (Lazy.index_queue_ s) = N.of_nat (length m)) as Hsz.
    { unfold deque_size. by rewrite (Lazy.rep_index _ _ _ Hrep), length_fmap. }
    destruct (lazy_rep_enqueue SIZE ndebug s m i v Hrep Hi) as (s' & He & Hrep');
      [lia |].
    exists s'. split; [done |].
    destruct (lazy_enqueue_remain _ _ _ _ _ _ He) as [_ Hiq]. split.
    + eexists. split; [exact Hrep' |]. apply lazy_global_snoc.
    + rewrite Hiq. unfold deque_size in *. rewrite length_app. simpl. lia.
  - intros s e g (m & Hrep & Hg). destruct m as [|[i x] m]; [done |].
    destruct (lazy_head_live_inv _ _ _ (Lazy.rep_head _ _ _ Hrep)) as [v ->].
    destruct (lazy_dequeue_ok SIZE ndebug s i _ m Hrep) as (s' & Hd & Hrep').
    exists s'. split; [done |]. eexists. split; [exact Hrep' |].
    rewrite lazy_global_purge. rewrite lazy_global_live in Hg. by injection Hg.
  - intros s g i (m & Hrep & <-) Hi Hsub.
    destruct (lazy_dequeue_at_ok SIZE ndebug s m i Hrep Hi Hsub) as (s' & Hd & Hrep').
    exists s'. split; [done |]. eexists. split; [exact Hrep' |].
    exact (lazy_global_track (DequeueAt i) m (Lazy.rep_head _ _ _ Hrep)).
Qed.

(** X12.  The first loop of [main], on a fresh structure of either header,
    with a route into valid indices and no more characters than the
    counter can count: it ends, it is the run of one [enqueue] for each
    character in the order of the array, sub-queue [i] then holds the
    characters routed to [i] in the order of the array, and [size()] is
    the number of characters. *)
Theorem fill_stores (route : TYPE → nat) (data : list TYPE) :
  (∀ c, route c < SIZE)%nat → N.of_nat (length data) ≤ ULONG_MAX →
  (∃ s, fill (scan_interface SIZE ndebug) route data (Scan.init SIZE) = Ok s ∧
        Scan.run SIZE ndebug ((λ c, Enqueue (route c) c) <$> data)
          (Scan.init SIZE) = Ok s ∧
        (∀ i, Scan.contents i s = filter (λ c, route c = i) data) ∧
        Scan.size s = N.of_nat (length data)) ∧
  (∃ s, fill (lazy_interface SIZE ndebug) route data (Lazy.init SIZE) = Ok s ∧
        Lazy.run SIZE ndebug ((λ c, Enqueue (route c) c) <$> data)
          (Lazy.init SIZE) = Ok s ∧
        (∀ i, Lazy.contents i s = filter (λ c, route c = i) data) ∧
        Lazy.size s = N.of_nat (length data)).
Proof.
  intros Hroute Hdata. split.
  - destruct (rf_new _ _ _ _ _ scan_refines) as [HR0 Hroom0].
    destruct (fill_refines _ _ _ _ _ scan_refines route data _ _ HR0 Hroute)
      as (s & Hfill & (tg & Hrep & Hg) & _).
    { cbn [q_new scan_interface] in *. by rewrite Hroom0. }
    cbn [q_new scan_interface app] in *. exists s. split; [done |].
    rewrite <- scan_q_run, <- fill_q_run. split; [done |].
    rewrite (scan_size _ _ _ Hrep), Hg. split.
    + intros i. by rewrite (scan_contents _ _ _ _ Hrep), Hg, sub_routed.
    + unfold g_size. by rewrite length_fmap.
  - destruct (rf_new _ _ _ _ _ lazy_refines) as [HR0 Hroom0].
    destruct (fill_refines _ _ _ _ _ lazy_refines route data _ _ HR0 Hroute)
      as (s & Hfill & (m & Hrep & Hg) & _).
    { cbn [q_new lazy_interface] in *. by rewrite Hroom0. }
    cbn [q_new lazy_interface app] in *. exists s. split; [done |].
    rewrite <- lazy_q_run, <- fill_q_run. split; [done |].
    rewrite (lazy_size _ _ _ Hrep), Hg. split.
    + intros i. by rewrite (lazy_contents _ _ _ _ Hrep), Hg, sub_routed.
    + unfold g_size. by rewrite length_fmap.
Qed.

(** X13.  The loop [while (!empty(i)) { printf(size(i), front(i));
    dequeue(i); }] on a reachable state of either header, with a valid
    [i]: it ends; it prints the values of sub-queue [i] from front to back,
    each with the number of values still in sub-queue [i]; the state it
    leaves is the one that many calls of [dequeue(i)] lead to; sub-queue
    [i] is then empty and every other sub-queue holds what it held. *)
Theorem drain_at_empties ops i fuel :
  (i < SIZE)%nat →
  (∀ s, Scan.run SIZE ndebug ops (Scan.init SIZE) = Ok s →
        (length (Scan.contents i s) < fuel)%nat →
        ∃ s', drain_at (scan_interface SIZE ndebug) fuel i s =
                Some (Ok (countdown (Scan.contents i s), s')) ∧
              Scan.run SIZE ndebug
                (replicate (length (Scan.contents i s)) (DequeueAt i)) s = Ok s' ∧
              Scan.contents i s' = [] ∧
              ∀ j, j ≠ i → Scan.contents j s' = Scan.contents j s) ∧
  (∀ s, Lazy.run SIZE ndebug ops (Lazy.init SIZE) = Ok s →
        (length (Lazy.contents i s) < fuel)%nat →
        ∃ s', drain_at (lazy_interface SIZE ndebug) fuel i s =
                Some (Ok (countdown (Lazy.contents i s), s')) ∧
              Lazy.run SIZE ndebug
                (replicate (length (Lazy.contents i s)) (DequeueAt i)) s = Ok s' ∧
              Lazy.contents i s' = [] ∧
              ∀ j, j ≠ i → Lazy.contents j s' = Lazy.contents j s).
Proof.
  intros Hi. split; intros s Hrun Hfuel.
  - destruct (scan_reachable_rep _ _ _ _ Hrun) as [tg Hrep].
    rewrite (scan_contents _ _ _ _ Hrep) in *.
    destruct (drain_at_refines _ _ _ _ _ scan_refines i Hi fuel s (Scan.global tg))
      as (s' & Hdrain & Hq & (tg' & Hrep' & Hg')); [by exists tg | done |].
    exists s'. rewrite <- scan_q_run. split; [done |]. split; [done |].
    split; [| intros j Hj];
      rewrite (scan_contents _ _ _ _ Hrep'), Hg', sub_filter_ne.
    + by rewrite decide_True.
    + rewrite decide_False by done. by rewrite (scan_contents _ _ _ _ Hrep).
  - destruct (lazy_reachable_rep _ _ _ _ Hrun) as [m Hrep].
    rewrite (lazy_contents _ _ _ _ Hrep) in *.
    destruct (drain_at_refines _ _ _ _ _ lazy_refines i Hi fuel s (Lazy.global m))
      as (s' & Hdrain & Hq & (m' & Hrep' & Hg')); [by exists m | done |].
    exists s'. rewrite <- lazy_q_run. split; [done |]. split; [done |].
    split; [| intros j Hj];
      rewrite (lazy_contents _ _ _ _ Hrep'), Hg', sub_filter_ne.
    + by rewrite decide_True.
    + rewrite decide_False by done. by rewrite (lazy_contents _ _ _ _ Hrep).
Qed.

(** X14.  The loop [while (!empty()) { printf(size(), front());
    dequeue(); }] on a reachable state of either header, the values
    numbered in the order in which they were enqueued: it ends; it prints
    every value present once, in increasing order of the numbers, each with
    the number of values still present; it is [size()] calls of
    [dequeue()]; and it leaves the state of a fresh structure. *)
Theorem drain_all_in_order (seqno : TYPE → nat) ops fuel :
  stamped seqno 0 ops →
  (∀ s, Scan.run SIZE ndebug ops (Scan.init SIZE) = Ok s →
        (N.to_nat (Scan.size s) < fuel)%nat →
        ∃ vs, drain_all (scan_interface SIZE ndebug) fuel s =
                Some (Ok (countdown vs, Scan.init SIZE)) ∧
              Scan.run SIZE ndebug
                (replicate (N.to_nat (Scan.size s)) Dequeue) s =
                Ok (Scan.init SIZE) ∧
              vs ≡ₚ Scan.present SIZE s ∧
              StronglySorted lt (seqno <$> vs)) ∧
  (∀ s, Lazy.run SIZE ndebug ops (Lazy.init SIZE) = Ok s →
        (N.to_nat (Lazy.size s) < fuel)%nat →
        ∃ vs, drain_all (lazy_interface SIZE ndebug) fuel s =
                Some (Ok (countdown vs, Lazy.init SIZE)) ∧
              Lazy.run SIZE ndebug
                (replicate (N.to_nat (Lazy.size s)) Dequeue) s =
                Ok (Lazy.init SIZE) ∧
              vs ≡ₚ Lazy.present SIZE s ∧
              StronglySorted lt (seqno <$> vs)).
Proof.
  intros Hst.
  assert (ordered seqno 0 (@nil (nat * TYPE))) as Hnil.
  { split; constructor. }
  split; intros s Hrun Hfuel.
  - destruct (scan_run_ordered SIZE ndebug seqno ops 0%nat _ [] s
                (scan_rep_init SIZE) Hnil Hst Hrun) as (tg & n & Hrep & [Hord _]).
    rewrite (scan_size _ _ _ Hrep) in *. unfold g_size in *.
    rewrite Nat2N.id in *.
    destruct (drain_all_refines _ _ _ _ _ scan_refines fuel s (Scan.global tg))
      as (s' & Hdrain & Hq & (tg' & Hrep' & Hg')); [by exists tg | done |].
    assert (tg' = []) as -> by (by destruct tg').
    rewrite (scan_rep_nil_init _ _ Hrep') in *.
    exists (Scan.global tg).*2. rewrite <- scan_q_run.
    split; [done |]. split; [done |]. split.
    + symmetry. by apply scan_present.
    + by rewrite <- list_fmap_compose.
  - destruct (lazy_run_ordered SIZE ndebug seqno ops 0%nat _ [] s
                (lazy_rep_init SIZE) Hnil Hst Hrun) as (m & n & Hrep & [Hord _]).
    rewrite (lazy_size _ _ _ Hrep) in *. unfold g_size in *.
    rewrite Nat2N.id in *.
    destruct (drain_all_refines _ _ _ _ _ lazy_refines fuel s (Lazy.global m))
      as (s' & Hdrain & Hq & (m' & Hrep' & Hg')); [by exists m | done |].
    assert (m' = []) as -> by (by eapply lazy_global_nil).
    rewrite (lazy_rep_nil_init _ _ Hrep') in *.
    exists (Lazy.global m).*2. rewrite <- lazy_q_run.
    split; [done |]. split; [done |]. split.
    + symmetry. by apply lazy_present.
    + by rewrite <- list_fmap_compose.
Qed.

End caller_variants.

(** X15.  [main] on any array of characters that the counter can count,
    routed into the two sub-queues, built with either header, with or
    without assertions: it ends without a failed assertion, and prints the
    first character of sub-queue 1 with the size of sub-queue 1, then the
    characters of sub-queue 0 in their order with the sizes of sub-queue 0
    counting down, then the other characters of sub-queue 1 in their order
    with [size()] counting down.  Both headers print the same. *)
Theorem main_prints {TYPE : Type} (ndebug : bool) (route : TYPE → nat)
    (data : list TYPE) (fuel : nat) :
  (∀ c, route c < 2)%nat →
  N.of_nat (length data) ≤ ULONG_MAX → (length data < fuel)%nat →
  main_on (scan_interface 2 ndebug) route data fuel =
    Some (Ok (main_lines route data)) ∧
  main_on (lazy_interface 2 ndebug) route data fuel =
    Some (Ok (main_lines route data)).
Proof.
  intros Hroute Hdata Hfuel. split.
  - apply (main_on_refines _ _ _ _ _ (scan_refines 2 ndebug)); [lia | done..].
  - apply (main_on_refines _ _ _ _ _ (lazy_refines 2 ndebug)); [lia | done..].
Qed.

(** What the program prints, as [main.cpp] is. *)
Lemma main_output ndebug :
  scan_main ndebug 15 =
    Some (Ok [(6, "d"); (8, "c"); (7, "c"); (6, "c"); (5, "c"); (4, "c");
              (3, "c"); (2, "c"); (1, "c"); (5, "d"); (4, "d"); (3, "d");
              (2, "d"); (1, "d")]%char) ∧
  lazy_main ndebug 15 = scan_main ndebug 15.
Proof. by destruct ndebug. Qed.

(** * The further properties on sample runs *)

Lemma main_route_valid c : (main_route c < 2)%nat.
Proof. unfold main_route. destruct (Ascii.eqb c "c"); lia. Qed.

Lemma enqueue_appends_witness :
  (0 < 2)%nat ∧
  Scan.run 2 false demo (Scan.init 2) = Ok demo_scan ∧
  Scan.count_ demo_scan < ULONG_MAX ∧
  Lazy.run 2 false demo (Lazy.init 2) = Ok demo_lazy ∧
  deque_size (Lazy.index_queue_ demo_lazy) < max_size ∧
  (∃ s', Scan.enqueue 2 false 0 7%nat demo_scan = Ok (true, s') ∧
     Scan.contents 0 s' = Scan.contents 0 demo_scan ++ [7%nat] ∧
     (∀ j, j ≠ 0%nat → Scan.contents j s' = Scan.contents j demo_scan) ∧
     Scan.size s' = Scan.size demo_scan + 1 ∧
     Scan.front 2 false s' =
       (if Scan.empty demo_scan then Ok 7%nat else Scan.front 2 false demo_scan)) ∧
  (∃ s', Lazy.enqueue 2 false 0 7%nat demo_lazy = Ok s' ∧
     Lazy.contents 0 s' = Lazy.contents 0 demo_lazy ++ [7%nat] ∧
     (∀ j, j ≠ 0%nat → Lazy.contents j s' = Lazy.contents j demo_lazy) ∧
     Lazy.size s' = Lazy.size demo_lazy + 1 ∧
     Lazy.front false s' =
       (if Lazy.empty demo_lazy then Ok 7%nat else Lazy.front false demo_lazy) ∧
     Lazy.remain_ s' = Lazy.remain_ demo_lazy ∧
     Lazy.index_queue_ s' = Lazy.index_queue_ demo_lazy ++ [0%nat]).
Proof.
  assert (0 < 2)%nat as Hi by lia.
  split; [exact Hi |]. do 4 (split; [reflexivity |]). split.
  - apply (proj1 (enqueue_appends 2 false demo 0 7%nat Hi) demo_scan); reflexivity.
  - apply (proj2 (enqueue_appends 2 false demo 0 7%nat Hi) demo_lazy); reflexivity.
Defined.

Lemma dequeue_at_takes_front_at_witness :
  (1 < 2)%nat ∧
  Scan.run 2 false demo (Scan.init 2) = Ok demo_scan ∧
  Scan.empty_at 2 false 1 demo_scan = Ok false ∧
  Lazy.run 2 false demo (Lazy.init 2) = Ok demo_lazy ∧
  Lazy.empty_at 2 false 1 demo_lazy = Ok false ∧
  (∃ v s', Scan.front_at 2 false 1 demo_scan = Ok v ∧
     Scan.dequeue_at 2 false 1 demo_scan = Ok s' ∧
     Scan.contents 1 demo_scan = v :: Scan.contents 1 s' ∧
     Scan.size demo_scan = Scan.size s' + 1 ∧
     Scan.size_at 2 false 1 demo_scan =
       Ok (N.of_nat (length (Scan.contents 1 demo_scan)))) ∧
  (∃ v s', Lazy.front_at 2 false 1 demo_lazy = Ok v ∧
     Lazy.dequeue_at 2 false 1 demo_lazy = Ok s' ∧
     Lazy.contents 1 demo_lazy = v :: Lazy.contents 1 s' ∧
     Lazy.size demo_lazy = Lazy.size s' + 1 ∧
     Lazy.size_at 2 false 1 demo_lazy =
       Ok (N.of_nat (length (Lazy.contents 1 demo_lazy)))).
Proof.
  assert (1 < 2)%nat as Hi by lia.
  split; [exact Hi |]. do 4 (split; [reflexivity |]). split.
  - apply (proj1 (dequeue_at_takes_front_at 2 false demo 1 Hi) demo_scan);
      reflexivity.
  - apply (proj2 (dequeue_at_takes_front_at 2 false demo 1 Hi) demo_lazy);
      reflexivity.
Defined.

(** An index queue whose first entry is stale. *)
Lemma adjust_deque_prefix_witness :
  Forall (λ i, i < length [1; 0])%nat [0; 1; 0]%nat ∧
  Forall (λ r, r < size_t_modulus) [1; 0] ∧
  ∃ gone iq' rem',
    Lazy.adjust_deque [0; 1; 0]%nat [1; 0] = Ok (iq', rem') ∧
    [0; 1; 0]%nat = gone ++ iq' ∧
    length rem' = length [1; 0] ∧
    (∀ i r, [1; 0] !! i = Some r →
       ∃ r', rem' !! i = Some r' ∧
             r = r' + N.of_nat (length (filter (λ j, j = i) gone))) ∧
    (∀ f, head iq' = Some f → rem' !! f = Some 0) ∧
    Lazy.adjust_deque iq' rem' = Ok (iq', rem').
Proof.
  assert (Forall (λ i, i < length [1; 0])%nat [0; 1; 0]%nat) as Hiq.
  { repeat (apply Forall_cons; split; [simpl; lia |]). apply Forall_nil_2. }
  assert (Forall (λ r, r < size_t_modulus) [1; 0]) as Hrem.
  { repeat (apply Forall_cons; split; [reflexivity |]). apply Forall_nil_2. }
  split; [exact Hiq |]. split; [exact Hrem |].
  exact (adjust_deque_prefix [0; 1; 0]%nat [1; 0] Hiq Hrem).
Defined.

Lemma lazy_empty_is_init_witness :
  Lazy.run 2 false drain (Lazy.init 2) = Ok (Lazy.init 2) ∧
  Lazy.empty (Lazy.init (TYPE:=nat) 2) = true ∧
  Lazy.init (TYPE:=nat) 2 = Lazy.init 2 ∧
  ∀ ops', Lazy.run 2 false ops' (Lazy.init (TYPE:=nat) 2) =
          Lazy.run 2 false ops' (Lazy.init 2).
Proof.
  do 2 (split; [reflexivity |]).
  apply (lazy_empty_is_init 2 false drain (Lazy.init 2)); reflexivity.
Defined.

Lemma index_queue_counts_witness :
  Lazy.run 2 false demo (Lazy.init 2) = Ok demo_lazy ∧
  Forall (λ i, i < 2)%nat (Lazy.index_queue_ demo_lazy) ∧
  ∀ i, (i < 2)%nat →
    ∃ n r, Lazy.size_at 2 false i demo_lazy = Ok n ∧
           array_at (Lazy.remain_ demo_lazy) i = Ok r ∧
           N.of_nat (length (filter (λ j, j = i) (Lazy.index_queue_ demo_lazy))) =
             n + r.
Proof.
  split; [reflexivity |].
  apply (index_queue_counts 2 false demo demo_lazy); reflexivity.
Defined.

Lemma scan_ids_increase_witness :
  Scan.run 2 false demo (Scan.init 2) = Ok demo_scan ∧
  (∀ i q, Scan.queues_ demo_scan !! i = Some q →
     StronglySorted N.lt q.*1 ∧ Forall (λ u, u.1 < Scan.count_ demo_scan) q) ∧
  Scan.length_ demo_scan ≤ Scan.count_ demo_scan ∧
  (Scan.count_ demo_scan = 0 ↔ Scan.length_ demo_scan = 0).
Proof.
  split; [reflexivity |].
  apply (scan_ids_increase 2 false demo demo_scan); reflexivity.
Defined.

Lemma dequeue_is_dequeue_at_witness :
  Scan.run 2 false demo (Scan.init 2) = Ok demo_scan ∧
  Scan.empty demo_scan = false ∧
  Lazy.run 2 false demo (Lazy.init 2) = Ok demo_lazy ∧
  Lazy.empty demo_lazy = false ∧
  ((Scan.find_oldest_front 2 demo_scan < 2)%nat ∧
   Scan.front 2 false demo_scan =
     Scan.front_at 2 false (Scan.find_oldest_front 2 demo_scan) demo_scan ∧
   Scan.dequeue 2 false demo_scan =
     Scan.dequeue_at 2 false (Scan.find_oldest_front 2 demo_scan) demo_scan) ∧
  (∃ k, deque_front (Lazy.index_queue_ demo_lazy) = Ok k ∧ (k < 2)%nat ∧
        Lazy.front false demo_lazy = Lazy.front_at 2 false k demo_lazy ∧
        Lazy.dequeue false demo_lazy = Lazy.dequeue_at 2 false k demo_lazy).
Proof.
  do 4 (split; [reflexivity |]). split.
  - apply (proj1 (dequeue_is_dequeue_at 2 false demo) demo_scan); reflexivity.
  - apply (proj2 (dequeue_is_dequeue_at 2 false demo) demo_lazy); reflexivity.
Defined.

Lemma empty_iff_all_empty_witness :
  Scan.run 2 false drain (Scan.init 2) = Ok (Scan.init 2) ∧
  Lazy.run 2 false drain (Lazy.init 2) = Ok (Lazy.init 2) ∧
  (Scan.empty (Scan.init (TYPE:=nat) 2) = true ↔
   ∀ i, (i < 2)%nat → Scan.empty_at 2 false i (Scan.init (TYPE:=nat) 2) = Ok true) ∧
  (Lazy.empty (Lazy.init (TYPE:=nat) 2) = true ↔
   ∀ i, (i < 2)%nat → Lazy.empty_at 2 false i (Lazy.init (TYPE:=nat) 2) = Ok true).
Proof.
  do 2 (split; [reflexivity |]). split.
  - apply (proj1 (empty_iff_all_empty 2 false drain) (Scan.init 2)); reflexivity.
  - apply (proj2 (empty_iff_all_empty 2 false drain) (Lazy.init 2)); reflexivity.
Defined.

Lemma contents_in_insertion_order_witness :
  stamped fst 0 (number 0 demo) ∧
  (∀ s i, Scan.run 2 false (number 0 demo) (Scan.init 2) = Ok s →
          StronglySorted lt (fst <$> Scan.contents i s)) ∧
  (∀ s i, Lazy.run 2 false (number 0 demo) (Lazy.init 2) = Ok s →
          StronglySorted lt (fst <$> Lazy.contents i s)).
Proof.
  assert (stamped (@fst nat nat) 0 (number 0 demo)) as Hst by (by simpl).
  split; [exact Hst |].
  exact (contents_in_insertion_order 2 false fst (number 0 demo) Hst).
Defined.

Lemma ndebug_violations_witness :
  Scan.run 2 true drain (Scan.init 2) = Ok (Scan.init 2) ∧
  Scan.empty (Scan.init (TYPE:=nat) 2) = true ∧
  Lazy.run 2 true drain (Lazy.init 2) = Ok (Lazy.init 2) ∧
  Lazy.empty (Lazy.init (TYPE:=nat) 2) = true ∧
  (Scan.find_oldest_front 2 (Scan.init (TYPE:=nat) 2) = 2%nat ∧
   Scan.front 2 true (Scan.init (TYPE:=nat) 2) = Undefined ∧
   Scan.dequeue 2 true (Scan.init (TYPE:=nat) 2) = Ok (Scan.init 2)) ∧
  (Lazy.front true (Lazy.init (TYPE:=nat) 2) = Undefined ∧
   Lazy.dequeue true (Lazy.init (TYPE:=nat) 2) = Undefined).
Proof.
  do 4 (split; [reflexivity |]). split.
  - apply (proj1 (proj1 (ndebug_violations 2 drain) (Scan.init 2) eq_refl));
      reflexivity.
  - apply (proj1 (proj2 (ndebug_violations 2 drain) (Lazy.init 2) eq_refl));
      reflexivity.
Defined.

Lemma fill_stores_witness :
  (∀ c, main_route c < 2)%nat ∧
  N.of_nat (length main_text) ≤ ULONG_MAX ∧
  (∃ s, fill (scan_interface 2 false) main_route main_text (Scan.init 2) = Ok s ∧
        Scan.run 2 false ((λ c, Enqueue (main_route c) c) <$> main_text)
          (Scan.init 2) = Ok s ∧
        (∀ i, Scan.contents i s = filter (λ c, main_route c = i) main_text) ∧
        Scan.size s = N.of_nat (length main_text)) ∧
  (∃ s, fill (lazy_interface 2 false) main_route main_text (Lazy.init 2) = Ok s ∧
        Lazy.run 2 false ((λ c, Enqueue (main_route c) c) <$> main_text)
          (Lazy.init 2) = Ok s ∧
        (∀ i, Lazy.contents i s = filter (λ c, main_route c = i) main_text) ∧
        Lazy.size s = N.of_nat (length main_text)).
Proof.
  assert (N.of_nat (length main_text) ≤ ULONG_MAX) as Hdata by (by vm_compute).
  split; [exact main_route_valid |]. split; [exact Hdata |].
  exact (fill_stores 2 false main_route main_text main_route_valid Hdata).
Defined.

Lemma drain_at_empties_witness :
  (1 < 2)%nat ∧
  Scan.run 2 false demo (Scan.init 2) = Ok demo_scan ∧
  (length (Scan.contents 1 demo_scan) < 3)%nat ∧
  Lazy.run 2 false demo (Lazy.init 2) = Ok demo_lazy ∧
  (length (Lazy.contents 1 demo_lazy) < 3)%nat ∧
  (∃ s', drain_at (scan_interface 2 false) 3 1 demo_scan =
           Some (Ok (countdown (Scan.contents 1 demo_scan), s')) ∧
         Scan.run 2 false
           (replicate (length (Scan.contents 1 demo_scan)) (DequeueAt 1))
           demo_scan = Ok s' ∧
         Scan.contents 1 s' = [] ∧
         ∀ j, j ≠ 1%nat → Scan.contents j s' = Scan.contents j demo_scan) ∧
  (∃ s', drain_at (lazy_interface 2 false) 3 1 demo_lazy =
           Some (Ok (countdown (Lazy.contents 1 demo_lazy), s')) ∧
         Lazy.run 2 false
           (replicate (length (Lazy.contents 1 demo_lazy)) (DequeueAt 1))
           demo_lazy = Ok s' ∧
         Lazy.contents 1 s' = [] ∧
         ∀ j, j ≠ 1%nat → Lazy.contents j s' = Lazy.contents j demo_lazy).
Proof.
  assert (1 < 2)%nat as Hi by lia.
  assert (2 < 3)%nat as Hfuel by lia.
  split; [exact Hi |]. split; [reflexivity |]. split; [exact Hfuel |].
  split; [reflexivity |]. split; [exact Hfuel |]. split.
  - exact (proj1 (drain_at_empties 2 false demo 1 3 Hi) demo_scan eq_refl Hfuel).
  - exact (proj2 (drain_at_empties 2 false demo 1 3 Hi) demo_lazy eq_refl Hfuel).
Defined.

Lemma drain_all_in_order_witness :
  stamped fst 0 (number 0 demo) ∧
  (∀ s, Scan.run 2 false (number 0 demo) (Scan.init 2) = Ok s →
        (N.to_nat (Scan.size s) < 3)%nat →
        ∃ vs, drain_all (scan_interface 2 false) 3 s =
                Some (Ok (countdown vs, Scan.init 2)) ∧
              Scan.run 2 false (replicate (N.to_nat (Scan.size s)) Dequeue) s =
                Ok (Scan.init 2) ∧
              vs ≡ₚ Scan.present 2 s ∧
              StronglySorted lt (fst <$> vs)) ∧
  (∀ s, Lazy.run 2 false (number 0 demo) (Lazy.init 2) = Ok s →
        (N.to_nat (Lazy.size s) < 3)%nat →
        ∃ vs, drain_all (lazy_interface 2 false) 3 s =
                Some (Ok (countdown vs, Lazy.init 2)) ∧
              Lazy.run 2 false (replicate (N.to_nat (Lazy.size s)) Dequeue) s =
                Ok (Lazy.init 2) ∧
              vs ≡ₚ Lazy.present 2 s ∧
              StronglySorted lt (fst <$> vs)).
Proof.
  assert (stamped (@fst nat nat) 0 (number 0 demo)) as Hst by (by simpl).
  split; [exact Hst |].
  exact (drain_all_in_order 2 false fst (number 0 demo) 3 Hst).
Defined.

(** [main.cpp] as it is: both programs print what [main_lines] says. *)
Lemma main_prints_witness :
  (∀ c, main_route c < 2)%nat ∧
  N.of_nat (length main_text) ≤ ULONG_MAX ∧
  (length main_text < 15)%nat ∧
  scan_main false 15 = Some (Ok (main_lines main_route main_text)) ∧
  lazy_main false 15 = Some (Ok (main_lines main_route main_text)).
Proof.
  assert (N.of_nat (length main_text) ≤ ULONG_MAX) as Hdata by (by vm_compute).
  assert (length main_text < 15)%nat as Hfuel by (simpl; lia).
  split; [exact main_route_valid |]. split; [exact Hdata |].
  split; [exact Hfuel |].
  exact (main_prints false main_route main_text 15 main_route_valid Hdata Hfuel).
Defined.
